(** * Verification of the batching engine ([pkg/batcher]) and of the loader's
      retry adapter ([cmd/loader], [insertWithRetry]).

    The Go code is embedded shallowly:
    - slices are headers (backing array, length, capacity) over a store of
      backing arrays, so that aliasing between the live buffer and a detached
      batch is a statement about the store;
    - the methods of [Batcher] are state-passing functions over a machine
      state; the stretches of code that run under [b.mu], and the calls of
      [runFlush] outside of it, are the atomic actions of a transition system
      over which the concurrent properties are stated;
    - the external sink, the bulk insert and the cancellable wait are
      functions of an abstract world state. *)

From stdpp Require Import base option list strings.
From Stdlib Require Import ZArith Lia.

(** * Part I: the embedding *)

(** ** Go errors *)

(** The error of a context, [ctx.Err()], once the context is done. *)
Inductive ctx_error : Type := Canceled | DeadlineExceeded.

(** A Go [error] value: one made by [errors.New], the error of a context, or
    an error value of an external collaborator. *)
Inductive error (E : Type) : Type :=
| errors_New (msg : string)
| ctx_Err (c : ctx_error)
| external (e : E).
Arguments errors_New {E} msg.
Arguments ctx_Err {E} c.
Arguments external {E} e.

(** ** Go slices *)

(** What the language runtime fixes for an element type: its zero value,
    which [make] and a growing [append] fill with, and the capacity picked
    when [append] has to grow (old capacity, needed length). The language
    only promises that the new array is large enough; [newcap] enforces it. *)
Class Runtime (T : Type) : Type := {
  zero : T;
  growslice : nat → nat → nat
}.

(** A slice header; [arr = None] is the nil slice. All slices of the batcher
    start at offset 0 of their backing array. *)
Record slice : Type := Slice { arr : option nat; len : nat; cap : nat }.

Definition nil_slice : slice := Slice None 0 0.

(** [s[:0]] *)
Definition reslice0 (s : slice) : slice := Slice (arr s) 0 (cap s).

Section slices.
Context {T : Type} `{!Runtime T}.

(** The store of backing arrays, addressed by allocation order: a list of
    arrays [h : list (list T)]. *)
Definition array (h : list (list T)) (l : nat) : list T := default [] (h !! l).

(** The elements a slice denotes in a store. *)
Definition contents (h : list (list T)) (s : slice) : list T :=
  match arr s with
  | None => []
  | Some l => take (len s) (array h l)
  end.

(** [make([]T, n)] *)
Definition make (n : nat) (h : list (list T)) : slice * list (list T) :=
  (Slice (Some (length h)) n n, h ++ [replicate n zero]).

(** [copy(dst, src)]: the first [min(len(dst), len(src))] elements. *)
Definition copy (dst src : slice) (h : list (list T)) : list (list T) :=
  match arr dst with
  | None => h
  | Some d =>
      let n := Nat.min (len dst) (len src) in
      <[d := take n (contents h src) ++ drop n (array h d)]> h
  end.

Definition newcap (oldcap need : nat) : nat :=
  Nat.max need (growslice oldcap need).

(** [append(s, x)] when the backing array has to be (re)allocated. *)
Definition append_grow (s : slice) (x : T) (h : list (list T))
  : slice * list (list T) :=
  let c := newcap (cap s) (S (len s)) in
  (Slice (Some (length h)) (S (len s)) c,
   h ++ [contents h s ++ x :: replicate (c - S (len s)) zero]).

(** [append(s, x)]: in place when there is room, else into a new array. *)
Definition append (s : slice) (x : T) (h : list (list T))
  : slice * list (list T) :=
  match arr s with
  | Some l =>
      if decide (len s < cap s)
      then (Slice (Some l) (S (len s)) (cap s),
            <[l := <[len s := x]> (array h l)]> h)
      else append_grow s x h
  | None => append_grow s x h
  end.

(** A slice header is well formed in a store when its backing array is
    allocated with [cap] cells and [len <= cap]; nil has no cells. *)
Definition wf_slice (h : list (list T)) (s : slice) : Prop :=
  match arr s with
  | None => len s = 0 ∧ cap s = 0
  | Some l => len s ≤ cap s ∧ ∃ a, h !! l = Some a ∧ length a = cap s
  end.

(** A slice [b] is apart from the slice [s] when its backing array is
    allocated and is not the one of [s]. *)
Definition apart (h : list (list T)) (s b : slice) : Prop :=
  match arr b with
  | None => True
  | Some l => l < length h ∧ arr s ≠ Some l
  end.

(** What an operation on the slice [s] may do to the store: allocate, and
    write to the backing array of [s]; the new header is on the old array
    or on a new one. *)
Definition frames (h : list (list T)) (s : slice) (h' : list (list T)) (s' : slice)
  : Prop :=
  length h ≤ length h' ∧
  (∀ l, l < length h → arr s ≠ Some l → h' !! l = h !! l) ∧
  (arr s' = arr s ∨ ∃ l, arr s' = Some l ∧ length h ≤ l).

End slices.

(** ** The batcher *)

Section batcher.
Context {T W E : Type} `{!Runtime T}.

(** The sink ([flushFn]): reads the batch it is handed, acts on the world. *)
Definition sink : Type := list T → W → option (error E) * W.

(** [type Batcher[T any] struct]. [mu] is the lock whose critical sections
    are atomic actions below; [stop] is whether the channel is closed and
    [wg] the counter of the wait group. Durations are in nanoseconds. *)
Record Batcher : Type := mkBatcher {
  buffer : slice;
  maxSize : Z;
  interval : Z;
  flushFn : option sink;
  stop : bool;
  wg : nat;
  lastError : option (error E)
}.

(** What a method runs in: the receiver, the store of backing arrays, the
    world behind the sink, and (an observation, not read by the code) the
    batches the sink has been invoked with, oldest first. *)
Record machine : Type := mkMachine {
  bat : Batcher;
  store : list (list T);
  world : W;
  sink_calls : list (list T)
}.

Definition set_buffer (s : slice) (b : Batcher) : Batcher :=
  mkBatcher s (maxSize b) (interval b) (flushFn b) (stop b) (wg b) (lastError b).
Definition set_lastError (e : option (error E)) (b : Batcher) : Batcher :=
  mkBatcher (buffer b) (maxSize b) (interval b) (flushFn b) (stop b) (wg b) e.
Definition set_stop (c : bool) (b : Batcher) : Batcher :=
  mkBatcher (buffer b) (maxSize b) (interval b) (flushFn b) c (wg b) (lastError b).
Definition set_wg (n : nat) (b : Batcher) : Batcher :=
  mkBatcher (buffer b) (maxSize b) (interval b) (flushFn b) (stop b) n (lastError b).
Definition set_bat (b : Batcher) (m : machine) : machine :=
  mkMachine b (store m) (world m) (sink_calls m).

(** The items of the pending buffer. *)
Definition buffered (m : machine) : list T := contents (store m) (buffer (bat m)).

(** [func New[T any](maxSize, interval, flushFn)]: the instance, with the
    scheduler goroutine registered in the wait group. *)
Definition New (maxSize interval : Z) (flushFn : option sink) : Batcher :=
  mkBatcher nil_slice maxSize interval flushFn false 1 None.

(** [func (b *Batcher[T]) detach() []T] *)
Definition detach (m : machine) : slice * machine :=
  let buf := buffer (bat m) in
  if decide (len buf = 0) then (nil_slice, m)
  else
    let '(batch, h1) := make (len buf) (store m) in
    let h2 := copy batch buf h1 in
    (batch, mkMachine (set_buffer (reslice0 buf) (bat m)) h2 (world m) (sink_calls m)).

(** [func (b *Batcher[T]) runFlush(batch []T) error] *)
Definition runFlush (batch : slice) (m : machine) : option (error E) * machine :=
  if decide (len batch = 0) then (None, m)
  else
    match flushFn (bat m) with
    | None => (Some (errors_New "batcher: no flush function configured"), m)
    | Some f =>
        let items := contents (store m) batch in
        let '(r, w) := f items (world m) in
        (r, mkMachine (bat m) (store m) w (sink_calls m ++ [items]))
    end.

(** The critical section of [Add]: append, compare, detach. *)
Definition Add_locked (item : T) (m : machine) : bool * slice * machine :=
  let '(buf, h) := append (buffer (bat m)) item (store m) in
  let m1 := mkMachine (set_buffer buf (bat m)) h (world m) (sink_calls m) in
  let shouldFlush := bool_decide (maxSize (bat m) ≤ Z.of_nat (len buf))%Z in
  if shouldFlush
  then let '(batch, m2) := detach m1 in (true, batch, m2)
  else (false, nil_slice, m1).

(** [func (b *Batcher[T]) Add(item T) error], run without interference. *)
Definition Add (item : T) (m : machine) : option (error E) * machine :=
  let '(shouldFlush, batch, m1) := Add_locked item m in
  if shouldFlush then runFlush batch m1 else (None, m1).

(** [func (b *Batcher[T]) Flush() error], run without interference. *)
Definition Flush (m : machine) : option (error E) * machine :=
  let '(batch, m1) := detach m in
  runFlush batch m1.

(** [func (b *Batcher[T]) LastError() error] *)
Definition LastError (m : machine) : option (error E) := lastError (bat m).

(** [b.lastError = err] under the lock, in [loop]. *)
Definition record_error (e : error E) (m : machine) : machine :=
  set_bat (set_lastError (Some e) (bat m)) m.

(** The body of [case <-ticker.C:] in [loop], run without interference.
    It yields no value: [loop] has no result and no caller. *)
Definition tick (m : machine) : machine :=
  let '(err, m1) := Flush m in
  match err with
  | Some e => record_error e m1
  | None => m1
  end.

(** A producer calling [Add] for each item in turn; the results in order. *)
Fixpoint Adds (items : list T) (m : machine) : list (option (error E)) * machine :=
  match items with
  | [] => ([], m)
  | item :: rest =>
      let '(r, m1) := Add item m in
      let '(rs, m2) := Adds rest m1 in
      (r :: rs, m2)
  end.

(** ** Invariants *)

(** The pending buffer is a well-formed slice of the store. *)
Definition wf (m : machine) : Prop := wf_slice (store m) (buffer (bat m)).

(** Fields of the receiver that only [New], [Close] and [loop] write. *)
Definition same_fields (b b' : Batcher) : Prop :=
  maxSize b' = maxSize b ∧ interval b' = interval b ∧ flushFn b' = flushFn b ∧
  stop b' = stop b ∧ wg b' = wg b ∧ lastError b' = lastError b.

(** A step of the buffer: what [detach] and the critical section of [Add]
    may change. *)
Definition buffer_step (m m' : machine) : Prop :=
  wf m' ∧ same_fields (bat m) (bat m') ∧
  world m' = world m ∧ sink_calls m' = sink_calls m ∧
  frames (store m) (buffer (bat m)) (store m') (buffer (bat m')).

(** What any action may do to the machine: keep the buffer well formed,
    allocate, and write to the buffer's array. *)
Definition mach_step (m m' : machine) : Prop :=
  wf m' ∧ frames (store m) (buffer (bat m)) (store m') (buffer (bat m')).

(** ** The concurrent system

    Goroutines interleave at the granularity of the critical sections of
    [b.mu]; a call of [runFlush] (and with it of the sink) is one action of
    the goroutine that makes it. *)

(** Where [loop] is: blocked in [select], inside [b.Flush()] between the
    critical section and [runFlush], about to record an error, returned
    (its deferred [b.wg.Done()] has run), or never at its [select] because
    [time.NewTicker(b.interval)] panics, which it does on an interval that
    is not positive. *)
Inductive loop_pc : Type :=
| LSelect
| LRunFlush (batch : slice)
| LRecord (err : error E)
| LDone
| LPanic.

(** Where the one call of [Close] is: not made, blocked in [b.wg.Wait()],
    about to call [b.Flush()], inside it, or returned. *)
Inductive close_pc : Type :=
| CIdle
| CWait
| CFlush
| CRunFlush (batch : slice)
| CReturned (r : option (error E)).

(** Who acts: a producer in [Add], a caller of [Flush], the interval
    scheduler ([loop]), the caller of [Close]. *)
Inductive actor : Type := Producer | Caller | Scheduler | Closer.

Global Instance actor_eq_dec : EqDecision actor.
Proof. solve_decision. Defined.

(** What an observer sees: an item appended, a batch detached ([[]] is "no
    batch"), the sink invoked with a batch and its result, a call returned. *)
Inductive event : Type :=
| EvAdd (item : T)
| EvDetach (who : actor) (batch : list T)
| EvSink (who : actor) (batch : list T) (r : option (error E))
| EvReturn (who : actor) (r : option (error E)).

Record system : Type := mkSystem {
  mach : machine;
  loop_at : loop_pc;
  close_at : close_pc;
  (** batches detached by [Add] and [Flush] calls that have not yet run
      [runFlush] *)
  inflight : list (actor * slice);
  trace : list event
}.

Inductive action : Type :=
| Add_lock (item : T)   (** a producer runs the critical section of [Add] *)
| Flush_lock            (** a caller runs the critical section of [Flush] *)
| Run_flush (i : nat)   (** the owner of the i-th in-flight batch runs
                            [runFlush] and returns *)
| Tick_lock             (** [loop]: [<-ticker.C] (which [select] may take even
                            when [stop] is closed), critical section of [Flush] *)
| Tick_run              (** [loop]: [runFlush] of the tick's batch *)
| Tick_record           (** [loop]: [b.lastError = err] under the lock *)
| Loop_exit             (** [loop]: [<-b.stop], return, [b.wg.Done()] *)
| Close_stop            (** [Close]: [close(b.stop)] *)
| Close_wait            (** [Close]: [b.wg.Wait()] returns *)
| Close_lock            (** [Close]: critical section of [b.Flush()] *)
| Close_run.            (** [Close]: [runFlush], return *)

Definition by_scheduler (a : action) : bool :=
  match a with
  | Tick_lock | Tick_run | Tick_record | Loop_exit => true
  | _ => false
  end.

(** The sink invocations between two machine states, as events of [who]. *)
Definition sink_events (who : actor) (m m' : machine) (r : option (error E))
  : list event :=
  (λ items, EvSink who items r) <$> drop (length (sink_calls m)) (sink_calls m').

Definition step (a : action) (s : system) : option system :=
  match a with
  | Add_lock item =>
      let '(shouldFlush, batch, m) := Add_locked item (mach s) in
      if shouldFlush
      then Some (mkSystem m (loop_at s) (close_at s)
                   (inflight s ++ [(Producer, batch)])
                   (trace s ++ [EvAdd item; EvDetach Producer (contents (store m) batch)]))
      else Some (mkSystem m (loop_at s) (close_at s) (inflight s)
                   (trace s ++ [EvAdd item; EvReturn Producer None]))
  | Flush_lock =>
      let '(batch, m) := detach (mach s) in
      Some (mkSystem m (loop_at s) (close_at s)
              (inflight s ++ [(Caller, batch)])
              (trace s ++ [EvDetach Caller (contents (store m) batch)]))
  | Run_flush i =>
      match inflight s !! i with
      | None => None
      | Some (who, batch) =>
          let '(r, m) := runFlush batch (mach s) in
          Some (mkSystem m (loop_at s) (close_at s)
                  (delete i (inflight s))
                  (trace s ++ sink_events who (mach s) m r ++ [EvReturn who r]))
      end
  | Tick_lock =>
      match loop_at s with
      | LSelect =>
          let '(batch, m) := detach (mach s) in
          Some (mkSystem m (LRunFlush batch) (close_at s) (inflight s)
                  (trace s ++ [EvDetach Scheduler (contents (store m) batch)]))
      | _ => None
      end
  | Tick_run =>
      match loop_at s with
      | LRunFlush batch =>
          let '(r, m) := runFlush batch (mach s) in
          Some (mkSystem m
                  (match r with Some e => LRecord e | None => LSelect end)
                  (close_at s) (inflight s)
                  (trace s ++ sink_events Scheduler (mach s) m r))
      | _ => None
      end
  | Tick_record =>
      match loop_at s with
      | LRecord e =>
          Some (mkSystem (record_error e (mach s)) LSelect (close_at s)
                  (inflight s) (trace s))
      | _ => None
      end
  | Loop_exit =>
      match loop_at s with
      | LSelect =>
          if stop (bat (mach s))
          then Some (mkSystem
                       (set_bat (set_wg (wg (bat (mach s)) - 1) (bat (mach s))) (mach s))
                       LDone (close_at s) (inflight s) (trace s))
          else None
      | _ => None
      end
  | Close_stop =>
      match close_at s with
      | CIdle =>
          (* closing a closed channel panics *)
          if stop (bat (mach s)) then None
          else Some (mkSystem (set_bat (set_stop true (bat (mach s))) (mach s))
                       (loop_at s) CWait (inflight s) (trace s))
      | _ => None
      end
  | Close_wait =>
      match close_at s with
      | CWait =>
          if decide (wg (bat (mach s)) = 0)
          then Some (mkSystem (mach s) (loop_at s) CFlush (inflight s) (trace s))
          else None
      | _ => None
      end
  | Close_lock =>
      match close_at s with
      | CFlush =>
          let '(batch, m) := detach (mach s) in
          Some (mkSystem m (loop_at s) (CRunFlush batch) (inflight s)
                  (trace s ++ [EvDetach Closer (contents (store m) batch)]))
      | _ => None
      end
  | Close_run =>
      match close_at s with
      | CRunFlush batch =>
          let '(r, m) := runFlush batch (mach s) in
          Some (mkSystem m (loop_at s) (CReturned r) (inflight s)
                  (trace s ++ sink_events Closer (mach s) m r ++ [EvReturn Closer r]))
      | _ => None
      end
  end.

(** A schedule: actions in the order they take effect. *)
Fixpoint run (acts : list action) (s : system) : option system :=
  match acts with
  | [] => Some s
  | a :: rest =>
      match step a s with
      | Some s' => run rest s'
      | None => None
      end
  end.

(** The system right after [New] returned, in a given store and world.
    [loop] first creates its ticker; with a positive interval it then sits in
    its [select]. With an interval that is not positive [time.NewTicker]
    panics: the scheduler never acts, [b.wg.Done()] never runs, and the
    process dies; what the other goroutines do until then is what they do
    here while the scheduler stays put. *)
Definition start (maxSize interval : Z) (flushFn : option sink)
    (h : list (list T)) (w : W) : system :=
  mkSystem (mkMachine (New maxSize interval flushFn) h w [])
    (if decide (0 < interval)%Z then LSelect else LPanic) CIdle [] [].

(** Readings of a trace. *)
Definition added (tr : list event) : list T :=
  tr ≫= λ ev, match ev with EvAdd item => [item] | _ => [] end.

Definition detached (tr : list event) : list (list T) :=
  tr ≫= λ ev, match ev with EvDetach _ batch => [batch] | _ => [] end.

Definition event_of (who : actor) (ev : event) : bool :=
  match ev with
  | EvAdd _ => bool_decide (who = Producer)
  | EvDetach a _ | EvSink a _ _ | EvReturn a _ => bool_decide (who = a)
  end.

Definition events_of (who : actor) (tr : list event) : list event :=
  filter (λ ev, event_of who ev = true) tr.

(** A call of [who] returned. *)
Definition is_return (who : actor) (ev : event) : Prop :=
  match ev with EvReturn a _ => a = who | _ => False end.

(** A batch held outside of the lock is well formed and shares no array
    with the buffer. *)
Definition detached_ok (m : machine) (b : slice) : Prop :=
  wf_slice (store m) b ∧ apart (store m) (buffer (bat m)) b.

Definition sys_wf (s : system) : Prop :=
  wf (mach s) ∧
  Forall (λ p, detached_ok (mach s) p.2) (inflight s) ∧
  (∀ b, loop_at s = LRunFlush b → detached_ok (mach s) b) ∧
  (∀ b, close_at s = CRunFlush b → detached_ok (mach s) b).

(** *** The actions, seen on the items

    What each action does to the items of the buffer and of the batches;
    [step] is shown below to act this way on well-formed systems. *)

(** [detach]: the batch takes every buffered item, the buffer is left empty. *)
Definition detached_from (m : machine) (batch : slice) (m' : machine) : Prop :=
  buffer_step m m' ∧ detached_ok m' batch ∧
  len (buffer (bat m')) = 0 ∧ buffered m' = [] ∧
  len batch = len (buffer (bat m)) ∧
  contents (store m') batch = buffered m.

(** [runFlush]: a no-op on no batch, a configuration error without a sink,
    else one invocation of the sink. The receiver and the store are kept. *)
Inductive flushed (who : actor) (batch : slice) (m : machine)
  : option (error E) → machine → list event → Prop :=
| flushed_no_batch :
    len batch = 0 →
    flushed who batch m None m []
| flushed_no_sink :
    len batch ≠ 0 → flushFn (bat m) = None →
    flushed who batch m
      (Some (errors_New "batcher: no flush function configured")) m []
| flushed_sink f r w :
    len batch ≠ 0 → flushFn (bat m) = Some f →
    f (contents (store m) batch) (world m) = (r, w) →
    flushed who batch m r
      (mkMachine (bat m) (store m) w (sink_calls m ++ [contents (store m) batch]))
      [EvSink who (contents (store m) batch) r].

Inductive step_rel (s : system) : action → system → Prop :=
| SR_add_keep item m' :
    buffer_step (mach s) m' →
    buffered m' = buffered (mach s) ++ [item] →
    (Z.of_nat (S (len (buffer (bat (mach s))))) < maxSize (bat (mach s)))%Z →
    step_rel s (Add_lock item)
      (mkSystem m' (loop_at s) (close_at s) (inflight s)
         (trace s ++ [EvAdd item; EvReturn Producer None]))
| SR_add_flush item batch m' :
    buffer_step (mach s) m' → detached_ok m' batch →
    len (buffer (bat m')) = 0 → buffered m' = [] →
    contents (store m') batch = buffered (mach s) ++ [item] →
    (maxSize (bat (mach s)) ≤ Z.of_nat (S (len (buffer (bat (mach s))))))%Z →
    step_rel s (Add_lock item)
      (mkSystem m' (loop_at s) (close_at s) (inflight s ++ [(Producer, batch)])
         (trace s ++ [EvAdd item; EvDetach Producer (buffered (mach s) ++ [item])]))
| SR_flush_lock batch m' :
    detached_from (mach s) batch m' →
    step_rel s Flush_lock
      (mkSystem m' (loop_at s) (close_at s) (inflight s ++ [(Caller, batch)])
         (trace s ++ [EvDetach Caller (buffered (mach s))]))
| SR_run_flush i who batch r m' evs :
    inflight s !! i = Some (who, batch) →
    flushed who batch (mach s) r m' evs →
    step_rel s (Run_flush i)
      (mkSystem m' (loop_at s) (close_at s) (delete i (inflight s))
         (trace s ++ evs ++ [EvReturn who r]))
| SR_tick_lock batch m' :
    loop_at s = LSelect →
    detached_from (mach s) batch m' →
    step_rel s Tick_lock
      (mkSystem m' (LRunFlush batch) (close_at s) (inflight s)
         (trace s ++ [EvDetach Scheduler (buffered (mach s))]))
| SR_tick_run batch r m' evs :
    loop_at s = LRunFlush batch →
    flushed Scheduler batch (mach s) r m' evs →
    step_rel s Tick_run
      (mkSystem m' (match r with Some e => LRecord e | None => LSelect end)
         (close_at s) (inflight s) (trace s ++ evs))
| SR_tick_record e :
    loop_at s = LRecord e →
    step_rel s Tick_record
      (mkSystem (record_error e (mach s)) LSelect (close_at s) (inflight s) (trace s))
| SR_loop_exit :
    loop_at s = LSelect → stop (bat (mach s)) = true →
    step_rel s Loop_exit
      (mkSystem (set_bat (set_wg (wg (bat (mach s)) - 1) (bat (mach s))) (mach s))
         LDone (close_at s) (inflight s) (trace s))
| SR_close_stop :
    close_at s = CIdle → stop (bat (mach s)) = false →
    step_rel s Close_stop
      (mkSystem (set_bat (set_stop true (bat (mach s))) (mach s))
         (loop_at s) CWait (inflight s) (trace s))
| SR_close_wait :
    close_at s = CWait → wg (bat (mach s)) = 0 →
    step_rel s Close_wait
      (mkSystem (mach s) (loop_at s) CFlush (inflight s) (trace s))
| SR_close_lock batch m' :
    close_at s = CFlush →
    detached_from (mach s) batch m' →
    step_rel s Close_lock
      (mkSystem m' (loop_at s) (CRunFlush batch) (inflight s)
         (trace s ++ [EvDetach Closer (buffered (mach s))]))
| SR_close_run batch r m' evs :
    close_at s = CRunFlush batch →
    flushed Closer batch (mach s) r m' evs →
    step_rel s Close_run
      (mkSystem m' (loop_at s) (CReturned r) (inflight s)
         (trace s ++ evs ++ [EvReturn Closer r])).

(** *** Invariants of the system *)

(** Every item added is in exactly one place: one detached batch, or the
    buffer; and in the order it was added. *)
Definition partitioned (s : system) : Prop :=
  concat (detached (trace s)) ++ buffered (mach s) = added (trace s).

(** The wait group counts the scheduler; [stop] is closed from the first
    action of [Close] on; [Close] gets past [b.wg.Wait()] only once [loop]
    has returned. *)
Definition shutdown_inv (s : system) : Prop :=
  wg (bat (mach s)) = match loop_at s with LDone => 0 | _ => 1 end ∧
  match close_at s with
  | CIdle => stop (bat (mach s)) = false ∧ loop_at s ≠ LDone
  | CWait => stop (bat (mach s)) = true
  | CFlush | CRunFlush _ | CReturned _ =>
      stop (bat (mach s)) = true ∧ loop_at s = LDone
  end.

(** In-flight batches belong to producers and callers of [Flush]. *)
Definition clients_inv (s : system) : Prop :=
  Forall (λ p, p.1 = Producer ∨ p.1 = Caller) (inflight s).

(** The events of a completed final drain of [items] with result [r]. *)
Definition drained (fn : option sink) (items : list T) (r : option (error E))
    (evs : list event) : Prop :=
  match items with
  | [] => r = None ∧ evs = [EvDetach Closer []; EvReturn Closer None]
  | _ :: _ =>
      match fn with
      | None =>
          r = Some (errors_New "batcher: no flush function configured") ∧
          evs = [EvDetach Closer items; EvReturn Closer r]
      | Some _ =>
          evs = [EvDetach Closer items; EvSink Closer items r; EvReturn Closer r]
      end
  end.

(** What [Close] has done so far, by where it is. *)
Definition closer_inv (s : system) : Prop :=
  match close_at s with
  | CIdle | CWait | CFlush => events_of Closer (trace s) = []
  | CRunFlush b =>
      events_of Closer (trace s) = [EvDetach Closer (contents (store (mach s)) b)]
  | CReturned r =>
      ∃ items, drained (flushFn (bat (mach s))) items r (events_of Closer (trace s))
  end.

Definition invariant (s : system) : Prop :=
  sys_wf s ∧ partitioned s ∧ shutdown_inv s ∧ clients_inv s ∧ closer_inv s.

(** *** How far [Close] is from returning *)

Definition by_closer (a : action) : bool :=
  match a with
  | Close_stop | Close_wait | Close_lock | Close_run => true
  | _ => false
  end.

(** The actions [Close] and [loop] still have to take before [Close]
    returns, at most, when [loop] has its ticker. *)
Definition close_distance (s : system) : nat :=
  match close_at s with
  | CIdle => 4 | CWait => 3 | CFlush => 2 | CRunFlush _ => 1 | CReturned _ => 0
  end +
  match loop_at s with
  | LRunFlush _ => 3 | LRecord _ => 2 | LSelect => 1 | LDone | LPanic => 0
  end.

(** *** Where the items are *)

(** The batches goroutines hold outside of the lock: those in flight from
    [Add] and [Flush] calls, the scheduler's, the one of [Close]. *)
Definition held_batches (s : system) : list slice :=
  (snd <$> inflight s) ++
  match loop_at s with LRunFlush b => [b] | _ => [] end ++
  match close_at s with CRunFlush b => [b] | _ => [] end.

(** The items of those batches. *)
Definition in_flight_items (s : system) : list T :=
  held_batches s ≫= contents (store (mach s)).

(** The items the sink has been handed, in the order of its invocations. *)
Definition delivered (m : machine) : list T := concat (sink_calls m).

(** The size at which [Add] detaches: [len(b.buffer) >= b.maxSize] holds
    after every append when [maxSize] is below 1. *)
Definition batch_limit (N : Z) : nat := Z.to_nat (Z.max 1 N).

(** Sizes stay within the limit: of the buffer at rest, of the batches
    held, of the batches detached, of the batches handed to the sink (which
    are never empty). *)
Definition bounded (s : system) : Prop :=
  len (buffer (bat (mach s))) < batch_limit (maxSize (bat (mach s))) ∧
  Forall (λ b, len b ≤ batch_limit (maxSize (bat (mach s)))) (held_batches s) ∧
  Forall (λ b : list T, length b ≤ batch_limit (maxSize (bat (mach s))))
    (detached (trace s)) ∧
  Forall (λ b : list T, 0 < length b ≤ batch_limit (maxSize (bat (mach s))))
    (sink_calls (mach s)).

(** Every item added is handed to the sink, in flight, or buffered. *)
Definition conserved (s : system) : Prop :=
  delivered (mach s) ++ in_flight_items s ++ buffered (mach s) ≡ₚ added (trace s).

(** The five kinds of action, by what they do to the items. *)
Inductive step_kind (s s' : system) : Prop :=
| kind_append item :
    buffer_step (mach s) (mach s') →
    buffered (mach s') = buffered (mach s) ++ [item] →
    len (buffer (bat (mach s'))) = S (len (buffer (bat (mach s)))) →
    (Z.of_nat (S (len (buffer (bat (mach s))))) < maxSize (bat (mach s)))%Z →
    held_batches s' = held_batches s →
    trace s' = trace s ++ [EvAdd item; EvReturn Producer None] →
    step_kind s s'
| kind_append_detach item batch :
    buffer_step (mach s) (mach s') → detached_ok (mach s') batch →
    len (buffer (bat (mach s'))) = 0 → buffered (mach s') = [] →
    len batch = S (len (buffer (bat (mach s)))) →
    contents (store (mach s')) batch = buffered (mach s) ++ [item] →
    held_batches s' ≡ₚ batch :: held_batches s →
    trace s' = trace s ++ [EvAdd item; EvDetach Producer (buffered (mach s) ++ [item])] →
    step_kind s s'
| kind_detach who batch :
    buffer_step (mach s) (mach s') → detached_ok (mach s') batch →
    len (buffer (bat (mach s'))) = 0 → buffered (mach s') = [] →
    len batch = len (buffer (bat (mach s))) →
    contents (store (mach s')) batch = buffered (mach s) →
    held_batches s' ≡ₚ batch :: held_batches s →
    trace s' = trace s ++ [EvDetach who (buffered (mach s))] →
    step_kind s s'
| kind_flush who batch r evs tail :
    flushed who batch (mach s) r (mach s') evs →
    held_batches s ≡ₚ batch :: held_batches s' →
    trace s' = trace s ++ evs ++ tail →
    added tail = [] → detached tail = [] →
    step_kind s s'
| kind_control :
    store (mach s') = store (mach s) →
    buffer (bat (mach s')) = buffer (bat (mach s)) →
    maxSize (bat (mach s')) = maxSize (bat (mach s)) →
    sink_calls (mach s') = sink_calls (mach s) →
    held_batches s' = held_batches s →
    trace s' = trace s →
    step_kind s s'.

End batcher.

(** ** The loader's retry adapter *)

(** [time.Duration] is a signed 64-bit count of nanoseconds. *)
Definition wrap64 (z : Z) : Z := ((z + 2 ^ 63) mod 2 ^ 64 - 2 ^ 63)%Z.
Definition Millisecond : Z := 1000000.
Definition Second : Z := 1000000000.

(** [backoff *= 2; if backoff > 5*time.Second { backoff = 5 * time.Second }] *)
Definition next_backoff (backoff : Z) : Z :=
  let doubled := wrap64 (backoff * 2) in
  if decide (doubled > 5 * Second)%Z then (5 * Second)%Z else doubled.

(** The collaborators of [insertWithRetry]: the bulk insert
    [client.InsertBatch(insertCtx, events)], and the
    [select] between [<-ctx.Done()] and [<-time.After(backoff)], which
    yields [Some (ctx.Err())] when the context's case is taken. *)
Class Collaborators (Ev W E : Type) : Type := {
  InsertBatch : list Ev → W → option (error E) * W;
  wait_backoff : Z → W → option ctx_error * W
}.

Section loader.
Context {Ev W E : Type} `{!Collaborators Ev W E}.

(** What an observer sees of one call: each insert attempt with its result,
    each wait with its length and whether the context ended it. *)
Inductive retry_event : Type :=
| Inserted (attempt : Z) (r : option (error E))
| Waited (backoff : Z) (c : option ctx_error).

(** The world, the observations so far, the counter [insertErrors] and the
    observations of [batchSizeHistogram] ([insertDuration] observes wall
    time and is left out). *)
Record retry_state : Type := mkRetry {
  rworld : W;
  rlog : list retry_event;
  insertErrors : nat;
  batchSizes : list nat
}.

Definition maxAttempts : Z := 5.

(** The [for] loop of [insertWithRetry], from the test of its condition;
    [fuel] bounds the number of iterations. *)
Fixpoint retry_loop (fuel : nat) (attempt backoff : Z) (events : list Ev)
    (st : retry_state) : option (option (error E) * retry_state) :=
  match fuel with
  | O => None
  | S fuel' =>
      if decide (attempt ≤ maxAttempts)%Z then
        let '(err, w1) := InsertBatch events (rworld st) in
        let log1 := rlog st ++ [Inserted attempt err] in
        match err with
        | None =>
            Some (None,
                  mkRetry w1 log1 (insertErrors st) (batchSizes st ++ [length events]))
        | Some e =>
            let errs := S (insertErrors st) in
            if decide (attempt = maxAttempts) then
              Some (Some e, mkRetry w1 log1 errs (batchSizes st))
            else
              let '(c, w2) := wait_backoff backoff w1 in
              let log2 := log1 ++ [Waited backoff c] in
              match c with
              | Some ce => Some (Some (ctx_Err ce), mkRetry w2 log2 errs (batchSizes st))
              | None =>
                  retry_loop fuel' (attempt + 1)%Z (next_backoff backoff) events
                    (mkRetry w2 log2 errs (batchSizes st))
              end
        end
      else Some (None, st)
  end.

(** [func insertWithRetry(ctx, client, events) error] *)
Definition insertWithRetry (events : list Ev) (w : W)
  : option (option (error E) * retry_state) :=
  retry_loop (S (Z.to_nat maxAttempts)) 1 (200 * Millisecond) events
    (mkRetry w [] 0 []).

(** The observations of a run of the loop entered at [attempt] with
    [backoff], and its result: the insert succeeds; or fails on the last
    attempt; or fails and the wait is cut short by the context; or fails,
    the wait elapses and the loop goes round; or the loop is not entered. *)
Inductive retry_shape : Z → Z → list retry_event → option (error E) → Prop :=
| shape_inserted attempt backoff :
    (attempt ≤ maxAttempts)%Z →
    retry_shape attempt backoff [Inserted attempt None] None
| shape_exhausted attempt backoff e :
    attempt = maxAttempts →
    retry_shape attempt backoff [Inserted attempt (Some e)] (Some e)
| shape_cancelled attempt backoff e c :
    (attempt < maxAttempts)%Z →
    retry_shape attempt backoff
      [Inserted attempt (Some e); Waited backoff (Some c)] (Some (ctx_Err c))
| shape_retry attempt backoff e log r :
    (attempt < maxAttempts)%Z →
    retry_shape (attempt + 1) (next_backoff backoff) log r →
    retry_shape attempt backoff
      (Inserted attempt (Some e) :: Waited backoff None :: log) r
| shape_over attempt backoff :
    (maxAttempts < attempt)%Z →
    retry_shape attempt backoff [] None.

(** Readings of the observations. *)
Definition attempts (log : list retry_event) : list (Z * option (error E)) :=
  log ≫= λ ev, match ev with Inserted n r => [(n, r)] | _ => [] end.

Definition waits (log : list retry_event) : list (Z * option ctx_error) :=
  log ≫= λ ev, match ev with Waited d c => [(d, c)] | _ => [] end.

Definition failures (log : list retry_event) : nat :=
  length (filter (λ a, a.2 ≠ None) (attempts log)).

End loader.

(** The values the variable [backoff] takes over [n] rounds of the loop. *)
Fixpoint backoffs (n : nat) (backoff : Z) : list Z :=
  match n with
  | O => []
  | S n' => backoff :: backoffs n' (next_backoff backoff)
  end.

Definition total (durations : list Z) : Z := foldr Z.add 0%Z durations.

Section loader_sink.
Context {Ev W E : Type} `{!Collaborators Ev W E}.

(** The closure [flusher] of the loader's [main], which it hands to
    [batcher.New] as the sink. [insertWithRetry] always returns (see
    [insertWithRetry_shape]); the last case is never taken. *)
Definition flusher : list Ev → W → option (error E) * W :=
  λ events w,
    match insertWithRetry events w with
    | Some (r, st) => (r, rworld st)
    | None => (None, w)
    end.

End loader_sink.

(** ** The bulk insert ([Client.InsertBatch])

    The database behind [c.db]: beginning a transaction, preparing the
    statement, executing it for an event and its marshalled payload,
    committing; [tx.Rollback()] and the deferred [stmt.Close()], whose errors
    the code discards, only act on the world. [json.Marshal] is a function
    of the event's payload. *)
Class Database (Ev P W E : Type) : Type := {
  BeginTx : W → option (error E) * W;
  PrepareContext : W → option (error E) * W;
  json_Marshal : Ev → error E + P;
  ExecContext : Ev → P → W → option (error E) * W;
  Rollback : W → W;
  Commit : W → option (error E) * W;
  stmt_Close : W → W
}.

Section bulk_insert.
Context {Ev P W E : Type} `{!Database Ev P W E}.

(** The calls made on the database, as an observer sees them. *)
Inductive db_call : Type :=
| CallBeginTx
| CallPrepare
| CallExec (evt : Ev) (payload : P)
| CallRollback
| CallCommit
| CallStmtClose.

Record db_state : Type := mkDb { db : W; db_calls : list db_call }.

Definition do_begin (st : db_state) : option (error E) * db_state :=
  let '(r, w) := BeginTx (db st) in (r, mkDb w (db_calls st ++ [CallBeginTx])).
Definition do_prepare (st : db_state) : option (error E) * db_state :=
  let '(r, w) := PrepareContext (db st) in (r, mkDb w (db_calls st ++ [CallPrepare])).
Definition do_exec (evt : Ev) (payload : P) (st : db_state)
  : option (error E) * db_state :=
  let '(r, w) := ExecContext evt payload (db st) in
  (r, mkDb w (db_calls st ++ [CallExec evt payload])).
Definition do_rollback (st : db_state) : db_state :=
  mkDb (Rollback (db st)) (db_calls st ++ [CallRollback]).
Definition do_commit (st : db_state) : option (error E) * db_state :=
  let '(r, w) := Commit (db st) in (r, mkDb w (db_calls st ++ [CallCommit])).
Definition do_stmt_close (st : db_state) : db_state :=
  mkDb (stmt_Close (db st)) (db_calls st ++ [CallStmtClose]).

(** [for _, evt := range events { ... }]: [Some err] when the loop returns
    [err] (after the rollback), [None] when it runs to its end. *)
Fixpoint exec_events (events : list Ev) (st : db_state)
  : option (error E) * db_state :=
  match events with
  | [] => (None, st)
  | evt :: rest =>
      match json_Marshal evt with
      | inl err => (Some err, do_rollback st)
      | inr payload =>
          let '(r, st1) := do_exec evt payload st in
          match r with
          | Some err => (Some err, do_rollback st1)
          | None => exec_events rest st1
          end
      end
  end.

(** [func (c *Client) InsertBatch(ctx, events) error] *)
Definition Client_InsertBatch (events : list Ev) (st : db_state)
  : option (error E) * db_state :=
  if decide (length events = 0) then (None, st)
  else
    let '(r, st1) := do_begin st in
    match r with
    | Some err => (Some err, st1)
    | None =>
        let '(r, st2) := do_prepare st1 in
        match r with
        | Some err => (Some err, do_rollback st2)
        | None =>
            let '(r, st3) := exec_events events st2 in
            match r with
            | Some err => (Some err, do_stmt_close st3)
            | None =>
                let '(r, st4) := do_commit st3 in
                (r, do_stmt_close st4)
            end
        end
    end.

(** Readings of the calls. *)
Definition executed (calls : list db_call) : list Ev :=
  calls ≫= λ c, match c with CallExec evt _ => [evt] | _ => [] end.

Definition is_exec (c : db_call) : Prop :=
  match c with CallExec _ _ => True | _ => False end.

End bulk_insert.

(** ** The enricher's main loop ([cmd/consumer-enricher])

    A Kafka message, of which the loop uses the key and the value. *)
Record Message (B : Type) : Type := mkMessage { Key : B; Value : B }.
Arguments mkMessage {B} Key Value.
Arguments Key {B} m.
Arguments Value {B} m.

(** What the loop calls: [reader.ReadMessage(ctx)], [ctx.Err()],
    [reader.Stats().Lag], [json.Unmarshal] into a raw event,
    [pipeline.Enrich(raw, cfg.IPHashSalt)] (which reads the clock),
    [json.Marshal] of the enriched event, [writer.WriteMessages] of one
    message, and [time.Sleep]. *)
Class Enricher (B Raw Enr W E : Type) : Type := {
  ReadMessage : W → (error E + Message B) * W;
  ctx_Err_now : W → option ctx_error * W;
  reader_Stats_Lag : W → Z * W;
  json_Unmarshal : B → error E + Raw;
  pipeline_Enrich : Raw → string → W → (error E + Enr) * W;
  json_Marshal_enriched : Enr → error E + B;
  WriteMessages : Message B → W → option (error E) * W;
  time_Sleep : Z → W → W
}.

Section enricher.
Context {B Raw Enr W E : Type} `{!Enricher B Raw Enr W E}.

(** What an observer sees of the loop: a failed read in a live context, a
    message consumed, a failure to decode, enrich or marshal it, and a
    write with its result. Each failure is also a line of the log. *)
Inductive enricher_event : Type :=
| ReadFailed (err : error E)
| Consumed (m : Message B)
| DecodeFailed (err : error E)
| EnrichFailed (err : error E)
| MarshalFailed (err : error E)
| Written (m : Message B) (r : option (error E)).

(** The world, the counters [msgsConsumed], [msgsProduced] and
    [errorsTotal], the lag last handed to the gauge [consumerLag], and the
    observations so far. *)
Record enricher_state : Type := mkEnricher {
  en_world : W;
  msgsConsumed : nat;
  msgsProduced : nat;
  errorsTotal : nat;
  consumerLag : Z;
  en_trace : list enricher_event
}.

Definition enricher_start (w : W) : enricher_state := mkEnricher w 0 0 0 0 [].

(** [errorsTotal.Inc(); log.Printf(...)] *)
Definition count_error (ev : enricher_event) (w : W) (st : enricher_state)
  : enricher_state :=
  mkEnricher w (msgsConsumed st) (msgsProduced st) (S (errorsTotal st))
    (consumerLag st) (en_trace st ++ [ev]).

(** One turn of the [for] loop of [main]; [false] is its [break], [true]
    the end of the body or a [continue]. *)
Definition iteration (salt : string) (st : enricher_state)
  : bool * enricher_state :=
  let '(r, w1) := ReadMessage (en_world st) in
  match r with
  | inl err =>
      let '(c, w2) := ctx_Err_now w1 in
      match c with
      | Some _ =>
          (false, mkEnricher w2 (msgsConsumed st) (msgsProduced st)
                    (errorsTotal st) (consumerLag st) (en_trace st))
      | None => (true, count_error (ReadFailed err) (time_Sleep Second w2) st)
      end
  | inr m =>
      let '(lag, w2) := reader_Stats_Lag w1 in
      let st1 := mkEnricher w2 (S (msgsConsumed st)) (msgsProduced st)
                   (errorsTotal st) lag (en_trace st ++ [Consumed m]) in
      match json_Unmarshal (Value m) with
      | inl err => (true, count_error (DecodeFailed err) w2 st1)
      | inr raw =>
          let '(re, w3) := pipeline_Enrich raw salt w2 in
          match re with
          | inl err => (true, count_error (EnrichFailed err) w3 st1)
          | inr enriched =>
              match json_Marshal_enriched enriched with
              | inl err => (true, count_error (MarshalFailed err) w3 st1)
              | inr payload =>
                  let msg := mkMessage (Key m) payload in
                  let '(rw, w4) := WriteMessages msg w3 in
                  match rw with
                  | Some err =>
                      (true, count_error (Written msg (Some err)) w4 st1)
                  | None =>
                      (true, mkEnricher w4 (msgsConsumed st1)
                               (S (msgsProduced st1)) (errorsTotal st1)
                               (consumerLag st1)
                               (en_trace st1 ++ [Written msg None]))
                  end
              end
          end
      end
  end.

(** The loop after at most [n] turns: whether it is still running, and its
    state. *)
Fixpoint enricher_loop (n : nat) (salt : string) (st : enricher_state)
  : bool * enricher_state :=
  match n with
  | O => (true, st)
  | S n' =>
      let '(continue, st') := iteration salt st in
      if continue then enricher_loop n' salt st' else (false, st')
  end.

Definition consumed_msgs (tr : list enricher_event) : list (Message B) :=
  omap (λ ev, match ev with Consumed m => Some m | _ => None end) tr.

Definition produced_msgs (tr : list enricher_event) : list (Message B) :=
  omap (λ ev, match ev with Written m None => Some m | _ => None end) tr.

Definition is_failure (ev : enricher_event) : bool :=
  match ev with
  | Consumed _ | Written _ None => false
  | _ => true
  end.

Definition is_read_failure (ev : enricher_event) : bool :=
  match ev with ReadFailed _ => true | _ => false end.

(** The bookkeeping of the counters against what happened. *)
Definition accounted (st : enricher_state) : Prop :=
  msgsConsumed st = length (consumed_msgs (en_trace st)) ∧
  msgsProduced st = length (produced_msgs (en_trace st)) ∧
  errorsTotal st = length (filter is_failure (en_trace st)) ∧
  msgsProduced st + errorsTotal st =
    msgsConsumed st + length (filter is_read_failure (en_trace st)) ∧
  Key <$> produced_msgs (en_trace st) `sublist_of`
    Key <$> consumed_msgs (en_trace st).

End enricher.

(** ** Instances for the examples *)

(** Items are numbers; slices grow by doubling. *)
Definition nat_runtime : Runtime nat :=
  {| zero := 0; growslice := λ oldcap _, 2 * oldcap |}.

(** A sink that fails its first two invocations and counts them. *)
Definition flaky_sink : list nat → nat → option (error nat) * nat :=
  λ _ n, (if n <? 2 then Some (external n) else None, S n).

(** A fresh instance with threshold 3 over the flaky sink, in an empty
    store, and the system it starts. *)
Definition fresh : machine (T:=nat) (W:=nat) (E:=nat) :=
  mkMachine (New 3 1000 (Some flaky_sink)) [] 0 [].

Definition fresh_system : system (T:=nat) (W:=nat) (E:=nat) :=
  start 3 1000 (Some flaky_sink) [] 0.

(** The same with threshold 1: every [Add] detaches. *)
Definition eager_system : system (T:=nat) (W:=nat) (E:=nat) :=
  start 1 1000 (Some flaky_sink) [] 0.

(** An insert that always fails, numbering its failures; waits that are
    never cut short. *)
Definition failing_store : Collaborators nat nat nat :=
  {| InsertBatch := λ _ n, (Some (external n), S n);
     wait_backoff := λ _ n, (None, n) |}.

(** An insert that always fails; the context is cancelled during the
    second wait (the world counts the waits). *)
Definition cancelled_store : Collaborators nat nat nat :=
  {| InsertBatch := λ _ n, (Some (external n), n);
     wait_backoff := λ _ n, (if n =? 1 then Some Canceled else None, S n) |}.

(** An insert that fails twice and then succeeds (the world counts the
    attempts); waits that are never cut short. *)
Definition recovering_store : Collaborators nat nat nat :=
  {| InsertBatch := λ _ n, (if n <? 2 then Some (external n) else None, S n);
     wait_backoff := λ _ n, (None, n) |}.

(** A fresh instance over the loader's sink, with inserts that always fail. *)
Definition failing_loader : system (T:=nat) (W:=nat) (E:=nat) :=
  start 3 1000 (Some (flusher (Collaborators0 := failing_store))) [] 0.

(** A database that counts its calls and refuses to execute event 0; an
    event is its own payload. *)
Definition picky_db : Database nat nat nat nat :=
  {| BeginTx := λ n, (None, S n);
     PrepareContext := λ n, (None, S n);
     json_Marshal := λ evt, inr evt;
     ExecContext := λ evt _ n, (if evt =? 0 then Some (external n) else None, S n);
     Rollback := S;
     Commit := λ n, (None, S n);
     stmt_Close := S |}.

(** * Part II: facts *)

(** ** Slices *)

Section slice_facts.
Context {T : Type} `{!Runtime T}.
Implicit Types (h : list (list T)) (s b : slice).

Lemma length_contents (h : list (list T)) s : wf_slice h s → length (contents h s) = len s.
Proof.
  unfold wf_slice, contents, array. destruct (arr s) as [l|].
  - intros [Hle (a & -> & Ha)]. simpl. rewrite length_take. lia.
  - intros [-> _]. done.
Qed.

Lemma wf_slice_lt h s l : wf_slice h s → arr s = Some l → l < length h.
Proof.
  unfold wf_slice. intros Hwf Hl. rewrite Hl in Hwf.
  destruct Hwf as [_ (a & Ha & _)]. by eapply lookup_lt_Some.
Qed.

Lemma frames_refl h s : frames h s h s.
Proof. unfold frames. auto. Qed.

Lemma frames_contents h s h' s' b :
  frames h s h' s' → apart h s b → contents h' b = contents h b.
Proof.
  unfold frames, apart, contents, array. intros (_ & Hk & _).
  destruct (arr b) as [l|]; [|done]. intros [Hl Hne]. by rewrite Hk.
Qed.

Lemma frames_apart h s h' s' b :
  frames h s h' s' → apart h s b → apart h' s' b.
Proof.
  unfold frames, apart. intros (Hlen & _ & Hs).
  destruct (arr b) as [l|]; [|done]. intros [Hl Hne]. split; [lia|].
  destruct Hs as [->|(l' & -> & Hl')]; [done|]. intros [= ->]. lia.
Qed.

Lemma frames_wf h s h' s' b :
  frames h s h' s' → apart h s b → wf_slice h b → wf_slice h' b.
Proof.
  unfold frames, apart, wf_slice. intros (_ & Hk & _).
  destruct (arr b) as [l|]; [|done]. intros [Hl Hne]. by rewrite Hk.
Qed.

Lemma append_spec h s x :
  wf_slice h s →
  let '(s', h') := append s x h in
  wf_slice h' s' ∧ len s' = S (len s) ∧
  contents h' s' = contents h s ++ [x] ∧ frames h s h' s'.
Proof.
  intros Hwf.
  assert (Hgrow : let '(s', h') := append_grow s x h in
    wf_slice h' s' ∧ len s' = S (len s) ∧
    contents h' s' = contents h s ++ [x] ∧ frames h s h' s').
  { pose proof (length_contents h s Hwf) as Hlen.
    unfold append_grow, newcap. set (c := Nat.max _ _).
    assert (S (len s) ≤ c) by (unfold c; lia).
    set (a := contents h s ++ x :: replicate (c - S (len s)) zero).
    assert (Ha : (h ++ [a]) !! length h = Some a).
    { rewrite lookup_app_r, Nat.sub_diag by done. done. }
    assert (Hla : length a = c).
    { unfold a. rewrite length_app. simpl. rewrite length_replicate. lia. }
    split; [|split; [|split]].
    - unfold wf_slice. simpl. split; [done|]. eauto.
    - done.
    - unfold contents at 1, array. simpl. rewrite Ha. simpl. unfold a.
      rewrite take_app_ge by lia.
      replace (S (len s) - length (contents h s)) with 1 by lia. done.
    - unfold frames. simpl. split; [|split].
      + rewrite length_app. simpl. lia.
      + intros l Hl _. by rewrite lookup_app_l.
      + right. eauto. }
  unfold append. unfold wf_slice in Hwf.
  destruct (arr s) as [l|] eqn:Harr; [|done].
  destruct Hwf as [Hle (a & Ha & Hlen)].
  case_decide as Hroom; [|done].
  unfold wf_slice, contents, array, frames. simpl. rewrite Harr, Ha. simpl.
  assert (l < length h) by (by eapply lookup_lt_Some).
  rewrite list_lookup_insert_eq by done. simpl.
  split_and!.
  - lia.
  - eexists. split; [done|]. by rewrite length_insert.
  - done.
  - rewrite (take_S_r _ _ x) by (apply list_lookup_insert_eq; lia).
    by rewrite take_insert_ge by lia.
  - by rewrite length_insert.
  - intros l' Hl' Hne. rewrite list_lookup_insert_ne; [done|congruence].
  - by left.
Qed.

(** [make] then [copy]: the snapshot [detach] takes. *)
Lemma make_copy_spec h s :
  wf_slice h s →
  let '(b, h1) := make (len s) h in
  let h2 := copy b s h1 in
  wf_slice h2 b ∧ len b = len s ∧ arr b = Some (length h) ∧
  contents h2 b = contents h s ∧ contents h2 s = contents h s ∧
  frames h s h2 s ∧ wf_slice h2 s.
Proof.
  intros Hwf. pose proof (length_contents h s Hwf) as Hlen.
  assert (Hs : contents (h ++ [replicate (len s) zero]) s = contents h s).
  { unfold contents, array. destruct (arr s) as [l|] eqn:Harr; [|done].
    rewrite lookup_app_l; [done|]. by eapply wf_slice_lt. }
  assert (Hcopy : copy (Slice (Some (length h)) (len s) (len s)) s
                    (h ++ [replicate (len s) zero])
                  = <[length h := contents h s]> (h ++ [replicate (len s) zero])).
  { unfold copy. simpl. rewrite Nat.min_id, Hs, take_ge by lia.
    unfold array. rewrite lookup_app_r, Nat.sub_diag by done. simpl.
    rewrite drop_replicate, Nat.sub_diag. simpl. by rewrite app_nil_r. }
  unfold make. cbv beta iota zeta. rewrite Hcopy. clear Hcopy.
  assert (Hk : ∀ l, l < length h →
    <[length h := contents h s]> (h ++ [replicate (len s) zero]) !! l = h !! l).
  { intros l Hl. rewrite list_lookup_insert_ne by lia. by rewrite lookup_app_l. }
  assert (Hins : <[length h := contents h s]> (h ++ [replicate (len s) zero])
                 !! length h = Some (contents h s)).
  { apply list_lookup_insert_eq. rewrite length_app. simpl. lia. }
  split_and!.
  - unfold wf_slice. simpl. split; [done|]. eexists. split; [exact Hins|done].
  - done.
  - done.
  - unfold contents at 1, array. simpl. rewrite Hins. simpl. apply take_ge. lia.
  - unfold contents at 1 3, array. destruct (arr s) as [l|] eqn:Harr; [|done].
    rewrite Hk; [done|]. by eapply wf_slice_lt.
  - unfold frames. split_and!.
    + rewrite length_insert, length_app. lia.
    + intros l Hl _. by apply Hk.
    + by left.
  - unfold wf_slice in *. destruct (arr s) as [l|] eqn:Harr; [|done].
    destruct Hwf as [Hle (a & Ha & Hla)]. split; [done|].
    exists a. split; [|done]. rewrite Hk; [done|]. by eapply lookup_lt_Some.
Qed.

Lemma frames_trans h s h1 s1 h2 s2 :
  frames h s h1 s1 → frames h1 s1 h2 s2 → frames h s h2 s2.
Proof.
  unfold frames. intros (Hl1 & Hk1 & Hs1) (Hl2 & Hk2 & Hs2). split_and!.
  - lia.
  - intros l Hl Hne. rewrite Hk2, Hk1; [done..|lia|].
    destruct Hs1 as [->|(l' & -> & Hl')]; [done|]. intros [= ->]. lia.
  - destruct Hs2 as [->|(l' & -> & Hl')]; [done|]. right. exists l'. split; [done|lia].
Qed.

Lemma apart_nil h s : apart h s nil_slice.
Proof. done. Qed.

Lemma wf_slice_nil h : wf_slice h nil_slice.
Proof. done. Qed.

Lemma wf_reslice0 h s : wf_slice h s → wf_slice h (reslice0 s).
Proof.
  unfold wf_slice, reslice0. simpl. destruct (arr s).
  - intros [_ Ha]. split; [lia|done].
  - by intros [_ ?].
Qed.

Lemma contents_len0 h s : len s = 0 → contents h s = [].
Proof. unfold contents. intros ->. by destruct (arr s). Qed.

End slice_facts.

(** ** The methods of the batcher *)

Section batcher_facts.
Context {T W E : Type} `{!Runtime T}.
Implicit Types (m : machine (T:=T) (W:=W) (E:=E)).
Implicit Types (b : Batcher (T:=T) (W:=W) (E:=E)).

Lemma same_fields_refl b : same_fields b b.
Proof. by unfold same_fields. Qed.

Lemma detach_spec m :
  wf m →
  let '(batch, m') := detach m in
  buffer_step m m' ∧
  len (buffer (bat m')) = 0 ∧
  wf_slice (store m') batch ∧ apart (store m') (buffer (bat m')) batch ∧
  contents (store m') batch = buffered m.
Proof.
  intros Hwf. unfold detach. case_decide as Hlen.
  - split_and!; try done.
    + unfold buffer_step. split_and!; try done. apply frames_refl.
    + simpl. unfold buffered. symmetry. by apply contents_len0.
  - pose proof (make_copy_spec _ _ Hwf) as Hmc.
    unfold make in *. cbv beta iota zeta in Hmc.
    destruct Hmc as (Hwb & Hlb & Harr & Hcb & Hcs & Hfr & Hws). simpl.
    split_and!; try done.
    + unfold buffer_step, wf. simpl. split_and!; try done.
      by apply wf_reslice0.
    + unfold apart. simpl. split.
      * destruct Hfr as [Hl _]. unfold wf_slice in Hwb. simpl in Hwb.
        destruct Hwb as [_ (a & Ha & _)]. by eapply lookup_lt_Some.
      * intros Heq. pose proof (wf_slice_lt _ _ _ Hwf Heq). lia.
Qed.

Lemma buffer_step_trans m m1 m2 :
  buffer_step m m1 → buffer_step m1 m2 → buffer_step m m2.
Proof.
  unfold buffer_step, same_fields.
  intros (_ & Hf1 & Hw1 & Hc1 & Hfr1) (Hwf & Hf2 & Hw2 & Hc2 & Hfr2).
  destruct Hf1 as (? & ? & ? & ? & ? & ?), Hf2 as (? & ? & ? & ? & ? & ?).
  split_and!; try congruence.
  by eapply frames_trans.
Qed.

Lemma Add_locked_spec item m :
  wf m →
  let '(shouldFlush, batch, m') := Add_locked item m in
  buffer_step m m' ∧
  wf_slice (store m') batch ∧ apart (store m') (buffer (bat m')) batch ∧
  shouldFlush = bool_decide (maxSize (bat m) ≤ Z.of_nat (S (len (buffer (bat m)))))%Z ∧
  if shouldFlush
  then len (buffer (bat m')) = 0 ∧ contents (store m') batch = buffered m ++ [item]
  else batch = nil_slice ∧ buffered m' = buffered m ++ [item].
Proof.
  intros Hwf. unfold Add_locked.
  pose proof (append_spec _ _ item Hwf) as Happ.
  destruct (append _ _ _) as [buf h]. destruct Happ as (Hwb & Hlb & Hcb & Hfr).
  set (m1 := mkMachine _ h _ _).
  assert (Hstep1 : buffer_step m m1).
  { unfold buffer_step, wf. simpl. split_and!; try done. }
  rewrite Hlb. case_bool_decide as Hsz.
  - pose proof (detach_spec m1) as Hd. destruct (detach m1) as [batch m2].
    destruct Hd as (Hstep2 & Hl2 & Hwb2 & Hap2 & Hc2); [apply Hstep1|].
    split_and!; try done.
    + by eapply buffer_step_trans.
    + rewrite Hc2. unfold buffered. simpl. done.
  - split_and!; try done.
Qed.

Lemma runFlush_spec batch m :
  let '(r, m') := runFlush batch m in
  bat m' = bat m ∧ store m' = store m ∧
  if decide (len batch = 0)
  then r = None ∧ world m' = world m ∧ sink_calls m' = sink_calls m
  else match flushFn (bat m) with
       | None =>
           r = Some (errors_New "batcher: no flush function configured") ∧
           world m' = world m ∧ sink_calls m' = sink_calls m
       | Some f =>
           (r, world m') = f (contents (store m) batch) (world m) ∧
           sink_calls m' = sink_calls m ++ [contents (store m) batch]
       end.
Proof.
  unfold runFlush. case_decide; [done|].
  destruct (flushFn (bat m)) as [f|]; [|done].
  destruct (f _ _) as [r w]. done.
Qed.

Lemma Add_keep_spec item m :
  wf m →
  (Z.of_nat (S (len (buffer (bat m)))) < maxSize (bat m))%Z →
  ∃ m', Add item m = (None, m') ∧ buffer_step m m' ∧
        len (buffer (bat m')) = S (len (buffer (bat m))) ∧
        buffered m' = buffered m ++ [item].
Proof.
  intros Hwf Hsz. unfold Add.
  pose proof (Add_locked_spec item m Hwf) as Hspec.
  destruct (Add_locked item m) as [[sf batch] m'].
  destruct Hspec as (Hbs & _ & _ & -> & Hres).
  rewrite bool_decide_eq_false_2 in * by lia. destruct Hres as [_ Hb].
  exists m'. split_and!; try done.
  destruct Hbs as (Hwf' & _). apply length_contents in Hwf, Hwf'.
  fold (buffered m) in Hwf. fold (buffered m') in Hwf'.
  rewrite <- Hwf', Hb, length_app, Hwf. simpl. lia.
Qed.

Lemma Add_flush_spec item m f :
  wf m →
  (maxSize (bat m) ≤ Z.of_nat (S (len (buffer (bat m)))))%Z →
  flushFn (bat m) = Some f →
  ∃ m', Add item m = ((f (buffered m ++ [item]) (world m)).1, m') ∧
        wf m' ∧ len (buffer (bat m')) = 0 ∧ buffered m' = [] ∧
        world m' = (f (buffered m ++ [item]) (world m)).2 ∧
        sink_calls m' = sink_calls m ++ [buffered m ++ [item]].
Proof.
  intros Hwf Hsz Hf. unfold Add.
  pose proof (Add_locked_spec item m Hwf) as Hspec.
  destruct (Add_locked item m) as [[sf batch] m1].
  destruct Hspec as (Hbs & Hwb & _ & -> & Hres).
  rewrite bool_decide_eq_true_2 in * by lia. destruct Hres as [Hl Hc].
  destruct Hbs as (Hwf1 & (_ & _ & Hfn & _) & Hw & Hcalls & _).
  pose proof (length_contents _ _ Hwb) as Hlen.
  rewrite Hc, length_app in Hlen. simpl in Hlen.
  unfold runFlush. case_decide as Hz; [lia|].
  rewrite Hfn, Hf, Hc, Hw. destruct (f _ _) as [r w]. simpl.
  eexists. split; [done|]. unfold wf, buffered. simpl.
  split_and!; try done; [by apply contents_len0|by rewrite Hcalls].
Qed.

(** Adding items that stay below the threshold only appends them. *)
Lemma Adds_below items m :
  wf m →
  (Z.of_nat (len (buffer (bat m)) + length items) < maxSize (bat m))%Z →
  ∃ m', Adds items m = (replicate (length items) None, m') ∧
        buffer_step m m' ∧
        len (buffer (bat m')) = len (buffer (bat m)) + length items ∧
        buffered m' = buffered m ++ items.
Proof.
  revert m. induction items as [|item items IH]; intros m Hwf Hsz; simpl.
  - exists m. rewrite Nat.add_0_r, app_nil_r. split_and!; try done.
    unfold buffer_step. split_and!; try done. apply frames_refl.
  - simpl in Hsz.
    destruct (Add_keep_spec item m Hwf) as (m1 & -> & Hbs1 & Hl1 & Hb1); [lia|].
    destruct (IH m1) as (m2 & -> & Hbs2 & Hl2 & Hb2).
    + apply Hbs1.
    + destruct Hbs1 as (_ & (-> & _) & _). lia.
    + exists m2. split_and!; try done.
      * by eapply buffer_step_trans.
      * lia.
      * by rewrite Hb2, Hb1, <- app_assoc.
Qed.

Lemma lastError_detach m : lastError (bat (detach m).2) = lastError (bat m).
Proof. unfold detach. by case_decide. Qed.

Lemma lastError_runFlush batch m :
  lastError (bat (runFlush batch m).2) = lastError (bat m).
Proof.
  unfold runFlush. case_decide; [done|].
  destruct (flushFn (bat m)) as [f|]; [|done]. by destruct (f _ _).
Qed.

Lemma lastError_Add_locked item m :
  lastError (bat (Add_locked item m).2) = lastError (bat m).
Proof.
  unfold Add_locked. destruct (append _ _ _) as [buf h].
  case_bool_decide; [|done].
  set (m1 := mkMachine _ _ _ _). pose proof (lastError_detach m1) as Hd.
  by destruct (detach m1).
Qed.

Lemma runFlush_bat batch m : bat (runFlush batch m).2 = bat m.
Proof.
  pose proof (runFlush_spec batch m) as Hr.
  destruct (runFlush batch m) as [r m']. simpl. by destruct Hr as (-> & _).
Qed.

Lemma Add_fields item m : wf m → same_fields (bat m) (bat (Add item m).2).
Proof.
  intros Hwf. unfold Add. pose proof (Add_locked_spec item m Hwf) as Hspec.
  destruct (Add_locked item m) as [[sf batch] m1].
  destruct Hspec as ((_ & Hf & _) & _). destruct sf; [|done].
  by rewrite runFlush_bat.
Qed.

(** A producer alone cuts its items into consecutive batches of the limit. *)
Lemma Adds_chunks items m f :
  wf m → flushFn (bat m) = Some f →
  len (buffer (bat m)) < batch_limit (maxSize (bat m)) →
  ∃ new, wf (Adds items m).2 ∧
         sink_calls (Adds items m).2 = sink_calls m ++ new ∧
         Forall (λ b : list T, length b = batch_limit (maxSize (bat m))) new ∧
         concat new ++ buffered (Adds items m).2 = buffered m ++ items ∧
         len (buffer (bat (Adds items m).2)) < batch_limit (maxSize (bat m)) ∧
         length (Adds items m).1 = length items.
Proof.
  revert m. induction items as [|item items IH]; intros m Hwf Hf Hlt; simpl.
  - exists []. rewrite !app_nil_r. done.
  - pose proof (Add_fields item m Hwf) as (Hmax & _ & Hfn & _).
    pose proof (length_contents _ _ Hwf) as Hlen. fold (buffered m) in Hlen.
    destruct (decide (Z.of_nat (S (len (buffer (bat m)))) < maxSize (bat m))%Z)
      as [Hkeep|Hflush].
    + destruct (Add_keep_spec item m Hwf Hkeep) as (m1 & Hadd & Hbs & Hl1 & Hb1).
      rewrite Hadd in *. simpl in Hmax, Hfn.
      destruct Hbs as (Hwf1 & _ & _ & Hc1 & _).
      destruct (IH m1 Hwf1) as (new & Hwf2 & Hc & Hall & Hcat & Hl & Hrs).
      { congruence. }
      { rewrite Hmax, Hl1. unfold batch_limit in *. lia. }
      destruct (Adds items m1) as [rs m2]. simpl in *.
      exists new. rewrite Hmax in *. split_and!; try done; try congruence.
      all: try (by rewrite Hcat, Hb1, <- app_assoc).
      all: try (by rewrite Hrs).
    + destruct (Add_flush_spec item m f Hwf) as (m1 & Hadd & Hwf1 & Hl1 & Hb1 & _ & Hc1);
        [lia|done|].
      rewrite Hadd in *. simpl in Hmax, Hfn.
      destruct (IH m1 Hwf1) as (new & Hwf2 & Hc & Hall & Hcat & Hl & Hrs).
      { congruence. }
      { rewrite Hl1. unfold batch_limit. lia. }
      destruct (Adds items m1) as [rs m2]. simpl in *.
      exists ((buffered m ++ [item]) :: new). rewrite Hmax in *.
      split_and!; try done.
      all: try (by rewrite Hc, Hc1, <- app_assoc).
      all: try (by rewrite Hrs).
      all: try (simpl; rewrite <- !app_assoc; f_equal; by rewrite Hcat, Hb1).
      apply Forall_cons. split; [|done].
      rewrite length_app. simpl. unfold batch_limit in *. lia.
Qed.

Lemma detach_stop_wg m :
  stop (bat (detach m).2) = stop (bat m) ∧ wg (bat (detach m).2) = wg (bat m).
Proof. unfold detach. by case_decide. Qed.

(** [Flush] of a non-empty buffer with a sink. *)
Lemma Flush_sink_spec m f :
  wf m → flushFn (bat m) = Some f → len (buffer (bat m)) ≠ 0 →
  (Flush m).1 = (f (buffered m) (world m)).1 ∧
  world (Flush m).2 = (f (buffered m) (world m)).2 ∧
  buffered (Flush m).2 = [] ∧
  sink_calls (Flush m).2 = sink_calls m ++ [buffered m].
Proof.
  intros Hwf Hf Hnz. unfold Flush.
  pose proof (detach_spec m Hwf) as Hd.
  assert (Hlb : len (detach m).1 = len (buffer (bat m))).
  { unfold detach. by case_decide. }
  destruct (detach m) as [batch m1]. simpl in Hlb.
  destruct Hd as (Hbs & Hl & _ & _ & Hc).
  destruct Hbs as (_ & (_ & _ & Hfn & _) & Hw & Hcalls & _).
  unfold runFlush. rewrite decide_False by lia. rewrite Hfn, Hf, Hc, Hw.
  destruct (f (buffered m) (world m)) as [r w1]. simpl.
  split_and!; try done; [|by rewrite Hcalls].
  unfold buffered. simpl. by apply contents_len0.
Qed.

End batcher_facts.

(** ** The concurrent system *)

Section system_facts.
Context {T W E : Type} `{!Runtime T}.
Implicit Types (m : machine (T:=T) (W:=W) (E:=E)).
Implicit Types (s : system (T:=T) (W:=W) (E:=E)).
Implicit Types (a : action (T:=T)).
Implicit Types (fn : option (sink (T:=T) (W:=W) (E:=E))).

Lemma run_app acts1 acts2 s :
  run (acts1 ++ acts2) s = run acts1 s ≫= run acts2.
Proof.
  revert s. induction acts1 as [|a acts1 IH]; intros s; simpl; [done|].
  destruct (step a s); simpl; [apply IH|done].
Qed.

Lemma run_cons a acts s : run (a :: acts) s = step a s ≫= run acts.
Proof. simpl. by destruct (step a s). Qed.

Lemma run_singleton a s : run [a] s = step a s.
Proof. simpl. by destruct (step a s). Qed.

(** A property kept by every action holds along every schedule. *)
Lemma run_invariant (P : system → Prop) :
  (∀ a s s', P s → step a s = Some s' → P s') →
  ∀ acts s s', P s → run acts s = Some s' → P s'.
Proof.
  intros Hstep. induction acts as [|a acts IH]; intros s s' HP; simpl.
  - by intros [= <-].
  - destruct (step a s) as [s1|] eqn:Hs; [|done]. eauto.
Qed.

Lemma detached_ok_frames m m' b :
  frames (store m) (buffer (bat m)) (store m') (buffer (bat m')) →
  detached_ok m b → detached_ok m' b.
Proof.
  intros Hfr [Hwf Hap]. split.
  - by eapply frames_wf.
  - by eapply frames_apart.
Qed.

Lemma detached_ok_nil m : detached_ok m nil_slice.
Proof. done. Qed.

Lemma mach_step_same m m' :
  wf m → store m' = store m → buffer (bat m') = buffer (bat m) → mach_step m m'.
Proof.
  unfold mach_step, wf. intros Hwf -> ->. split; [done|apply frames_refl].
Qed.

Lemma mach_step_buffer m m' : buffer_step m m' → mach_step m m'.
Proof. unfold buffer_step, mach_step. tauto. Qed.

Lemma mach_step_runFlush batch m :
  wf m → mach_step m (runFlush batch m).2.
Proof.
  intros Hwf. pose proof (runFlush_spec batch m) as Hr.
  destruct (runFlush batch m) as [r m']. destruct Hr as (Hb & Hs & _).
  simpl. apply mach_step_same; [done..|by rewrite Hb].
Qed.

Lemma sys_wf_step a s s' :
  sys_wf s → step a s = Some s' →
  sys_wf s' ∧ mach_step (mach s) (mach s').
Proof.
  intros (Hwf & Hin & Hl & Hc) Hstep.
  assert (Hkeep : ∀ m', mach_step (mach s) m' →
    Forall (λ p, detached_ok m' p.2) (inflight s) ∧
    (∀ b, loop_at s = LRunFlush b → detached_ok m' b) ∧
    (∀ b, close_at s = CRunFlush b → detached_ok m' b)).
  { intros m' [_ Hfr]. split_and!.
    - eapply Forall_impl; [exact Hin|]. intros p. by apply detached_ok_frames.
    - intros b Hb. eapply detached_ok_frames; eauto.
    - intros b Hb. eapply detached_ok_frames; eauto. }
  destruct a; simpl in Hstep.
  - (* Add_lock *)
    pose proof (Add_locked_spec item (mach s) Hwf) as Hspec.
    destruct (Add_locked item (mach s)) as [[sf batch] m'].
    destruct Hspec as (Hbs & Hwb & Hap & _).
    apply mach_step_buffer in Hbs. destruct (Hkeep _ Hbs) as (K1 & K2 & K3).
    destruct sf; injection Hstep as <-; (split; [|done]); unfold sys_wf; simpl;
      split_and!; try done; try apply Hbs.
    apply Forall_app. split; [done|]. by apply Forall_singleton.
  - (* Flush_lock *)
    pose proof (detach_spec (mach s) Hwf) as Hspec.
    destruct (detach (mach s)) as [batch m'].
    destruct Hspec as (Hbs & _ & Hwb & Hap & _).
    apply mach_step_buffer in Hbs. destruct (Hkeep _ Hbs) as (K1 & K2 & K3).
    injection Hstep as <-. (split; [|done]). unfold sys_wf; simpl.
    split_and!; try done; try apply Hbs.
    apply Forall_app. split; [done|]. by apply Forall_singleton.
  - (* Run_flush *)
    destruct (inflight s !! i) as [[who batch]|] eqn:Hi; [|done].
    pose proof (mach_step_runFlush batch (mach s) Hwf) as Hms.
    destruct (runFlush batch (mach s)) as [r m']. simpl in Hms.
    destruct (Hkeep _ Hms) as (K1 & K2 & K3).
    injection Hstep as <-. (split; [|done]). unfold sys_wf; simpl.
    split_and!; try done; try apply Hms.
    by apply Forall_delete.
  - (* Tick_lock *)
    destruct (loop_at s) eqn:Hpc; try done.
    pose proof (detach_spec (mach s) Hwf) as Hspec.
    destruct (detach (mach s)) as [batch m'].
    destruct Hspec as (Hbs & _ & Hwb & Hap & _).
    apply mach_step_buffer in Hbs. destruct (Hkeep _ Hbs) as (K1 & K2 & K3).
    injection Hstep as <-. (split; [|done]). unfold sys_wf; simpl.
    split_and!; try done; try apply Hbs.
    by intros b [= <-].
  - (* Tick_run *)
    destruct (loop_at s) eqn:Hpc; try done.
    pose proof (mach_step_runFlush batch (mach s) Hwf) as Hms.
    destruct (runFlush batch (mach s)) as [r m']. simpl in Hms.
    destruct (Hkeep _ Hms) as (K1 & K2 & K3).
    injection Hstep as <-. (split; [|done]). unfold sys_wf; simpl.
    split_and!; try done; try apply Hms.
    by destruct r.
  - (* Tick_record *)
    destruct (loop_at s) eqn:Hpc; try done.
    assert (Hms : mach_step (mach s) (record_error err (mach s)))
      by (by apply mach_step_same).
    destruct (Hkeep _ Hms) as (K1 & K2 & K3).
    injection Hstep as <-. (split; [|done]). unfold sys_wf; simpl.
    split_and!; try done; try apply Hms.
  - (* Loop_exit *)
    destruct (loop_at s) eqn:Hpc; try done.
    destruct (stop (bat (mach s))); [|done].
    set (m' := set_bat _ _) in Hstep.
    assert (Hms : mach_step (mach s) m') by (by apply mach_step_same).
    destruct (Hkeep _ Hms) as (K1 & K2 & K3).
    injection Hstep as <-. (split; [|done]). unfold sys_wf; simpl.
    split_and!; try done; try apply Hms.
  - (* Close_stop *)
    destruct (close_at s) eqn:Hpc; try done.
    destruct (stop (bat (mach s))); [done|].
    set (m' := set_bat _ _) in Hstep.
    assert (Hms : mach_step (mach s) m') by (by apply mach_step_same).
    destruct (Hkeep _ Hms) as (K1 & K2 & K3).
    injection Hstep as <-. (split; [|done]). unfold sys_wf; simpl.
    split_and!; try done; try apply Hms.
  - (* Close_wait *)
    destruct (close_at s) eqn:Hpc; try done.
    case_decide; [|done].
    assert (Hms : mach_step (mach s) (mach s)) by (by apply mach_step_same).
    destruct (Hkeep _ Hms) as (K1 & K2 & K3).
    injection Hstep as <-. (split; [|done]). unfold sys_wf; simpl.
    split_and!; try done.
  - (* Close_lock *)
    destruct (close_at s) eqn:Hpc; try done.
    pose proof (detach_spec (mach s) Hwf) as Hspec.
    destruct (detach (mach s)) as [batch m'].
    destruct Hspec as (Hbs & _ & Hwb & Hap & _).
    apply mach_step_buffer in Hbs. destruct (Hkeep _ Hbs) as (K1 & K2 & K3).
    injection Hstep as <-. (split; [|done]). unfold sys_wf; simpl.
    split_and!; try done; try apply Hbs.
    by intros b [= <-].
  - (* Close_run *)
    destruct (close_at s) eqn:Hpc; try done.
    pose proof (mach_step_runFlush batch (mach s) Hwf) as Hms.
    destruct (runFlush batch (mach s)) as [r m']. simpl in Hms.
    destruct (Hkeep _ Hms) as (K1 & K2 & K3).
    injection Hstep as <-. (split; [|done]). unfold sys_wf; simpl.
    split_and!; try done; try apply Hms.
Qed.

Lemma detach_sound m :
  wf m → detached_from m (detach m).1 (detach m).2.
Proof.
  intros Hwf. pose proof (detach_spec m Hwf) as Hspec.
  assert (Hlen : len (detach m).1 = len (buffer (bat m))).
  { unfold detach. case_decide as Hz; [by rewrite Hz|done]. }
  destruct (detach m) as [batch m']. simpl in *.
  destruct Hspec as (Hbs & Hl & Hwb & Hap & Hc).
  unfold detached_from, detached_ok. split_and!; try done.
  unfold buffered. by apply contents_len0.
Qed.

Lemma runFlush_sound who batch m :
  ∃ evs, flushed who batch m (runFlush batch m).1 (runFlush batch m).2 evs ∧
         evs = sink_events who m (runFlush batch m).2 (runFlush batch m).1.
Proof.
  unfold runFlush, sink_events. case_decide as Hz.
  - exists []. simpl. rewrite drop_all. split; [by constructor|done].
  - destruct (flushFn (bat m)) as [f|] eqn:Hf.
    + destruct (f _ _) as [r w] eqn:Hfw. simpl.
      rewrite drop_app_length. simpl. eexists. split; [|done].
      by eapply flushed_sink.
    + exists []. simpl. rewrite drop_all. split; [by constructor|done].
Qed.

(** The executable [step] acts as [step_rel] says. *)
Lemma step_sound a s s' :
  wf (mach s) → step a s = Some s' → step_rel s a s'.
Proof.
  intros Hwf Hstep. destruct a; simpl in Hstep.
  - pose proof (Add_locked_spec item (mach s) Hwf) as Hspec.
    destruct (Add_locked item (mach s)) as [[sf batch] m'].
    destruct Hspec as (Hbs & Hwb & Hap & Hsf & Hres).
    destruct sf; injection Hstep as <-; symmetry in Hsf.
    + apply bool_decide_eq_true in Hsf. destruct Hres as [Hl Hc]. rewrite Hc.
      apply SR_add_flush; try done. unfold buffered. by apply contents_len0.
    + apply bool_decide_eq_false in Hsf. destruct Hres as [-> Hc].
      apply SR_add_keep; try done. lia.
  - pose proof (detach_sound _ Hwf) as Hd.
    destruct (detach (mach s)) as [batch m']. simpl in Hd.
    injection Hstep as <-.
    replace (contents (store m') batch) with (buffered (mach s)) by (symmetry; apply Hd).
    by constructor.
  - destruct (inflight s !! i) as [[who batch]|] eqn:Hi; [|done].
    destruct (runFlush_sound who batch (mach s)) as (evs & Hfl & Hevs).
    destruct (runFlush batch (mach s)) as [r m']. simpl in *.
    injection Hstep as <-. rewrite <- Hevs. by econstructor.
  - destruct (loop_at s) eqn:Hpc; try done.
    pose proof (detach_sound _ Hwf) as Hd.
    destruct (detach (mach s)) as [batch m']. simpl in Hd.
    injection Hstep as <-.
    replace (contents (store m') batch) with (buffered (mach s)) by (symmetry; apply Hd).
    by constructor.
  - destruct (loop_at s) eqn:Hpc; try done.
    destruct (runFlush_sound Scheduler batch (mach s)) as (evs & Hfl & Hevs).
    destruct (runFlush batch (mach s)) as [r m']. simpl in *.
    injection Hstep as <-. rewrite <- Hevs. by econstructor.
  - destruct (loop_at s) eqn:Hpc; try done.
    injection Hstep as <-. by constructor.
  - destruct (loop_at s) eqn:Hpc; try done.
    destruct (stop (bat (mach s))) eqn:Hst; [|done].
    injection Hstep as <-. by constructor.
  - destruct (close_at s) eqn:Hpc; try done.
    destruct (stop (bat (mach s))) eqn:Hst; [done|].
    injection Hstep as <-. by constructor.
  - destruct (close_at s) eqn:Hpc; try done.
    case_decide; [|done].
    injection Hstep as <-. by constructor.
  - destruct (close_at s) eqn:Hpc; try done.
    pose proof (detach_sound _ Hwf) as Hd.
    destruct (detach (mach s)) as [batch m']. simpl in Hd.
    injection Hstep as <-.
    replace (contents (store m') batch) with (buffered (mach s)) by (symmetry; apply Hd).
    by constructor.
  - destruct (close_at s) eqn:Hpc; try done.
    destruct (runFlush_sound Closer batch (mach s)) as (evs & Hfl & Hevs).
    destruct (runFlush batch (mach s)) as [r m']. simpl in *.
    injection Hstep as <-. rewrite <- Hevs. by econstructor.
Qed.

(** *** Readings of traces *)

Lemma added_app (tr1 tr2 : list (event (T:=T) (E:=E))) :
  added (tr1 ++ tr2) = added tr1 ++ added tr2.
Proof. unfold added. apply bind_app. Qed.

Lemma detached_app (tr1 tr2 : list (event (T:=T) (E:=E))) :
  detached (tr1 ++ tr2) = detached tr1 ++ detached tr2.
Proof. unfold detached. apply bind_app. Qed.

Lemma events_of_app who (tr1 tr2 : list (event (T:=T) (E:=E))) :
  events_of who (tr1 ++ tr2) = events_of who tr1 ++ events_of who tr2.
Proof. unfold events_of. apply filter_app. Qed.

Lemma flushed_keeps who batch m r m' evs :
  flushed who batch m r m' evs → bat m' = bat m ∧ store m' = store m.
Proof. by destruct 1. Qed.

Lemma flushed_events who batch m r m' evs :
  flushed who batch m r m' evs →
  added evs = [] ∧ detached evs = [] ∧
  ∀ who', who' ≠ who → events_of who' evs = [].
Proof.
  destruct 1; split_and!; try done.
  intros who' Hne. unfold events_of. simpl.
  rewrite filter_cons_False; [done|]. simpl.
  rewrite bool_decide_eq_true. done.
Qed.

Lemma flushed_buffered who batch m r m' evs :
  flushed who batch m r m' evs → buffered m' = buffered m.
Proof. by destruct 1. Qed.

(** The configuration never changes. *)
Lemma step_config s a s' :
  step_rel s a s' →
  maxSize (bat (mach s')) = maxSize (bat (mach s)) ∧
  interval (bat (mach s')) = interval (bat (mach s)) ∧
  flushFn (bat (mach s')) = flushFn (bat (mach s)).
Proof.
  destruct 1; simpl;
    repeat match goal with
    | H : detached_from _ _ _ |- _ => destruct H as (H & _)
    | H : buffer_step _ _ |- _ => destruct H as (_ & (? & ? & ? & _) & _)
    | H : flushed _ _ _ _ _ _ |- _ => apply flushed_keeps in H as [-> _]
    end; done.
Qed.

(** *** The invariants are kept *)

Lemma partitioned_step s a s' :
  step_rel s a s' → partitioned s → partitioned s'.
Proof.
  unfold partitioned.
  destruct 1 as [item m' Hbs Hb Hsz|item batch m' Hbs Hok Hl Hb Hc Hsz
    |batch m' Hd|i who batch r m' evs Hi Hfl|batch m' Hpc Hd
    |batch r m' evs Hpc Hfl|e Hpc|Hpc Hst|Hpc Hst|Hpc Hwg|batch m' Hpc Hd
    |batch r m' evs Hpc Hfl]; simpl; intros Hp;
    rewrite ?added_app, ?detached_app, ?concat_app;
    repeat match goal with
    | H : detached_from _ _ _ |- _ => destruct H as (_ & _ & _ & -> & _ & _)
    | H : flushed _ _ _ _ _ _ |- _ =>
        rewrite (flushed_buffered _ _ _ _ _ _ H);
        destruct (flushed_events _ _ _ _ _ _ H) as (-> & -> & _); clear H
    end;
    simpl; rewrite ?app_nil_r; try done.
  - rewrite Hb, <- Hp. by rewrite !app_assoc.
  - rewrite Hb, <- Hp. by rewrite !app_nil_r, !app_assoc.
Qed.

Lemma buffer_step_fields m m' :
  buffer_step m m' →
  stop (bat m') = stop (bat m) ∧ wg (bat m') = wg (bat m) ∧
  lastError (bat m') = lastError (bat m).
Proof. intros (_ & (_ & _ & _ & ? & ? & ?) & _). done. Qed.

Ltac step_fields :=
  repeat match goal with
  | H : detached_from _ _ _ |- _ => destruct H as (H & _)
  | H : buffer_step _ _ |- _ =>
      apply buffer_step_fields in H as (? & ? & ?)
  | H : flushed _ _ _ _ _ _ |- _ => apply flushed_keeps in H as [? _]
  end.

Lemma shutdown_step s a s' :
  step_rel s a s' → shutdown_inv s → shutdown_inv s'.
Proof.
  unfold shutdown_inv. destruct 1; simpl; intros [Hwg Hcl]; step_fields;
    repeat match goal with
    | H : bat _ = bat _ |- _ => rewrite H
    | H : stop (bat _) = stop (bat _) |- _ => rewrite H
    | H : wg (bat _) = wg (bat _) |- _ => rewrite H
    end; try done;
    try match goal with r : option (error E) |- _ => destruct r end;
    destruct (close_at s), (loop_at s); simpl in *;
    intuition (congruence || lia).
Qed.

Lemma clients_step s a s' :
  step_rel s a s' → clients_inv s → clients_inv s'.
Proof.
  unfold clients_inv. destruct 1; simpl; intros Hcl; try done.
  - apply Forall_app. split; [done|]. apply Forall_singleton. by left.
  - apply Forall_app. split; [done|]. apply Forall_singleton. by right.
  - by apply Forall_delete.
Qed.

Lemma closer_inv_frame s s' :
  close_at s' = close_at s →
  events_of Closer (trace s') = events_of Closer (trace s) →
  flushFn (bat (mach s')) = flushFn (bat (mach s)) →
  (∀ b, close_at s = CRunFlush b →
        contents (store (mach s')) b = contents (store (mach s)) b) →
  closer_inv s → closer_inv s'.
Proof.
  unfold closer_inv. intros -> -> -> Hc.
  destruct (close_at s); try done. by rewrite Hc.
Qed.

Lemma drained_run batch m r m' evs :
  wf_slice (store m) batch →
  flushed Closer batch m r m' evs →
  drained (flushFn (bat m')) (contents (store m) batch) r
    ([EvDetach Closer (contents (store m) batch)] ++ evs ++ [EvReturn Closer r]).
Proof.
  intros Hwf Hfl. pose proof (length_contents _ _ Hwf) as Hlen.
  destruct Hfl as [Hz|Hnz Hf|f r w Hnz Hf Hfw]; unfold drained; simpl.
  - rewrite contents_len0 by done. done.
  - destruct (contents (store m) batch); [simpl in Hlen; lia|]. by rewrite Hf.
  - destruct (contents (store m) batch); [simpl in Hlen; lia|]. by rewrite Hf.
Qed.

Lemma closer_step s a s' :
  sys_wf s → clients_inv s → step a s = Some s' →
  closer_inv s → closer_inv s'.
Proof.
  intros Hsys Hcl Hstep Hinv.
  destruct (sys_wf_step _ _ _ Hsys Hstep) as [_ [_ Hfr]].
  destruct Hsys as (Hwf & _ & _ & Hheld).
  pose proof (step_sound _ _ _ Hwf Hstep) as Hrel.
  pose proof (step_config _ _ _ Hrel) as (_ & _ & Hfn).
  assert (Hstable : ∀ b, close_at s = CRunFlush b →
    contents (store (mach s')) b = contents (store (mach s)) b).
  { intros b Hb. eapply frames_contents; [exact Hfr|]. by apply Hheld. }
  clear Hstep Hfr.
  destruct Hrel as [item m' Hbs Hb Hsz|item batch m' Hbs Hok Hl Hb Hc Hsz
    |batch m' Hd|i who batch r m' evs Hi Hfl|batch m' Hpc Hd
    |batch r m' evs Hpc Hfl|e Hpc|Hpc Hst|Hpc Hst|Hpc Hwg|batch m' Hpc Hd
    |batch r m' evs Hpc Hfl];
    try (apply (closer_inv_frame s); simpl in *; try done;
         rewrite ?events_of_app; simpl; by rewrite ?app_nil_r).
  - (* Run_flush *)
    apply (closer_inv_frame s); simpl in *; try done.
    assert (Hwho : who = Producer ∨ who = Caller).
    { unfold clients_inv in Hcl. rewrite Forall_lookup in Hcl. apply (Hcl _ _ Hi). }
    destruct (flushed_events _ _ _ _ _ _ Hfl) as (_ & _ & Hev).
    rewrite !events_of_app, Hev by (intros <-; by destruct Hwho).
    destruct Hwho as [-> | ->]; simpl; by rewrite app_nil_r.
  - (* Tick_run *)
    apply (closer_inv_frame s); simpl in *; try done.
    destruct (flushed_events _ _ _ _ _ _ Hfl) as (_ & _ & Hev).
    rewrite !events_of_app, Hev by done. by rewrite app_nil_r.
  - (* Close_stop *)
    unfold closer_inv in *. simpl. by rewrite Hpc in Hinv.
  - (* Close_wait *)
    unfold closer_inv in *. simpl. by rewrite Hpc in Hinv.
  - (* Close_lock *)
    unfold closer_inv in *. simpl. rewrite Hpc in Hinv.
    rewrite events_of_app, Hinv. simpl.
    destruct Hd as (_ & _ & _ & _ & _ & ->). done.
  - (* Close_run *)
    unfold closer_inv in *. simpl in *. rewrite Hpc in Hinv.
    rewrite !events_of_app, Hinv.
    exists (contents (store (mach s)) batch).
    replace (events_of Closer evs) with evs.
    + apply drained_run; [|done]. by apply Hheld.
    + destruct Hfl; try done.
Qed.

Lemma invariant_step a s s' :
  invariant s → step a s = Some s' → invariant s'.
Proof.
  intros (Hsys & Hpart & Hshut & Hcl & Hclose) Hstep.
  pose proof (step_sound _ _ _ (proj1 Hsys) Hstep) as Hrel.
  unfold invariant. split_and!.
  - by apply (sys_wf_step a s).
  - by apply (partitioned_step s a).
  - by apply (shutdown_step s a).
  - by apply (clients_step s a).
  - by apply (closer_step s a).
Qed.

Lemma invariant_start N ivl fn (h : list (list T)) (w : W) :
  invariant (start N ivl fn h w).
Proof.
  unfold invariant, sys_wf, partitioned, shutdown_inv, clients_inv, closer_inv.
  simpl. split_and!; try done; by case_decide.
Qed.

(** Every state of every schedule from [New] satisfies the invariants. *)
Lemma reachable_invariant N ivl fn (h : list (list T)) (w : W) acts s :
  run acts (start N ivl fn h w) = Some s → invariant s.
Proof.
  apply run_invariant.
  - intros a s1 s2 Hinv Hstep. by eapply invariant_step.
  - apply invariant_start.
Qed.

(** *** Detached batches are never written again *)

Lemma detached_stable (b : slice) acts s s' :
  sys_wf s → detached_ok (mach s) b → run acts s = Some s' →
  contents (store (mach s')) b = contents (store (mach s)) b ∧
  detached_ok (mach s') b.
Proof.
  revert s. induction acts as [|a acts IH]; intros s Hsys Hok; simpl.
  - by intros [= <-].
  - destruct (step a s) as [s1|] eqn:Hstep; [|done]. intros Hrun.
    destruct (sys_wf_step _ _ _ Hsys Hstep) as [Hsys1 [_ Hfr]].
    destruct (IH s1 Hsys1) as [Hc Hok']; [by eapply detached_ok_frames|done|].
    split; [|done]. rewrite Hc. eapply frames_contents; [exact Hfr|apply Hok].
Qed.

(** *** Pairwise disjoint batches *)

Lemma concat_disjoint (L : list (list T)) i j b1 b2 x :
  NoDup (concat L) → i ≠ j →
  L !! i = Some b1 → L !! j = Some b2 → x ∈ b1 → x ∉ b2.
Proof.
  assert (Hin : ∀ (L : list (list T)) k b y,
            L !! k = Some b → y ∈ b → y ∈ concat L).
  { intros L0 k b y Hk Hy. apply list_elem_of_In, in_concat.
    exists b. split; apply list_elem_of_In; [|done].
    by eapply list_elem_of_lookup_2. }
  revert i j. induction L as [|b L IH]; intros i j Hnd Hij Hi Hj Hx1 Hx2; [done|].
  simpl in Hnd. apply NoDup_app in Hnd as (_ & Hdisj & Hnd).
  destruct i as [|i], j as [|j]; simpl in *; simplify_eq.
  - by eapply Hdisj, Hin.
  - by eapply Hdisj, Hin.
  - apply (IH i j); [done|congruence|done..].
Qed.

Lemma concat_cover (L : list (list T)) x :
  x ∈ concat L → ∃ i b, L !! i = Some b ∧ x ∈ b.
Proof.
  intros Hx. apply list_elem_of_In, in_concat in Hx as (b & Hb & Hx).
  apply list_elem_of_In, list_elem_of_lookup in Hb as [i Hi].
  exists i, b. split; [done|]. by apply list_elem_of_In.
Qed.

(** An action that detaches leaves the buffer empty. *)
Lemma step_detaches s a s' :
  step_rel s a s' →
  detached (trace s') = detached (trace s) ∨ buffered (mach s') = [].
Proof.
  destruct 1 as [item m' Hbs Hb Hsz|item batch m' Hbs Hok Hl Hb Hc Hsz
    |batch m' Hd|i who batch r m' evs Hi Hfl|batch m' Hpc Hd
    |batch r m' evs Hpc Hfl|e Hpc|Hpc Hst|Hpc Hst|Hpc Hwg|batch m' Hpc Hd
    |batch r m' evs Hpc Hfl]; simpl;
    try (right; first [exact Hb | apply Hd]);
    try (left; rewrite ?detached_app; simpl; by rewrite ?app_nil_r);
    left; destruct (flushed_events _ _ _ _ _ _ Hfl) as (_ & Hde & _);
    rewrite ?detached_app, Hde; simpl; by rewrite ?app_nil_r.
Qed.

(** *** The scheduler returns to no one *)

Lemma no_scheduler_return N ivl fn (h : list (list T)) (w : W) acts s :
  run acts (start N ivl fn h w) = Some s →
  Forall (λ ev, ¬ is_return Scheduler ev) (trace s).
Proof.
  intros Hrun.
  cut (invariant s ∧ Forall (λ ev, ¬ is_return Scheduler ev) (trace s)); [tauto|].
  revert Hrun.
  apply (run_invariant
           (λ s, invariant s ∧ Forall (λ ev, ¬ is_return Scheduler ev) (trace s))).
  - intros a s1 s2 [Hinv Hret] Hstep. split; [by eapply invariant_step|].
    destruct Hinv as ((Hwf & _) & _ & _ & Hcl & _).
    pose proof (step_sound _ _ _ Hwf Hstep) as Hrel.
    destruct Hrel as [item m' Hbs Hb Hsz|item batch m' Hbs Hok Hl Hb Hc Hsz
      |batch m' Hd|i who batch r m' evs Hi Hfl|batch m' Hpc Hd
      |batch r m' evs Hpc Hfl|e Hpc|Hpc Hst|Hpc Hst|Hpc Hwg|batch m' Hpc Hd
      |batch r m' evs Hpc Hfl]; simpl; try done;
      rewrite ?Forall_app; split_and?; try done;
      try match goal with
          | H : flushed _ _ _ _ _ ?evs |- Forall _ ?evs => destruct H
          end;
      try match goal with
          | H : inflight _ !! _ = Some (?who, _) |- Forall _ [EvReturn ?who _] =>
              let Hwho := fresh in
              assert (Hwho : who = Producer ∨ who = Caller)
                by (unfold clients_inv in Hcl; rewrite Forall_lookup in Hcl;
                    apply (Hcl _ _ H));
              destruct Hwho as [-> | ->]
          end;
      repeat (apply Forall_cons_2 || apply Forall_nil_2); simpl; try done; tauto.
  - split; [apply invariant_start|]. simpl. by apply Forall_nil.
Qed.

(** *** Once [loop] has returned *)

Lemma loop_done_step a s s' :
  invariant s → loop_at s = LDone → step a s = Some s' →
  by_scheduler a = false ∧ loop_at s' = LDone ∧
  events_of Scheduler (trace s') = events_of Scheduler (trace s).
Proof.
  intros ((Hwf & _) & _ & _ & Hcl & _) Hdone Hstep.
  pose proof (step_sound _ _ _ Hwf Hstep) as Hrel.
  destruct Hrel as [item m' Hbs Hb Hsz|item batch m' Hbs Hok Hl Hb Hc Hsz
    |batch m' Hd|i who batch r m' evs Hi Hfl|batch m' Hpc Hd
    |batch r m' evs Hpc Hfl|e Hpc|Hpc Hst|Hpc Hst|Hpc Hwg|batch m' Hpc Hd
    |batch r m' evs Hpc Hfl]; simpl; try congruence;
    (split; [done|]); (split; [done|]);
    rewrite ?events_of_app; simpl; rewrite ?app_nil_r; try done.
  - assert (Hwho : who = Producer ∨ who = Caller).
    { unfold clients_inv in Hcl. rewrite Forall_lookup in Hcl. apply (Hcl _ _ Hi). }
    destruct (flushed_events _ _ _ _ _ _ Hfl) as (_ & _ & Hev).
    rewrite Hev by (intros <-; by destruct Hwho).
    destruct Hwho as [-> | ->]; simpl; by rewrite app_nil_r.
  - destruct (flushed_events _ _ _ _ _ _ Hfl) as (_ & _ & Hev).
    rewrite Hev by done. by rewrite app_nil_r.
Qed.

Lemma loop_done_run acts s s' :
  invariant s → loop_at s = LDone → run acts s = Some s' →
  Forall (λ a, by_scheduler a = false) acts ∧ loop_at s' = LDone ∧
  events_of Scheduler (trace s') = events_of Scheduler (trace s).
Proof.
  revert s. induction acts as [|a acts IH]; intros s Hinv Hdone; simpl.
  - intros [= <-]. split_and!; try done.
  - destruct (step a s) as [s1|] eqn:Hstep; [|done]. intros Hrun.
    destruct (loop_done_step _ _ _ Hinv Hdone Hstep) as (Ha & Hd1 & Hev1).
    destruct (IH s1) as (Has & Hd' & Hev'); [by eapply invariant_step|done..|].
    split_and!; [by constructor|done|congruence].
Qed.

(** *** Actions of the others leave [loop] where it is *)

Lemma loop_at_step a s s' :
  by_scheduler a = false → step a s = Some s' → loop_at s' = loop_at s.
Proof.
  intros Ha Hstep. destruct a; simpl in *; try done.
  - destruct (Add_locked item (mach s)) as [[[] batch] m1]; by injection Hstep as <-.
  - destruct (detach (mach s)) as [batch m1]. by injection Hstep as <-.
  - destruct (inflight s !! i) as [[who batch]|]; [|done].
    destruct (runFlush batch (mach s)) as [r m1]. by injection Hstep as <-.
  - destruct (close_at s); try done.
    destruct (stop (bat (mach s))); [done|]. by injection Hstep as <-.
  - destruct (close_at s); try done.
    case_decide; [|done]. by injection Hstep as <-.
  - destruct (close_at s); try done.
    destruct (detach (mach s)) as [batch m1]. by injection Hstep as <-.
  - destruct (close_at s); try done.
    destruct (runFlush batch (mach s)) as [r m1]. by injection Hstep as <-.
Qed.

Lemma loop_at_run acts s s' :
  Forall (λ a, by_scheduler a = false) acts → run acts s = Some s' →
  loop_at s' = loop_at s.
Proof.
  revert s. induction acts as [|a acts IH]; intros s Hall; simpl.
  - by intros [= <-].
  - apply Forall_cons in Hall as [Ha Hall].
    destruct (step a s) as [s1|] eqn:Hstep; [|done]. intros Hrun.
    rewrite (IH s1 Hall Hrun). by eapply loop_at_step.
Qed.

(** *** The last-error slot *)

Lemma lastError_step a s s' :
  step a s = Some s' → a ≠ Tick_record →
  lastError (bat (mach s')) = lastError (bat (mach s)).
Proof.
  intros Hstep Hne. destruct a; simpl in Hstep; try done.
  - pose proof (lastError_Add_locked item (mach s)) as Hl.
    destruct (Add_locked item (mach s)) as [[[] batch] m1];
      by injection Hstep as <-.
  - pose proof (lastError_detach (mach s)) as Hl.
    destruct (detach (mach s)) as [batch m1]. by injection Hstep as <-.
  - destruct (inflight s !! i) as [[who batch]|]; [|done].
    pose proof (lastError_runFlush batch (mach s)) as Hl.
    destruct (runFlush batch (mach s)) as [r m1]. by injection Hstep as <-.
  - destruct (loop_at s); try done.
    pose proof (lastError_detach (mach s)) as Hl.
    destruct (detach (mach s)) as [batch m1]. by injection Hstep as <-.
  - destruct (loop_at s); try done.
    pose proof (lastError_runFlush batch (mach s)) as Hl.
    destruct (runFlush batch (mach s)) as [r m1]. by injection Hstep as <-.
  - destruct (loop_at s); try done.
    destruct (stop (bat (mach s))); [|done]. by injection Hstep as <-.
  - destruct (close_at s); try done.
    destruct (stop (bat (mach s))); [done|]. by injection Hstep as <-.
  - destruct (close_at s); try done.
    case_decide; [|done]. by injection Hstep as <-.
  - destruct (close_at s); try done.
    pose proof (lastError_detach (mach s)) as Hl.
    destruct (detach (mach s)) as [batch m1]. by injection Hstep as <-.
  - destruct (close_at s); try done.
    pose proof (lastError_runFlush batch (mach s)) as Hl.
    destruct (runFlush batch (mach s)) as [r m1]. by injection Hstep as <-.
Qed.

Lemma lastError_run acts s s' :
  Forall (λ a, a ≠ Tick_record) acts → run acts s = Some s' →
  lastError (bat (mach s')) = lastError (bat (mach s)).
Proof.
  revert s. induction acts as [|a acts IH]; intros s Hall; simpl.
  - by intros [= <-].
  - apply Forall_cons in Hall as [Ha Hall].
    destruct (step a s) as [s1|] eqn:Hstep; [|done]. intros Hrun.
    rewrite (IH s1 Hall Hrun). by eapply lastError_step.
Qed.

(** *** Once [Close] has returned *)

Lemma close_returned_step a s s' r :
  close_at s = CReturned r → step a s = Some s' → close_at s' = CReturned r.
Proof.
  intros Hc Hstep. destruct a; simpl in Hstep; rewrite ?Hc in Hstep; try done.
  - destruct (Add_locked item (mach s)) as [[[] batch] m1]; by injection Hstep as <-.
  - destruct (detach (mach s)) as [batch m1]. by injection Hstep as <-.
  - destruct (inflight s !! i) as [[who batch]|]; [|done].
    destruct (runFlush batch (mach s)) as [r' m1]. by injection Hstep as <-.
  - destruct (loop_at s); try done.
    destruct (detach (mach s)) as [batch m1]. by injection Hstep as <-.
  - destruct (loop_at s); try done.
    destruct (runFlush batch (mach s)) as [r' m1]. by injection Hstep as <-.
  - destruct (loop_at s); try done. by injection Hstep as <-.
  - destruct (loop_at s); try done.
    destruct (stop (bat (mach s))); [|done]. by injection Hstep as <-.
Qed.

Lemma close_returned_run acts s s' r :
  close_at s = CReturned r → run acts s = Some s' → close_at s' = CReturned r.
Proof.
  revert s. induction acts as [|a acts IH]; intros s Hc; simpl.
  - by intros [= <-].
  - destruct (step a s) as [s1|] eqn:Hstep; [|done].
    apply IH. by eapply close_returned_step.
Qed.

(** *** The configuration of a running instance *)

Lemma reachable_config N ivl fn (h : list (list T)) (w : W) acts s :
  run acts (start N ivl fn h w) = Some s →
  maxSize (bat (mach s)) = N ∧ flushFn (bat (mach s)) = fn.
Proof.
  intros Hrun.
  cut (invariant s ∧ maxSize (bat (mach s)) = N ∧
       flushFn (bat (mach s)) = fn); [tauto|].
  revert Hrun.
  apply (run_invariant
           (λ s, invariant s ∧ maxSize (bat (mach s)) = N ∧
                 flushFn (bat (mach s)) = fn)).
  - intros a s1 s2 (Hinv & Hm & Hf) Hstep. split; [by eapply invariant_step|].
    destruct Hinv as ((Hwf & _) & _).
    pose proof (step_config _ _ _ (step_sound _ _ _ Hwf Hstep)) as (-> & _ & ->).
    done.
  - split; [apply invariant_start|done].
Qed.

End system_facts.

(** ** Where the items are *)

Section item_facts.
Context {T W E : Type} `{!Runtime T}.
Implicit Types (m : machine (T:=T) (W:=W) (E:=E)).
Implicit Types (s : system (T:=T) (W:=W) (E:=E)).
Implicit Types (a : action (T:=T)).
Implicit Types (fn : option (sink (T:=T) (W:=W) (E:=E))).

Lemma held_batches_ok s :
  sys_wf s → Forall (detached_ok (mach s)) (held_batches s).
Proof.
  intros (_ & Hin & Hl & Hc). unfold held_batches.
  rewrite !Forall_app. split_and!.
  - rewrite Forall_fmap. exact Hin.
  - destruct (loop_at s); try done. apply Forall_singleton. by apply Hl.
  - destruct (close_at s); try done. apply Forall_singleton. by apply Hc.
Qed.

(** Every action is of one of the five kinds. *)
Lemma step_kinds s a s' :
  sys_wf s → step_rel s a s' → step_kind s s'.
Proof.
  intros Hsys Hrel. pose proof Hsys as (Hwf & _).
  pose proof (length_contents _ _ Hwf) as Hlen. fold (buffered (mach s)) in Hlen.
  destruct Hrel as [item m' Hbs Hb Hsz|item batch m' Hbs Hok Hl Hb Hc Hsz
    |batch m' Hd|i who batch r m' evs Hi Hfl|batch m' Hpc Hd
    |batch r m' evs Hpc Hfl|e Hpc|Hpc Hst|Hpc Hst|Hpc Hwg|batch m' Hpc Hd
    |batch r m' evs Hpc Hfl].
  - apply (kind_append _ _ item); simpl; try done.
    pose proof (length_contents _ _ (proj1 Hbs)) as Hlen'.
    fold (buffered m') in Hlen'. rewrite Hb, length_app in Hlen'. simpl in *. lia.
  - apply (kind_append_detach _ _ item batch); simpl; try done.
    + pose proof (length_contents _ _ (proj1 Hok)) as Hlen'.
      rewrite Hc, length_app in Hlen'. simpl in *. lia.
    + unfold held_batches. simpl. rewrite fmap_app. simpl. solve_Permutation.
  - destruct Hd as (Hbs & Hok & Hl & Hb & Hlb & Hc).
    apply (kind_detach _ _ Caller batch); simpl; try done.
    unfold held_batches. simpl. rewrite fmap_app. simpl. solve_Permutation.
  - apply (kind_flush _ _ who batch r evs [EvReturn who r]); simpl; try done.
    unfold held_batches. simpl.
    rewrite (delete_Permutation _ _ _ Hi) at 1. done.
  - destruct Hd as (Hbs & Hok & Hl & Hb & Hlb & Hc).
    apply (kind_detach _ _ Scheduler batch); simpl; try done.
    unfold held_batches. simpl. rewrite Hpc. simpl. solve_Permutation.
  - apply (kind_flush _ _ Scheduler batch r evs []); simpl; try done.
    + unfold held_batches. simpl. rewrite Hpc. destruct r; simpl; solve_Permutation.
    + by rewrite app_nil_r.
  - apply kind_control; simpl; try done.
    unfold held_batches. simpl. by rewrite Hpc.
  - apply kind_control; simpl; try done.
    unfold held_batches. simpl. by rewrite Hpc.
  - apply kind_control; simpl; try done.
    unfold held_batches. simpl. by rewrite Hpc.
  - apply kind_control; simpl; try done.
    unfold held_batches. simpl. by rewrite Hpc.
  - destruct Hd as (Hbs & Hok & Hl & Hb & Hlb & Hc).
    apply (kind_detach _ _ Closer batch); simpl; try done.
    unfold held_batches. simpl. rewrite Hpc. simpl. solve_Permutation.
  - apply (kind_flush _ _ Closer batch r evs [EvReturn Closer r]); simpl; try done.
    unfold held_batches. simpl. rewrite Hpc. simpl. solve_Permutation.
Qed.

Lemma bind_ext_Forall {A B} (f g : A → list B) (l : list A) :
  Forall (λ x, f x = g x) l → l ≫= f = l ≫= g.
Proof.
  induction 1 as [|x l Hx _ IH]; [done|]. by rewrite !bind_cons, Hx, IH.
Qed.

(** What is held keeps its items through any action. *)
Lemma in_flight_stable s m' :
  sys_wf s → mach_step (mach s) m' →
  held_batches s ≫= contents (store m') = in_flight_items s.
Proof.
  intros Hsys [_ Hfr]. apply bind_ext_Forall.
  eapply Forall_impl; [by apply held_batches_ok|].
  intros b [_ Hap]. by eapply frames_contents.
Qed.

Lemma bounded_step s s' :
  sys_wf s → step_kind s s' → bounded s → bounded s'.
Proof.
  intros Hsys Hk (Hb & Hh & Hd & Hc). pose proof Hsys as (Hwf & _).
  pose proof (length_contents _ _ Hwf) as Hlen. fold (buffered (mach s)) in Hlen.
  unfold bounded.
  destruct Hk as [item Hbs Hbuf Hl Hsz Hheld Htr
    |item batch Hbs Hok Hl Hbuf Hlb Hcb Hheld Htr
    |who batch Hbs Hok Hl Hbuf Hlb Hcb Hheld Htr
    |who batch r evs tail Hfl Hheld Htr Ha Hdt
    |Hst Hbf Hmax Hcalls Hheld Htr].
  - destruct Hbs as (_ & (Hmax & _) & _ & Hcalls & _).
    rewrite Hmax, Hheld, Htr, Hcalls, Hl, detached_app. simpl. rewrite app_nil_r.
    split_and!; try done. unfold batch_limit. lia.
  - destruct Hbs as (_ & (Hmax & _) & _ & Hcalls & _).
    rewrite Hmax, Hheld, Htr, Hcalls, Hl, detached_app. simpl.
    rewrite Forall_cons, Forall_app, Forall_singleton, length_app. simpl.
    split_and!; try done; unfold batch_limit in *; lia.
  - destruct Hbs as (_ & (Hmax & _) & _ & Hcalls & _).
    rewrite Hmax, Hheld, Htr, Hcalls, Hl, detached_app. simpl.
    rewrite Forall_cons, Forall_app, Forall_singleton.
    split_and!; try done; unfold batch_limit in *; lia.
  - rewrite Hheld, Forall_cons in Hh. destruct Hh as [Hlb Hh].
    assert (Hwb : wf_slice (store (mach s)) batch).
    { pose proof (held_batches_ok _ Hsys) as Hall.
      rewrite Hheld, Forall_cons in Hall. apply Hall. }
    pose proof (length_contents _ _ Hwb) as Hlenb.
    rewrite Htr, !detached_app, Hdt, app_nil_r.
    destruct (flushed_events _ _ _ _ _ _ Hfl) as (_ & -> & _). rewrite app_nil_r.
    destruct Hfl as [Hz|Hnz Hf|f r w Hnz Hf Hfw]; simpl; split_and!; try done.
    rewrite Forall_app, Forall_singleton. split; [done|]. lia.
  - rewrite Hbf, Hmax, Hcalls, Hheld, Htr. done.
Qed.

Lemma conserved_step s s' :
  sys_wf s → mach_step (mach s) (mach s') → step_kind s s' →
  flushFn (bat (mach s)) ≠ None →
  conserved s → conserved s'.
Proof.
  intros Hsys Hms Hk Hfn Hinv. unfold conserved in *.
  pose proof (in_flight_stable _ _ Hsys Hms) as Hstable.
  unfold delivered, in_flight_items in *.
  destruct Hk as [item Hbs Hbuf Hl Hsz Hheld Htr
    |item batch Hbs Hok Hl Hbuf Hlb Hcb Hheld Htr
    |who batch Hbs Hok Hl Hbuf Hlb Hcb Hheld Htr
    |who batch r evs tail Hfl Hheld Htr Ha Hdt
    |Hst Hbf Hmax Hcalls Hheld Htr].
  - destruct Hbs as (_ & _ & _ & Hcalls & _).
    rewrite Hcalls, Hheld, Hstable, Hbuf, Htr, added_app. simpl.
    rewrite <- Hinv. by rewrite !app_assoc.
  - destruct Hbs as (_ & _ & _ & Hcalls & _).
    rewrite Hcalls, Hheld, bind_cons, Hstable, Hcb, Hbuf, Htr, added_app. simpl.
    rewrite <- Hinv. solve_Permutation.
  - destruct Hbs as (_ & _ & _ & Hcalls & _).
    rewrite Hcalls, Hheld, bind_cons, Hstable, Hcb, Hbuf, Htr, added_app. simpl.
    rewrite app_nil_r, <- Hinv. solve_Permutation.
  - rewrite Hheld, bind_cons in Hinv.
    rewrite Htr, !added_app, Ha, app_nil_r.
    destruct (flushed_events _ _ _ _ _ _ Hfl) as (-> & _ & _). rewrite app_nil_r.
    rewrite (flushed_buffered _ _ _ _ _ _ Hfl).
    destruct Hfl as [Hz|Hnz Hf|f r w Hnz Hf Hfw]; simpl in *.
    + rewrite contents_len0 in Hinv by done. exact Hinv.
    + done.
    + rewrite concat_app. simpl. rewrite app_nil_r, <- Hinv. solve_Permutation.
  - unfold buffered in *. by rewrite Hcalls, Hheld, Hst, Hbf, Htr.
Qed.

(** Sizes are bounded and items conserved along every schedule. *)
Lemma reachable_items N ivl fn (h : list (list T)) (w : W) acts s :
  run acts (start N ivl fn h w) = Some s →
  invariant s ∧ maxSize (bat (mach s)) = N ∧ flushFn (bat (mach s)) = fn ∧
  bounded s ∧ (fn ≠ None → conserved s).
Proof.
  apply (run_invariant
           (λ s, invariant s ∧ maxSize (bat (mach s)) = N ∧
                 flushFn (bat (mach s)) = fn ∧
                 bounded s ∧ (fn ≠ None → conserved s))).
  - intros a s1 s2 (Hinv & Hmax & Hfn & Hbd & Hcons) Hstep.
    pose proof Hinv as (Hsys & _). pose proof Hsys as (Hwf & _).
    pose proof (step_sound _ _ _ Hwf Hstep) as Hrel.
    pose proof (step_config _ _ _ Hrel) as (Hmax' & _ & Hfn').
    pose proof (step_kinds _ _ _ Hsys Hrel) as Hk.
    destruct (sys_wf_step _ _ _ Hsys Hstep) as [_ Hms].
    split_and!.
    + by eapply invariant_step.
    + congruence.
    + congruence.
    + by eapply bounded_step.
    + intros Hsome. eapply conserved_step; try done; [congruence|by apply Hcons].
  - split_and!; try done.
    + apply invariant_start.
    + unfold bounded, batch_limit, held_batches. simpl.
      case_decide; split_and!; try done; lia.
    + intros _. unfold conserved, in_flight_items, held_batches. simpl.
      by case_decide.
Qed.

(** *** The last-error slot is never cleared *)

Lemma lastError_kept_step a s s' :
  step a s = Some s' →
  is_Some (lastError (bat (mach s))) → is_Some (lastError (bat (mach s'))).
Proof.
  intros Hstep Hsome.
  destruct a; try (by rewrite (lastError_step _ _ _ Hstep)).
  simpl in Hstep. destruct (loop_at s); try done.
  injection Hstep as <-. simpl. eauto.
Qed.

(** *** [Close] can always go on *)

(** Once created, the ticker stays: no action leads to the panic. *)
Lemma no_panic_step a s s' :
  step a s = Some s' → loop_at s ≠ LPanic → loop_at s' ≠ LPanic.
Proof.
  intros Hstep Hno. destruct a; simpl in Hstep;
    repeat match type of Hstep with
    | context [Add_locked ?i ?m] => destruct (Add_locked i m) as [[[] ?] ?]
    | context [detach ?m] => destruct (detach m)
    | context [runFlush ?b ?m] => destruct (runFlush b m) as [[] ?]
    | context [inflight ?s !! ?i] => destruct (inflight s !! i) as [[? ?]|]
    | context [match loop_at ?s with _ => _ end] => destruct (loop_at s)
    | context [match close_at ?s with _ => _ end] => destruct (close_at s)
    | context [if stop ?b then _ else _] => destruct (stop b)
    | context [decide ?P] => destruct (decide P)
    end; try done; by injection Hstep as <-.
Qed.

Lemma no_panic_run acts s s' :
  run acts s = Some s' → loop_at s ≠ LPanic → loop_at s' ≠ LPanic.
Proof.
  intros Hrun Hno.
  eapply (run_invariant (λ s, loop_at s ≠ LPanic)); [|exact Hno|exact Hrun].
  intros a s1 s2 Hs1 Hstep. by eapply no_panic_step.
Qed.

Lemma close_progress_step s :
  invariant s → loop_at s ≠ LPanic → (∀ r, close_at s ≠ CReturned r) →
  ∃ a s', (by_scheduler a = true ∨ by_closer a = true) ∧
          step a s = Some s' ∧ close_distance s' < close_distance s.
Proof.
  intros (_ & _ & [Hwg Hshut] & _) Hticker Hnot. unfold close_distance.
  destruct (close_at s) as [| | |batch|r] eqn:Hc.
  - destruct Hshut as [Hstop _]. exists Close_stop. eexists.
    split; [by right|]. simpl. rewrite Hc, Hstop. split; [done|]. simpl. lia.
  - destruct (loop_at s) as [|batch|e| |] eqn:Hl.
    + exists Loop_exit. eexists. split; [by left|]. simpl.
      rewrite Hl, Hshut. split; [done|]. simpl. rewrite Hc. lia.
    + exists Tick_run. simpl. rewrite Hl.
      destruct (runFlush batch (mach s)) as [r m]. eexists.
      split; [by left|]. split; [done|]. simpl. rewrite Hc. destruct r; lia.
    + exists Tick_record. eexists. split; [by left|]. simpl. rewrite Hl.
      split; [done|]. simpl. rewrite Hc. lia.
    + exists Close_wait. eexists. split; [by right|]. simpl. rewrite Hc.
      rewrite decide_True by done. split; [done|]. simpl. rewrite Hl. lia.
    + done.
  - destruct Hshut as [_ Hl]. exists Close_lock. simpl. rewrite Hc.
    destruct (detach (mach s)) as [batch m]. eexists.
    split; [by right|]. split; [done|]. simpl. rewrite Hl. lia.
  - destruct Hshut as [_ Hl]. exists Close_run. simpl. rewrite Hc.
    destruct (runFlush batch (mach s)) as [r m]. eexists.
    split; [by right|]. split; [done|]. simpl. rewrite Hl. lia.
  - by destruct (Hnot r).
Qed.

Lemma close_progress n s :
  invariant s → loop_at s ≠ LPanic → close_distance s ≤ n →
  ∃ acts s' r, length acts ≤ n ∧
    Forall (λ a, by_scheduler a = true ∨ by_closer a = true) acts ∧
    run acts s = Some s' ∧ close_at s' = CReturned r.
Proof.
  revert s. induction n as [|n IH]; intros s Hinv Hticker Hn.
  - destruct (close_at s) as [| | |batch|r] eqn:Hc;
      try (unfold close_distance in Hn; rewrite Hc in Hn; simpl in Hn; lia).
    exists [], s, r. split_and!; try done.
  - destruct (close_at s) as [| | |batch|r] eqn:Hc;
      try (destruct (close_progress_step s Hinv Hticker)
             as (a & s1 & Ha & Hstep & Hlt);
           [intros r; congruence|];
           destruct (IH s1) as (acts & s' & r & Hlen & Hall & Hrun & Hret);
           [by eapply invariant_step|by eapply no_panic_step|lia|];
           exists (a :: acts), s', r; simpl; rewrite Hstep;
           split_and!; [lia|by constructor|done|done]).
    exists [], s, r. split_and!; try done. simpl. lia.
Qed.

End item_facts.

(** ** Calls in the concurrent system *)

Section call_facts.
Context {T W E : Type} `{!Runtime T}.
Implicit Types (m : machine (T:=T) (W:=W) (E:=E)).
Implicit Types (s : system (T:=T) (W:=W) (E:=E)).
Implicit Types (a : action (T:=T)).

(** [runFlush], by the items of the batch it is handed. *)
Lemma runFlush_items who batch m :
  wf_slice (store m) batch →
  let '(r, m') := runFlush batch m in
  bat m' = bat m ∧ store m' = store m ∧
  match contents (store m) batch with
  | [] =>
      r = None ∧ world m' = world m ∧ sink_calls m' = sink_calls m ∧
      sink_events who m m' r = []
  | _ :: _ =>
      match flushFn (bat m) with
      | None =>
          r = Some (errors_New "batcher: no flush function configured") ∧
          world m' = world m ∧ sink_calls m' = sink_calls m ∧
          sink_events who m m' r = []
      | Some f =>
          (r, world m') = f (contents (store m) batch) (world m) ∧
          sink_calls m' = sink_calls m ++ [contents (store m) batch] ∧
          sink_events who m m' r = [EvSink who (contents (store m) batch) r]
      end
  end.
Proof.
  intros Hwf. pose proof (length_contents _ _ Hwf) as Hlen.
  unfold runFlush, sink_events. case_decide as Hz.
  - rewrite contents_len0 by done. by rewrite drop_all.
  - destruct (contents (store m) batch) as [|x items] eqn:Hc; [simpl in Hlen; lia|].
    destruct (flushFn (bat m)) as [f|].
    + destruct (f (x :: items) (world m)) as [r w1]. simpl.
      by rewrite drop_app_length.
    + by rewrite drop_all.
Qed.

(** While [Close] holds its batch, only its own [runFlush] moves it on. *)
Lemma close_holding_step a s s' b :
  close_at s = CRunFlush b → a ≠ Close_run → step a s = Some s' →
  close_at s' = CRunFlush b.
Proof.
  intros Hc Hne Hstep. destruct a; simpl in Hstep; try done;
    repeat match type of Hstep with
    | context [Add_locked ?i ?m] => destruct (Add_locked i m) as [[[] ?] ?]
    | context [detach ?m] => destruct (detach m)
    | context [runFlush ?b ?m] => destruct (runFlush b m) as [[] ?]
    | context [inflight ?s !! ?i] => destruct (inflight s !! i) as [[? ?]|]
    | context [match loop_at ?s with _ => _ end] => destruct (loop_at s)
    | context [if stop ?b then _ else _] => destruct (stop b)
    end; try done; try (by injection Hstep as <-);
    by rewrite Hc in Hstep.
Qed.

Lemma close_holding_run acts s s' b :
  close_at s = CRunFlush b → Forall (λ a, a ≠ Close_run) acts →
  run acts s = Some s' → close_at s' = CRunFlush b.
Proof.
  revert s. induction acts as [|a acts IH]; intros s Hc Hall; simpl.
  - by intros [= <-].
  - destruct (step a s) as [s1|] eqn:Hstep; [|done].
    apply Forall_cons in Hall as [Ha Hall]. apply IH; [|done].
    by eapply close_holding_step.
Qed.

End call_facts.

(** ** The retry adapter *)

Section loader_facts.
Context {Ev W E : Type} `{!Collaborators Ev W E}.
Implicit Types (st : retry_state (W:=W) (E:=E)).
Implicit Types (log : list (retry_event (E:=E))).

Lemma next_backoff_bounds b :
  (0 < b ≤ 5 * Second)%Z → (0 < next_backoff b ≤ 5 * Second)%Z.
Proof.
  intros Hb. unfold next_backoff, wrap64, Second in *.
  replace ((b * 2 + 2 ^ 63) `mod` 2 ^ 64 - 2 ^ 63)%Z with (b * 2)%Z.
  - case_decide; lia.
  - rewrite Z.mod_small; lia.
Qed.

Lemma failures_retry (a : Z) (e : error E) (b : Z) c log :
  failures (Inserted a (Some e) :: Waited b c :: log) = S (failures log).
Proof.
  unfold failures. change (attempts (Inserted a (Some e) :: Waited b c :: log))
    with ((a, Some e) :: attempts log).
  by rewrite filter_cons_True.
Qed.

(** The loop returns when it has fuel for the attempts that are left. *)
Lemma retry_loop_total fuel attempt backoff events st :
  (maxAttempts + 1 - attempt ≤ Z.of_nat fuel)%Z →
  ∃ r st', retry_loop (S fuel) attempt backoff events st = Some (r, st').
Proof.
  revert attempt backoff st.
  induction fuel as [|fuel IH]; intros attempt backoff st Hfuel.
  - simpl. case_decide as Hle; [lia|eauto].
  - cbn [retry_loop].
    case_decide as Hle; [|eauto].
    destruct (InsertBatch events (rworld st)) as [[e|] w1]; [|eauto].
    case_decide as Hlast; [eauto|].
    destruct (wait_backoff backoff w1) as [[c|] w2]; [eauto|].
    apply IH. lia.
Qed.

(** What the loop observes, and counts, has the shape of a run. *)
Lemma retry_loop_shape fuel attempt backoff events st r st' :
  retry_loop fuel attempt backoff events st = Some (r, st') →
  ∃ log, rlog st' = rlog st ++ log ∧ retry_shape attempt backoff log r ∧
         insertErrors st' = insertErrors st + failures log.
Proof.
  revert attempt backoff st.
  induction fuel as [|fuel IH]; intros attempt backoff st; [done|].
  simpl. case_decide as Hle.
  - destruct (InsertBatch events (rworld st)) as [[e|] w1].
    + case_decide as Hlast.
      * intros [= <- <-]. eexists. split; [done|]. split; [by constructor|].
        simpl. unfold failures. simpl. lia.
      * destruct (wait_backoff backoff w1) as [[c|] w2].
        -- intros [= <- <-]. simpl. rewrite <- app_assoc. simpl.
           eexists. split; [done|]. split; [constructor; lia|].
           unfold failures. simpl. lia.
        -- intros Hrec. apply IH in Hrec as (log & Hlog & Hshape & Herr).
           simpl in Hlog, Herr. rewrite <- !app_assoc in Hlog. simpl in Hlog.
           eexists. split; [exact Hlog|]. split; [constructor; [lia|done]|].
           rewrite Herr, failures_retry. lia.
    + intros [= <- <-]. eexists. split; [done|]. split; [by constructor|].
      simpl. unfold failures. simpl. lia.
  - intros [= <- <-]. exists []. rewrite app_nil_r. split; [done|].
    split; [constructor; lia|]. unfold failures. simpl. lia.
Qed.

Lemma insertWithRetry_shape events w :
  ∃ r st, insertWithRetry events w = Some (r, st) ∧
          retry_shape 1 (200 * Millisecond) (rlog st) r ∧
          insertErrors st = failures (rlog st).
Proof.
  unfold insertWithRetry.
  destruct (retry_loop_total (Z.to_nat maxAttempts) 1 (200 * Millisecond)
              events (mkRetry w [] 0 [])) as (r & st & Hrun).
  { unfold maxAttempts. lia. }
  exists r, st. split; [done|].
  apply retry_loop_shape in Hrun as (log & Hlog & Hshape & Herr).
  simpl in Hlog, Herr. by rewrite Hlog, Herr.
Qed.

(** Waits stay within the cap, and attempts within [maxAttempts]. *)
Lemma retry_shape_bounds attempt backoff log r :
  retry_shape attempt backoff log r →
  (0 < backoff ≤ 5 * Second)%Z →
  Forall (λ d, (0 < d.1 ≤ 5 * Second)%Z) (waits log) ∧
  (Z.of_nat (length (attempts log)) ≤ Z.max 0 (maxAttempts + 1 - attempt))%Z ∧
  Forall (λ a, (attempt ≤ a.1 ≤ maxAttempts)%Z) (attempts log).
Proof.
  induction 1 as [a b Ha|a b e Ha|a b e c Ha|a b e log r Ha Hshape IH|a b Ha];
    intros Hb; simpl.
  - split_and!; [done|lia|]. apply Forall_singleton. simpl. lia.
  - split_and!; [done|unfold maxAttempts in *; lia|].
    apply Forall_singleton. simpl. lia.
  - split_and!; [by apply Forall_singleton|lia|]. apply Forall_singleton. simpl. lia.
  - destruct IH as (IH1 & IH2 & IH3); [by apply next_backoff_bounds|].
    split_and!.
    + by apply Forall_cons.
    + lia.
    + apply Forall_cons. split; [simpl; lia|].
      eapply Forall_impl; [exact IH3|]. simpl. intros; lia.
  - split_and!; [done|lia|done].
Qed.

(** A wait cut short by the context ends the run with the context's error. *)
Lemma retry_shape_cancelled attempt backoff log r d c :
  retry_shape attempt backoff log r →
  Waited d (Some c) ∈ log →
  r = Some (ctx_Err c) ∧
  ∃ log0 n e, (n < maxAttempts)%Z ∧
              log = log0 ++ [Inserted n (Some e); Waited d (Some c)].
Proof.
  induction 1 as [a b Ha|a b e Ha|a b e c' Ha|a b e log r Ha Hshape IH|a b Ha];
    intros Hin.
  - apply list_elem_of_singleton in Hin. done.
  - apply list_elem_of_singleton in Hin. done.
  - apply elem_of_cons in Hin as [Hin|Hin]; [done|].
    apply list_elem_of_singleton in Hin. injection Hin as -> ->.
    split; [done|]. exists [], a, e. done.
  - apply elem_of_cons in Hin as [Hin|Hin]; [done|].
    apply elem_of_cons in Hin as [Hin|Hin]; [done|].
    destruct (IH Hin) as (-> & log0 & n & e' & Hn & ->). split; [done|].
    exists (Inserted a (Some e) :: Waited b None :: log0), n, e'. done.
  - by apply elem_of_nil in Hin.
Qed.

(** A run in which every insert fails and no wait is cut short goes round
    until the last attempt. *)
Lemma retry_shape_failed attempt backoff log r :
  retry_shape attempt backoff log r →
  (attempt ≤ maxAttempts)%Z →
  Forall (λ a, a.2 ≠ None) (attempts log) →
  Forall (λ d, d.2 = None) (waits log) →
  (attempt = maxAttempts ∧ ∃ e, log = [Inserted attempt (Some e)] ∧ r = Some e) ∨
  ((attempt < maxAttempts)%Z ∧ ∃ e log',
     log = Inserted attempt (Some e) :: Waited backoff None :: log' ∧
     retry_shape (attempt + 1) (next_backoff backoff) log' r ∧
     Forall (λ a, a.2 ≠ None) (attempts log') ∧
     Forall (λ d, d.2 = None) (waits log')).
Proof.
  destruct 1 as [a b Ha|a b e Ha|a b e c Ha|a b e log r Ha Hshape|a b Ha];
    intros Hle Hfail Hwait; unfold attempts, waits in *; simpl in *.
  - apply Forall_cons in Hfail as [? _]. done.
  - left. eauto.
  - apply Forall_cons in Hwait as [? _]. done.
  - right. split; [done|]. exists e, log. split_and!; try done.
    + by apply Forall_cons in Hfail as [_ ?].
    + by apply Forall_cons in Hwait as [_ ?].
  - lia.
Qed.

End loader_facts.

(** ** More on the retry adapter *)

Section retry_facts.
Context {Ev W E : Type} `{!Collaborators Ev W E}.
Implicit Types (st : retry_state (W:=W) (E:=E)).
Implicit Types (log : list (retry_event (E:=E))).

Lemma attempts_inserted (n : Z) (r : option (error E)) log :
  attempts (Inserted n r :: log) = (n, r) :: attempts log.
Proof. done. Qed.

Lemma attempts_waited (d : Z) c log :
  attempts (Waited (E:=E) d c :: log) = attempts log.
Proof. done. Qed.

Lemma waits_inserted (n : Z) (r : option (error E)) log :
  waits (Inserted n r :: log) = waits log.
Proof. done. Qed.

Lemma waits_waited (d : Z) c log :
  waits (Waited (E:=E) d c :: log) = (d, c) :: waits log.
Proof. done. Qed.

Lemma backoffs_take k n b : k ≤ n → backoffs k b = take k (backoffs n b).
Proof.
  revert n b. induction k as [|k IH]; intros n b Hk; [done|].
  destruct n as [|n]; [lia|]. simpl. f_equal. apply IH. lia.
Qed.

(** Attempts are numbered consecutively and waits follow [backoffs]. *)
Lemma retry_shape_numbering attempt backoff log r :
  retry_shape attempt backoff log r →
  (attempt ≤ maxAttempts)%Z →
  (attempts log).*1 = seqZ attempt (Z.of_nat (length (attempts log))) ∧
  (waits log).*1 = backoffs (length (waits log)) backoff ∧
  1 ≤ length (attempts log) ∧
  (attempt + Z.of_nat (length (attempts log)) ≤ maxAttempts + 1)%Z ∧
  length (waits log) ≤ length (attempts log) ≤ S (length (waits log)) ∧
  (Z.of_nat (length (waits log)) ≤ maxAttempts - attempt)%Z.
Proof.
  induction 1 as [a b Ha|a b e Ha|a b e c Ha|a b e log r Ha Hshape IH|a b Ha];
    intros Hle.
  - rewrite attempts_inserted, waits_inserted. simpl.
    rewrite seqZ_cons, seqZ_nil by lia. split_and!; try done; lia.
  - rewrite attempts_inserted, waits_inserted. simpl.
    rewrite seqZ_cons, seqZ_nil by lia. split_and!; try done; lia.
  - rewrite attempts_inserted, attempts_waited, waits_inserted, waits_waited.
    simpl. rewrite seqZ_cons, seqZ_nil by lia. split_and!; try done; lia.
  - destruct IH as (IH1 & IH2 & IH3 & IH4 & IH5 & IH6); [lia|].
    rewrite attempts_inserted, attempts_waited, waits_inserted, waits_waited.
    simpl length. rewrite !fmap_cons. simpl fst. simpl backoffs.
    rewrite IH1 at 1. rewrite IH2 at 1.
    rewrite (seqZ_cons a) by lia.
    replace (Z.pred (Z.of_nat (S (length (attempts log)))))
      with (Z.of_nat (length (attempts log))) by lia.
    replace (Z.succ a) with (a + 1)%Z by lia.
    split_and!; try done; lia.
  - lia.
Qed.

(** Only a run that ends in a successful insert returns nil. *)
Lemma retry_shape_success attempt backoff log r :
  retry_shape attempt backoff log r →
  (attempt ≤ maxAttempts)%Z →
  (r = None ↔ ∃ n, Inserted n None ∈ log) ∧
  ∀ n, Inserted n None ∈ log →
       ∃ log0, log = log0 ++ [Inserted n None] ∧ ∀ k, Inserted k None ∉ log0.
Proof.
  induction 1 as [a b Ha|a b e Ha|a b e c Ha|a b e log r Ha Hshape IH|a b Ha];
    intros Hle.
  - split.
    + split; [|done]. intros _. exists a. by apply list_elem_of_singleton.
    + intros n Hn. apply list_elem_of_singleton in Hn as [= ->].
      exists []. split; [done|]. intros k Hk. by apply elem_of_nil in Hk.
  - split.
    + split; [done|]. intros [n Hn]. by apply list_elem_of_singleton in Hn.
    + intros n Hn. by apply list_elem_of_singleton in Hn.
  - split.
    + split; [done|]. intros [n Hn].
      apply elem_of_cons in Hn as [Hn|Hn]; [done|].
      by apply list_elem_of_singleton in Hn.
    + intros n Hn. apply elem_of_cons in Hn as [Hn|Hn]; [done|].
      by apply list_elem_of_singleton in Hn.
  - destruct IH as [IH1 IH2]; [lia|]. split.
    + rewrite IH1. split; intros [n Hn]; exists n.
      * apply elem_of_cons. right. apply elem_of_cons. by right.
      * apply elem_of_cons in Hn as [Hn|Hn]; [done|].
        by apply elem_of_cons in Hn as [Hn|Hn].
    + intros n Hn. apply elem_of_cons in Hn as [Hn|Hn]; [done|].
      apply elem_of_cons in Hn as [Hn|Hn]; [done|].
      destruct (IH2 n Hn) as (log0 & -> & Hnone).
      exists (Inserted a (Some e) :: Waited b None :: log0). split; [done|].
      intros k Hk. apply elem_of_cons in Hk as [Hk|Hk]; [done|].
      apply elem_of_cons in Hk as [Hk|Hk]; [done|]. by apply (Hnone k).
  - unfold maxAttempts in *. lia.
Qed.

(** The batch size is observed exactly when the loop returns nil. *)
Lemma retry_loop_sizes fuel attempt backoff events st r st' :
  retry_loop fuel attempt backoff events st = Some (r, st') →
  (attempt ≤ maxAttempts)%Z →
  batchSizes st' =
  batchSizes st ++ match r with None => [length events] | Some _ => [] end.
Proof.
  revert attempt backoff st.
  induction fuel as [|fuel IH]; intros attempt backoff st; [done|].
  simpl. intros Hrun Hle. rewrite decide_True in Hrun by done.
  destruct (InsertBatch events (rworld st)) as [[e|] w1].
  - case_decide as Hlast.
    + injection Hrun as <- <-. simpl. by rewrite app_nil_r.
    + destruct (wait_backoff backoff w1) as [[c|] w2].
      * injection Hrun as <- <-. simpl. by rewrite app_nil_r.
      * apply IH in Hrun; [done|lia].
  - by injection Hrun as <- <-.
Qed.

End retry_facts.

(** ** The bulk insert *)

Section bulk_insert_facts.
Context {Ev P W E : Type} `{!Database Ev P W E}.
Implicit Types (st : db_state (Ev:=Ev) (P:=P) (W:=W)).
Implicit Types (calls execs : list (db_call (Ev:=Ev) (P:=P))).

Lemma executed_app calls1 calls2 :
  executed (calls1 ++ calls2) = executed calls1 ++ executed calls2.
Proof. unfold executed. apply bind_app. Qed.

(** The loop executes the events in order, and rolls back when it stops. *)
Lemma exec_events_shape (events : list Ev) st :
  ∃ execs,
    db_calls (exec_events events st).2 =
      db_calls st ++ execs ++
      match (exec_events events st).1 with
      | Some _ => [CallRollback]
      | None => []
      end ∧
    Forall is_exec execs ∧
    executed execs `prefix_of` events ∧
    ((exec_events events st).1 = None → executed execs = events).
Proof.
  revert st. induction events as [|evt events IH]; intros st; simpl.
  - exists []. rewrite !app_nil_r. split_and!; try done.
  - destruct (json_Marshal evt) as [err|payload]; simpl.
    + exists []. split_and!; try done. apply prefix_nil.
    + unfold do_exec. destruct (ExecContext evt payload (db st)) as [[err|] w1].
      * simpl. exists [CallExec evt payload]. rewrite <- app_assoc.
        split_and!; try done.
        -- by apply Forall_singleton.
        -- simpl. apply prefix_cons, prefix_nil.
      * destruct (IH (mkDb w1 (db_calls st ++ [CallExec evt payload])))
          as (execs & Hc & Hall & Hpre & Hdone).
        exists (CallExec evt payload :: execs). simpl in Hc.
        rewrite Hc, <- !app_assoc. split_and!; try done.
        -- by apply Forall_cons.
        -- change (executed (CallExec evt payload :: execs))
             with (evt :: executed execs). by apply prefix_cons.
        -- intros Hnone.
           change (executed (CallExec evt payload :: execs))
             with (evt :: executed execs). by rewrite Hdone.
Qed.

(** The four ways a bulk insert of some events can go. *)
Lemma InsertBatch_shape (events : list Ev) st :
  events ≠ [] →
  ∃ calls,
    db_calls (Client_InsertBatch events st).2 = db_calls st ++ calls ∧
    ((calls = [CallBeginTx] ∧ (Client_InsertBatch events st).1 ≠ None) ∨
     (calls = [CallBeginTx; CallPrepare; CallRollback] ∧
      (Client_InsertBatch events st).1 ≠ None) ∨
     (∃ execs, Forall is_exec execs ∧ executed execs `prefix_of` events ∧
        calls = [CallBeginTx; CallPrepare] ++ execs ++ [CallRollback; CallStmtClose] ∧
        (Client_InsertBatch events st).1 ≠ None) ∨
     (∃ execs, Forall is_exec execs ∧ executed execs = events ∧
        calls = [CallBeginTx; CallPrepare] ++ execs ++ [CallCommit; CallStmtClose])).
Proof.
  intros Hne. unfold Client_InsertBatch.
  rewrite decide_False by (by destruct events).
  unfold do_begin. destruct (BeginTx (db st)) as [[err|] w1].
  { eexists. split; [done|]. by left. }
  unfold do_prepare. simpl. destruct (PrepareContext w1) as [[err|] w2].
  { simpl. eexists. rewrite <- !app_assoc. split; [done|]. right. by left. }
  simpl.
  destruct (exec_events_shape events
              (mkDb w2 ((db_calls st ++ [CallBeginTx]) ++ [CallPrepare])))
    as (execs & Hc & Hall & Hpre & Hdone).
  destruct (exec_events events _) as [[err|] st3]; simpl in *.
  - eexists. rewrite Hc, <- !app_assoc. simpl. split; [done|].
    right. right. left. exists execs. split_and!; try done.
  - unfold do_commit. destruct (Commit (db st3)) as [r w4]. simpl.
    eexists. rewrite Hc, <- !app_assoc. simpl. split; [done|].
    right. right. right. exists execs. rewrite ?app_nil_r. split_and!; auto.
Qed.

End bulk_insert_facts.

Section enricher_facts.
Context {B Raw Enr W E : Type} `{!Enricher B Raw Enr W E}.
Implicit Types (st : enricher_state (B:=B) (W:=W) (E:=E)).

Lemma accounted_start (w : W) :
  accounted (enricher_start (B:=B) (E:=E) w).
Proof. by unfold accounted. Qed.

Lemma accounted_iteration salt st :
  accounted st → accounted (iteration salt st).2.
Proof.
  intros (Hc & Hp & He & Hsum & Hkeys). unfold iteration.
  destruct (ReadMessage (en_world st)) as [[err|m] w1].
  - destruct (ctx_Err_now w1) as [[c|] w2]; simpl.
    + done.
    + unfold accounted, consumed_msgs, produced_msgs in *. simpl.
      rewrite !omap_app, !filter_app, !length_app. simpl.
      rewrite !app_nil_r. split_and!; try done; lia.
  - destruct (reader_Stats_Lag w1) as [lag w2].
    assert (Hkeys' : Key <$> produced_msgs (en_trace st) `sublist_of`
                     Key <$> (consumed_msgs (en_trace st) ++ [m])).
    { rewrite fmap_app. by apply sublist_inserts_r. }
    destruct (json_Unmarshal (Value m)) as [err|raw].
    { unfold accounted, consumed_msgs, produced_msgs in *. simpl.
      rewrite !omap_app, !filter_app, !length_app. simpl.
      rewrite !app_nil_r. split_and!; try done; lia. }
    destruct (pipeline_Enrich raw salt w2) as [[err|enriched] w3].
    { unfold accounted, consumed_msgs, produced_msgs in *. simpl.
      rewrite !omap_app, !filter_app, !length_app. simpl.
      rewrite !app_nil_r. split_and!; try done; lia. }
    destruct (json_Marshal_enriched enriched) as [err|payload].
    { unfold accounted, consumed_msgs, produced_msgs in *. simpl.
      rewrite !omap_app, !filter_app, !length_app. simpl.
      rewrite !app_nil_r. split_and!; try done; lia. }
    destruct (WriteMessages (mkMessage (Key m) payload) w3) as [[err|] w4].
    { unfold accounted, consumed_msgs, produced_msgs in *. simpl.
      rewrite !omap_app, !filter_app, !length_app. simpl.
      rewrite !app_nil_r. split_and!; try done; lia. }
    unfold accounted, consumed_msgs, produced_msgs in *. simpl.
    rewrite !omap_app, !filter_app, !length_app. simpl.
    rewrite !app_nil_r. split_and!; try done; try lia.
    rewrite !fmap_app. simpl. by apply sublist_app.
Qed.

Lemma accounted_loop n salt st :
  accounted st → accounted (enricher_loop n salt st).2.
Proof.
  revert st. induction n as [|n IH]; intros st Hst; simpl; [done|].
  pose proof (accounted_iteration salt st Hst) as Hit.
  destruct (iteration salt st) as [[] st']; simpl in *; [by apply IH|done].
Qed.

End enricher_facts.

(** * Part III: the properties of the specification *)

Section batcher_claims.
Context {T W E : Type} `{!Runtime T}.
Implicit Types (m : machine (T:=T) (W:=W) (E:=E)).
Implicit Types (s : system (T:=T) (W:=W) (E:=E)).
Implicit Types (a : action (T:=T)).
Implicit Types (fn : option (sink (T:=T) (W:=W) (E:=E))).
Implicit Types (h : list (list T)) (w : W).

(** C1 (amended). With a sink and a threshold [N >= 1]. A producer alone
    adds [N] items to a fresh instance, one after the other, and nothing
    else detaches in between: the first [N - 1] calls of [Add] return nil
    and leave the sink and its world alone; the [N]-th call invokes the sink
    exactly once before it returns, with the [N] items in the order they
    were added, returns the sink's result, and leaves a buffer of length 0.
    In any interleaving, what decides is the buffer, which never holds [N]
    items between critical sections: a call of [Add] that finds fewer than
    [N - 1] items only appends and returns nil; a call that finds [N - 1]
    detaches them with its own item, [N] items in the order they were
    added, and leaves a buffer of length 0 as its critical section ends;
    whatever the others do meanwhile, its [runFlush] then invokes the sink
    once, with exactly those items, and the call returns the sink's
    result. *)
Theorem Add_reaching_threshold_flushes_once
    (N ivl : Z) (f : sink (T:=T) (W:=W) (E:=E)) h w :
  (1 ≤ N)%Z →
  (∀ (items : list T) (item : T),
     (Z.of_nat (length items) + 1 = N)%Z →
     let m0 := mkMachine (New N ivl (Some f)) h w [] in
     let '(rs, m1) := Adds items m0 in
     let '(r, m2) := Add item m1 in
     rs = replicate (length items) None ∧
     sink_calls m1 = [] ∧ world m1 = w ∧
     sink_calls m2 = [items ++ [item]] ∧
     (r, world m2) = f (items ++ [item]) w ∧
     len (buffer (bat m2)) = 0) ∧
  (∀ acts s (item : T),
     run acts (start N ivl (Some f) h w) = Some s →
     (Z.of_nat (len (buffer (bat (mach s)))) + 1 ≤ N)%Z ∧
     ((Z.of_nat (len (buffer (bat (mach s)))) + 1 < N)%Z →
      ∃ s1, step (Add_lock item) s = Some s1 ∧
        buffered (mach s1) = buffered (mach s) ++ [item] ∧
        sink_calls (mach s1) = sink_calls (mach s) ∧
        world (mach s1) = world (mach s) ∧
        inflight s1 = inflight s ∧
        trace s1 = trace s ++ [EvAdd item; EvReturn Producer None]) ∧
     ((Z.of_nat (len (buffer (bat (mach s)))) + 1 = N)%Z →
      let items := buffered (mach s) ++ [item] in
      ∃ s1 batch, step (Add_lock item) s = Some s1 ∧
        Z.of_nat (length items) = N ∧
        len (buffer (bat (mach s1))) = 0 ∧
        sink_calls (mach s1) = sink_calls (mach s) ∧
        world (mach s1) = world (mach s) ∧
        inflight s1 = inflight s ++ [(Producer, batch)] ∧
        trace s1 = trace s ++ [EvAdd item; EvDetach Producer items] ∧
        ∀ others s2 i,
          run others s1 = Some s2 → inflight s2 !! i = Some (Producer, batch) →
          ∃ s3, step (Run_flush i) s2 = Some s3 ∧
            sink_calls (mach s3) = sink_calls (mach s2) ++ [items] ∧
            world (mach s3) = (f items (world (mach s2))).2 ∧
            buffer (bat (mach s3)) = buffer (bat (mach s2)) ∧
            trace s3 = trace s2 ++
              [EvSink Producer items (f items (world (mach s2))).1;
               EvReturn Producer (f items (world (mach s2))).1])).
Proof.
  intros HN. split.
  { intros items item Hlen m0.
    assert (Hwf0 : wf m0) by done.
    destruct (Adds_below items m0 Hwf0) as (m1 & -> & Hbs & Hl1 & Hb1).
    { simpl. lia. }
    destruct Hbs as (Hwf1 & (Hmax & _ & Hfn & _) & Hw1 & Hc1 & _).
    simpl in Hl1, Hb1, Hmax, Hfn, Hw1, Hc1.
    destruct (Add_flush_spec item m1 f Hwf1) as (m2 & -> & _ & Hl2 & _ & Hw2 & Hc2).
    { rewrite Hmax, Hl1. lia. }
    { done. }
    rewrite Hb1, Hw1 in *. rewrite Hc2, Hc1, Hw2, Hl2.
    split_and!; try done. by destruct (f _ _). }
  intros acts s item Hrun.
  destruct (reachable_items _ _ _ _ _ _ _ Hrun) as (Hinv & Hmax & Hfn & Hbd & _).
  pose proof Hinv as (Hsys & _). pose proof Hsys as (Hwf & _).
  destruct Hbd as (Hlt & _). unfold batch_limit in Hlt. rewrite Hmax in Hlt.
  pose proof (length_contents _ _ Hwf) as Hlen. fold (buffered (mach s)) in Hlen.
  pose proof (Add_locked_spec item (mach s) Hwf) as Hspec.
  split_and!; [lia| |].
  - intros Hbelow. simpl.
    destruct (Add_locked item (mach s)) as [[sf batch] m1].
    destruct Hspec as (Hbs & _ & _ & -> & Hcase).
    rewrite Hmax in *. rewrite bool_decide_eq_false_2 in * by lia.
    destruct Hcase as [_ Hb1]. destruct Hbs as (_ & _ & Hw1 & Hc1 & _).
    eexists. split; [done|]. by simpl.
  - intros Hreach items.
    assert (Hstep : ∃ s1, step (Add_lock item) s = Some s1 ∧
              mach s1 = (Add_locked item (mach s)).2 ∧
              inflight s1 = inflight s ++ [(Producer, (Add_locked item (mach s)).1.2)] ∧
              trace s1 = trace s ++
                [EvAdd item;
                 EvDetach Producer
                   (contents (store (Add_locked item (mach s)).2)
                      (Add_locked item (mach s)).1.2)]).
    { simpl. destruct (Add_locked item (mach s)) as [[sf batch] m1].
      destruct Hspec as (_ & _ & _ & -> & _).
      rewrite Hmax. rewrite bool_decide_eq_true_2 by lia. eauto. }
    destruct (Add_locked item (mach s)) as [[sf batch] m1].
    cbn [fst snd] in Hstep. destruct Hstep as (s1 & Hstep & Hm1 & Hin1 & Htr1).
    subst m1. destruct Hspec as (Hbs & Hwfb & Hap & -> & Hcase).
    rewrite Hmax in *. rewrite bool_decide_eq_true_2 in * by lia.
    destruct Hcase as [Hl1 Hcb]. fold items in Hcb.
    pose proof Hbs as (_ & _ & Hw1 & Hc1 & _).
    exists s1, batch. split; [done|].
    assert (Hitems : Z.of_nat (length items) = N).
    { unfold items. rewrite length_app. simpl. lia. }
    rewrite Hcb in Htr1. split_and!; try done.
    intros others s2 i Hothers Hi.
    destruct (sys_wf_step _ _ _ Hsys Hstep) as [Hsys1 _].
    destruct (detached_stable batch _ _ _ Hsys1 (conj Hwfb Hap) Hothers)
      as [Hc2 Hok2].
    rewrite Hcb in Hc2.
    assert (Hfn2 : flushFn (bat (mach s2)) = Some f).
    { eapply (reachable_config N ivl (Some f) h w (acts ++ Add_lock item :: others)).
      rewrite run_app, Hrun. cbn [mbind option_bind].
      by rewrite run_cons, Hstep. }
    pose proof (runFlush_items Producer batch (mach s2) (proj1 Hok2)) as Hrf.
    simpl. rewrite Hi.
    destruct (runFlush batch (mach s2)) as [r m3].
    destruct Hrf as (Hbat & Hst & Hrf). rewrite Hc2, Hfn2 in Hrf.
    destruct items as [|x rest] eqn:Hx; [simpl in Hitems; lia|].
    destruct Hrf as (Hr & Hcalls & ->).
    eexists. split; [done|]. simpl. rewrite Hbat.
    destruct (f (x :: rest) (world (mach s2))) as [r' w']. simpl.
    injection Hr as -> ->. done.
Qed.

(** C6 (amended). Without a sink, a flush of a non-empty batch yields at once
    the configuration error, and no flush invokes a sink or changes the
    world; a flush of no batch (the buffer was empty) returns nil. So for
    [Flush], and for [Add] when it reaches the threshold. *)
Theorem flush_without_sink m :
  flushFn (bat m) = None →
  (∀ batch,
     runFlush batch m =
     (if decide (len batch = 0) then None
      else Some (errors_New "batcher: no flush function configured"), m)) ∧
  (Flush m).1 =
    (if decide (len (buffer (bat m)) = 0) then None
     else Some (errors_New "batcher: no flush function configured")) ∧
  sink_calls (Flush m).2 = sink_calls m ∧ world (Flush m).2 = world m ∧
  ∀ item,
    (Add item m).1 =
      (if bool_decide (maxSize (bat m) ≤ Z.of_nat (S (len (buffer (bat m)))))%Z
       then Some (errors_New "batcher: no flush function configured")
       else None) ∧
    sink_calls (Add item m).2 = sink_calls m ∧ world (Add item m).2 = world m.
Proof.
  intros Hf.
  assert (Hrun : ∀ batch m1, flushFn (bat m1) = None →
     runFlush batch m1 =
     (if decide (len batch = 0) then None
      else Some (errors_New "batcher: no flush function configured"), m1)).
  { intros batch m1 Hf1. unfold runFlush. case_decide; [done|]. by rewrite Hf1. }
  split; [intros batch; by apply Hrun|].
  assert (Hdet : ∀ m1, flushFn (bat m1) = None →
    flushFn (bat (detach m1).2) = None ∧
    len (detach m1).1 = len (buffer (bat m1)) ∧
    sink_calls (detach m1).2 = sink_calls m1 ∧ world (detach m1).2 = world m1).
  { intros m1 Hf1. unfold detach. case_decide as Hz; simpl; [by rewrite Hz|done]. }
  split_and!.
  - unfold Flush. destruct (Hdet m Hf) as (Hf' & Hl & _).
    destruct (detach m) as [batch m1]. simpl in *. rewrite Hrun, Hl by done. done.
  - unfold Flush. destruct (Hdet m Hf) as (Hf' & _ & Hc & _).
    destruct (detach m) as [batch m1]. simpl in *. by rewrite Hrun.
  - unfold Flush. destruct (Hdet m Hf) as (Hf' & _ & _ & Hw).
    destruct (detach m) as [batch m1]. simpl in *. by rewrite Hrun.
  - intros item. unfold Add, Add_locked.
    assert (Happ : len (append (buffer (bat m)) item (store m)).1
                   = S (len (buffer (bat m)))).
    { unfold append, append_grow. destruct (arr _); [case_decide|]; done. }
    destruct (append _ _ _) as [buf h1]. simpl in Happ. rewrite Happ.
    case_bool_decide; [|done].
    set (m1 := mkMachine _ _ _ _). destruct (Hdet m1 Hf) as (Hf' & Hl & Hc & Hw).
    destruct (detach m1) as [batch m2]. simpl in *.
    rewrite Hrun by done. simpl. rewrite Hl, Happ. done.
Qed.


(** C10. [Add] and [Flush] never write the last-error slot, whatever the
    outcome of the flush they run; what the sink answers, an error among it,
    is the result the call returns: for [Add] when its append reaches the
    threshold, for [Flush] on a non-empty buffer. In the concurrent system
    the only action that writes the slot is the scheduler's recording of a
    failed tick; the [runFlush] of a producer or of a caller of [Flush]
    leaves the slot alone and ends with the return of its result to that
    goroutine. *)
Theorem lastError_only_written_by_tick :
  (∀ item m, LastError (Add item m).2 = LastError m) ∧
  (∀ m, LastError (Flush m).2 = LastError m) ∧
  (∀ a s s', step a s = Some s' → a ≠ Tick_record →
             LastError (mach s') = LastError (mach s)) ∧
  (∀ item m (f : sink (T:=T) (W:=W) (E:=E)),
     wf m → flushFn (bat m) = Some f →
     (maxSize (bat m) ≤ Z.of_nat (S (len (buffer (bat m)))))%Z →
     (Add item m).1 = (f (buffered m ++ [item]) (world m)).1) ∧
  (∀ m (f : sink (T:=T) (W:=W) (E:=E)),
     wf m → flushFn (bat m) = Some f → len (buffer (bat m)) ≠ 0 →
     (Flush m).1 = (f (buffered m) (world m)).1) ∧
  (∀ batch m (f : sink (T:=T) (W:=W) (E:=E)),
     flushFn (bat m) = Some f → len batch ≠ 0 →
     (runFlush batch m).1 = (f (contents (store m) batch) (world m)).1 ∧
     LastError (runFlush batch m).2 = LastError m) ∧
  (∀ s i who batch, inflight s !! i = Some (who, batch) →
     ∃ s', step (Run_flush i) s = Some s' ∧
       LastError (mach s') = LastError (mach s) ∧
       last (trace s') = Some (EvReturn who (runFlush batch (mach s)).1) ∧
       inflight s' = delete i (inflight s)).
Proof.
  unfold LastError.
  assert (HF : ∀ m, lastError (bat (Flush m).2) = lastError (bat m)).
  { intros m. unfold Flush. pose proof (lastError_detach m) as Hd.
    destruct (detach m) as [batch m1]. simpl in Hd.
    by rewrite lastError_runFlush. }
  split_and!; [|done| | | | |].
  - intros item m. unfold Add. pose proof (lastError_Add_locked item m) as Hl.
    destruct (Add_locked item m) as [[[] batch] m1]; simpl in *; [|done].
    by rewrite lastError_runFlush.
  - intros a s s' Hstep Hne. by apply (lastError_step a).
  - intros item m f Hwf Hf Hmax.
    by destruct (Add_flush_spec item m f Hwf Hmax Hf) as (m' & -> & _).
  - intros m f Hwf Hf Hnz. by destruct (Flush_sink_spec m f Hwf Hf Hnz) as (-> & _).
  - intros batch m f Hf Hnz. split; [|by rewrite lastError_runFlush].
    unfold runFlush. rewrite decide_False, Hf by done. by destruct (f _ _).
  - intros s i who batch Hi. simpl. rewrite Hi.
    pose proof (lastError_runFlush batch (mach s)) as Hl.
    destruct (runFlush batch (mach s)) as [r m1]. simpl in Hl.
    eexists. split; [done|]. simpl. split; [done|]. split; [|done].
    by rewrite app_assoc, last_snoc.
Qed.

(** C2. Along every interleaving of the atomic actions of one instance,
    the batches detached so far, in the order of their detaches, followed by
    the buffer, are exactly the items added so far, in the order they were
    added: every item is in one place only. Hence, when the items added are
    pairwise distinct, any two detached batches are disjoint; and right
    after any detach the batches together hold exactly the items added
    before it, each of them in one batch (for two detaches: the two
    batches). *)
Theorem every_item_in_exactly_one_batch N ivl fn h w acts s :
  run acts (start N ivl fn h w) = Some s →
  concat (detached (trace s)) ++ buffered (mach s) = added (trace s) ∧
  (NoDup (added (trace s)) →
   ∀ i j b1 b2 x, i ≠ j →
     detached (trace s) !! i = Some b1 → detached (trace s) !! j = Some b2 →
     x ∈ b1 → x ∉ b2) ∧
  (∀ a s', step a s = Some s' →
     detached (trace s') ≠ detached (trace s) →
     concat (detached (trace s')) = added (trace s') ∧
     (∀ x, x ∈ added (trace s') →
           ∃ i b, detached (trace s') !! i = Some b ∧ x ∈ b) ∧
     ∀ b1 b2, detached (trace s') = [b1; b2] → b1 ++ b2 = added (trace s')).
Proof.
  intros Hrun. pose proof (reachable_invariant _ _ _ _ _ _ _ Hrun) as Hinv.
  pose proof Hinv as (Hsys & Hpart & _). split_and!.
  - exact Hpart.
  - intros Hnd i j b1 b2 x Hij H1 H2. eapply concat_disjoint; try done.
    unfold partitioned in Hpart. rewrite <- Hpart in Hnd.
    by apply NoDup_app in Hnd as (? & _).
  - intros a s' Hstep Hnew.
    pose proof (invariant_step _ _ _ Hinv Hstep) as (_ & Hpart' & _).
    unfold partitioned in Hpart'.
    destruct (step_detaches _ _ _ (step_sound _ _ _ (proj1 Hsys) Hstep))
      as [Hsame|Hempty]; [done|].
    rewrite Hempty, app_nil_r in Hpart'. split_and!.
    + done.
    + intros x Hx. rewrite <- Hpart' in Hx. by apply concat_cover.
    + intros b1 b2 Hb. rewrite Hb in Hpart'. simpl in Hpart'.
      by rewrite app_nil_r in Hpart'.
Qed.

(** C3. In every state of every interleaving: [stop] is raised exactly from
    the first action of [Close] on; [Close] is past its wait only if [loop]
    has returned, and then no action of the scheduler is possible. When
    [Close] is past its wait, its drain takes the whole buffer and leaves it
    empty; whatever producers and callers do meanwhile, [Close] then returns
    the result of the one flush of those items: the sink is invoked once,
    with exactly them, if there are any (and a sink), and not at all if the
    buffer was empty, in which case [Close] returns nil. Once [Close] has
    returned [r], it has made exactly one detach, invoked the sink with the
    detached items only if there were any, and [r] is the result of that
    flush; from then on the scheduler does nothing, so its events, sink
    invocations among them, are those it had before. *)
Theorem Close_drains_once_after_scheduler_stopped N ivl fn h w acts s :
  run acts (start N ivl fn h w) = Some s →
  (close_at s = CIdle ↔ stop (bat (mach s)) = false) ∧
  (close_at s ≠ CIdle → close_at s ≠ CWait →
   loop_at s = LDone ∧ wg (bat (mach s)) = 0 ∧
   ∀ a, by_scheduler a = true → step a s = None) ∧
  (close_at s = CFlush →
   ∃ s1, step Close_lock s = Some s1 ∧
     len (buffer (bat (mach s1))) = 0 ∧ buffered (mach s1) = [] ∧
     world (mach s1) = world (mach s) ∧
     sink_calls (mach s1) = sink_calls (mach s) ∧
     events_of Closer (trace s1) = [EvDetach Closer (buffered (mach s))] ∧
     ∀ others s2,
       Forall (λ a, a ≠ Close_run) others → run others s1 = Some s2 →
       ∃ s3 r, step Close_run s2 = Some s3 ∧ close_at s3 = CReturned r ∧
         drained fn (buffered (mach s)) r (events_of Closer (trace s3)) ∧
         buffer (bat (mach s3)) = buffer (bat (mach s2)) ∧
         store (mach s3) = store (mach s2) ∧
         match buffered (mach s) with
         | [] =>
             r = None ∧ world (mach s3) = world (mach s2) ∧
             sink_calls (mach s3) = sink_calls (mach s2)
         | _ :: _ =>
             match fn with
             | None =>
                 r = Some (errors_New "batcher: no flush function configured") ∧
                 world (mach s3) = world (mach s2) ∧
                 sink_calls (mach s3) = sink_calls (mach s2)
             | Some f =>
                 (r, world (mach s3)) = f (buffered (mach s)) (world (mach s2)) ∧
                 sink_calls (mach s3) = sink_calls (mach s2) ++ [buffered (mach s)]
             end
         end) ∧
  (∀ r, close_at s = CReturned r →
     (∃ items, drained fn items r (events_of Closer (trace s))) ∧
     ∀ more s', run more s = Some s' →
       Forall (λ a, by_scheduler a = false) more ∧
       close_at s' = CReturned r ∧
       events_of Scheduler (trace s') = events_of Scheduler (trace s)).
Proof.
  intros Hrun. pose proof (reachable_invariant _ _ _ _ _ _ _ Hrun) as Hinv.
  pose proof (reachable_config _ _ _ _ _ _ _ Hrun) as [_ Hfn].
  pose proof Hinv as (Hsys & _ & [Hwg Hshut] & _ & Hclose).
  assert (Hpast : close_at s ≠ CIdle → close_at s ≠ CWait →
                  loop_at s = LDone ∧ wg (bat (mach s)) = 0).
  { intros H1 H2. destruct (close_at s); try done;
      destruct Hshut as [_ Hd]; by rewrite Hd in Hwg. }
  split_and!.
  - clear Hpast. destruct (close_at s), (stop (bat (mach s))); simpl in Hshut;
      split; intros; try done; by destruct Hshut.
  - intros H1 H2. destruct (Hpast H1 H2) as [Hd Hw]. split_and!; try done.
    intros a Ha. destruct a; simpl in *; try done; by rewrite Hd.
  - intros Hc. clear Hpast.
    pose proof (detach_sound _ (proj1 Hsys)) as Hd.
    assert (Hstep : ∃ s1, step Close_lock s = Some s1 ∧
              mach s1 = (detach (mach s)).2 ∧
              close_at s1 = CRunFlush (detach (mach s)).1 ∧
              trace s1 = trace s ++
                [EvDetach Closer
                   (contents (store (detach (mach s)).2) (detach (mach s)).1)]).
    { simpl. rewrite Hc. destruct (detach (mach s)). eauto. }
    destruct (detach (mach s)) as [batch m1]. simpl in Hd. cbn [fst snd] in Hstep.
    destruct Hstep as (s1 & Hstep & Hm1 & Hc1 & Htr1). subst m1.
    destruct Hd as (Hbs & Hok & Hl0 & Hb0 & Hlb & Hcb).
    pose proof (invariant_step _ _ _ Hinv Hstep) as Hinv1.
    pose proof Hinv1 as (Hsys1 & _).
    exists s1. split; [done|].
    destruct Hbs as (_ & _ & Hw1 & Hcalls1 & _).
    unfold closer_inv in Hclose. rewrite Hc in Hclose.
    split_and!; try done.
    { by rewrite Htr1, events_of_app, Hclose, Hcb. }
    intros others s2 Hall Hothers.
    pose proof (close_holding_run _ _ _ _ Hc1 Hall Hothers) as Hc2.
    destruct (detached_stable batch _ _ _ Hsys1 Hok Hothers) as [Hc2b Hok2].
    rewrite Hcb in Hc2b.
    assert (Hinv2 : invariant s2).
    { eapply (run_invariant invariant); [|exact Hinv1|exact Hothers].
      intros a sa sb Ha Hab. by eapply invariant_step. }
    assert (Hfn2 : flushFn (bat (mach s2)) = fn).
    { eapply (reachable_config N ivl fn h w (acts ++ Close_lock :: others)).
      rewrite run_app, Hrun. cbn [mbind option_bind].
      by rewrite run_cons, Hstep. }
    pose proof Hinv2 as (_ & _ & _ & _ & Hclose2).
    unfold closer_inv in Hclose2. rewrite Hc2, Hc2b in Hclose2.
    pose proof (runFlush_items Closer batch (mach s2) (proj1 Hok2)) as Hrf.
    simpl. rewrite Hc2.
    destruct (runFlush batch (mach s2)) as [r m3].
    destruct Hrf as (Hbat & Hst & Hrf). rewrite Hc2b, Hfn2 in Hrf.
    eexists _, r. split; [done|]. simpl. split; [done|].
    rewrite Hbat, Hst. rewrite !events_of_app, Hclose2.
    destruct (buffered (mach s)) as [|x items].
    + destruct Hrf as (-> & Hw & Hcalls & ->). by split_and!.
    + destruct fn as [f|].
      * destruct Hrf as (Hr & Hcalls & ->). by split_and!.
      * destruct Hrf as (-> & Hw & Hcalls & ->). by split_and!.
  - intros r Hr. split.
    + unfold closer_inv in Hclose. by rewrite Hr, Hfn in Hclose.
    + intros more s' Hmore.
      destruct (Hpast) as [Hd _]; [by rewrite Hr..|].
      destruct (loop_done_run _ _ _ Hinv Hd Hmore) as (? & _ & ?).
      split_and!; try done. by eapply close_returned_run.
Qed.

(** C8. In every state of every interleaving, for every detach of a
    non-empty buffer, the one of [Flush] (a caller's, a tick's, the one of
    [Close]) and the one inside [Add], which detaches the buffer with the
    item just appended: the buffer is empty as soon as [detach] returns,
    before [runFlush] starts; the batch holds the items that were buffered,
    in an array that is not the buffer's; whatever is done afterwards, by
    anyone, appends among it, the batch still holds those items; and
    [runFlush], right away or later, whatever its result, leaves buffer and
    store as they were: nothing is put back. Batches already in flight are
    likewise never changed. The first facts hold of [detach] on any
    well-formed buffer, wherever it is called from. *)
Theorem detached_batch_is_independent N ivl fn h w acts s :
  run acts (start N ivl fn h w) = Some s →
  (∀ p more s2, p ∈ inflight s → run more s = Some s2 →
     contents (store (mach s2)) p.2 = contents (store (mach s)) p.2) ∧
  (len (buffer (bat (mach s))) ≠ 0 →
   let '(batch, m') := detach (mach s) in
   len (buffer (bat m')) = 0 ∧ buffered m' = [] ∧
   contents (store m') batch = buffered (mach s) ∧
   arr batch ≠ arr (buffer (bat m')) ∧
   (∀ a s1 more s2, step a s = Some s1 → mach s1 = m' → run more s1 = Some s2 →
      contents (store (mach s2)) batch = buffered (mach s)) ∧
   (∀ r m'', runFlush batch m' = (r, m'') →
      buffer (bat m'') = buffer (bat m') ∧ store m'' = store m' ∧
      buffered m'' = [])) ∧
  (∀ item batch m', Add_locked item (mach s) = (true, batch, m') →
     len batch = S (len (buffer (bat (mach s)))) ∧
     len (buffer (bat m')) = 0 ∧ buffered m' = [] ∧
     contents (store m') batch = buffered (mach s) ++ [item] ∧
     arr batch ≠ arr (buffer (bat m')) ∧
     (∀ s1 more s2, step (Add_lock item) s = Some s1 → run more s1 = Some s2 →
        mach s1 = m' ∧
        contents (store (mach s2)) batch = buffered (mach s) ++ [item]) ∧
     (∀ r m'', runFlush batch m' = (r, m'') →
        buffer (bat m'') = buffer (bat m') ∧ store m'' = store m' ∧
        buffered m'' = [])) ∧
  (∀ batch m r m'', runFlush batch m = (r, m'') →
     buffer (bat m'') = buffer (bat m) ∧ store m'' = store m ∧
     buffered m'' = buffered m) ∧
  (∀ m, wf m → len (buffer (bat m)) ≠ 0 →
     let '(batch, m') := detach m in
     len batch = len (buffer (bat m)) ∧
     len (buffer (bat m')) = 0 ∧ buffered m' = [] ∧
     contents (store m') batch = buffered m ∧
     arr batch ≠ arr (buffer (bat m'))).
Proof.
  intros Hrun. pose proof (reachable_invariant _ _ _ _ _ _ _ Hrun) as Hinv.
  pose proof Hinv as (Hsys & _). pose proof Hsys as (Hwf & Hin & _).
  assert (Hdetach : ∀ m, wf m → len (buffer (bat m)) ≠ 0 →
     let '(batch, m') := detach m in
     len batch = len (buffer (bat m)) ∧
     len (buffer (bat m')) = 0 ∧ buffered m' = [] ∧
     contents (store m') batch = buffered m ∧
     arr batch ≠ arr (buffer (bat m'))).
  { intros m Hwfm Hnz. pose proof (detach_sound _ Hwfm) as Hd.
    destruct (detach m) as [batch m']. simpl in Hd.
    destruct Hd as (_ & [Hwfb Hap] & Hl & Hb & Hlb & Hc).
    split_and!; try done.
    unfold wf_slice in Hwfb. unfold apart in Hap.
    destruct (arr batch) as [l|]; [|lia].
    destruct Hap as [_ Hne]. congruence. }
  assert (Hkeep : ∀ batch m r m'', runFlush batch m = (r, m'') →
     buffer (bat m'') = buffer (bat m) ∧ store m'' = store m ∧
     buffered m'' = buffered m).
  { intros batch m r m'' Hr. pose proof (runFlush_spec batch m) as Hspec.
    rewrite Hr in Hspec. destruct Hspec as (Hbat & Hst & _).
    unfold buffered. by rewrite Hbat, Hst. }
  split_and!; [| | |exact Hkeep|exact Hdetach].
  { intros p more s2 Hp Hmore.
    eapply detached_stable; [exact Hsys| |exact Hmore].
    rewrite Forall_forall in Hin. by apply Hin. }
  - intros Hnz. pose proof (detach_sound _ Hwf) as Hd.
    assert (Harr : ∃ l, arr (detach (mach s)).1 = Some l).
    { unfold detach. case_decide; [done|]. simpl. eauto. }
    destruct (detach (mach s)) as [batch m']. simpl in Hd, Harr.
    destruct Hd as (Hbs & Hok & Hl & Hb & _ & Hc). split_and!; try done.
    + destruct Harr as [l Hl']. destruct Hok as [_ Hap]. unfold apart in Hap.
      rewrite Hl' in *. destruct Hap as [_ Hne]. congruence.
    + intros a s1 more s2 Hstep Hm Hmore.
      destruct (sys_wf_step _ _ _ Hsys Hstep) as [Hsys1 _].
      rewrite <- Hc, <- Hm.
      eapply detached_stable; [exact Hsys1| |exact Hmore]. by rewrite Hm.
    + intros r m'' Hr. destruct (Hkeep _ _ _ _ Hr) as (Hbf & Hst & Hbd).
      by rewrite Hbf, Hst, Hbd.
  - intros item batch m' Hadd.
    pose proof (Add_locked_spec item (mach s) Hwf) as Hspec.
    rewrite Hadd in Hspec.
    destruct Hspec as (Hbs & Hwfb & Hap & _ & Hl & Hc).
    pose proof (length_contents _ _ Hwfb) as Hlen.
    pose proof (length_contents _ _ Hwf) as Hlen0.
    fold (buffered (mach s)) in Hlen0.
    rewrite Hc, length_app, Hlen0 in Hlen. simpl in Hlen.
    assert (Hb : buffered m' = []) by (unfold buffered; by apply contents_len0).
    split_and!; try done.
    + lia.
    + unfold wf_slice in Hwfb. unfold apart in Hap.
      destruct (arr batch) as [l|]; [|lia].
      destruct Hap as [_ Hne]. congruence.
    + intros s1 more s2 Hstep Hmore.
      assert (Hm : mach s1 = m').
      { simpl in Hstep. rewrite Hadd in Hstep. by injection Hstep as <-. }
      split; [done|].
      destruct (sys_wf_step _ _ _ Hsys Hstep) as [Hsys1 _].
      rewrite <- Hc, <- Hm.
      eapply detached_stable; [exact Hsys1| |exact Hmore]. by rewrite Hm.
    + intros r m'' Hr. destruct (Hkeep _ _ _ _ Hr) as (Hbf & Hst & Hbd).
      by rewrite Hbf, Hst, Hbd.
Qed.

(** C9. Nothing the scheduler does ever returns a result to a caller. When
    the flush of a tick fails with [e], the scheduler goes on to record [e];
    whatever the other goroutines do in between, the recording then puts [e]
    in the last-error slot, whatever was there, and [LastError] reads [e]
    until the scheduler records again. *)
Theorem scheduler_error_goes_to_lastError N ivl fn h w acts s :
  run acts (start N ivl fn h w) = Some s →
  Forall (λ ev, ¬ is_return Scheduler ev) (trace s) ∧
  ∀ batch e, loop_at s = LRunFlush batch →
    (runFlush batch (mach s)).1 = Some e →
    ∃ s1, step Tick_run s = Some s1 ∧ loop_at s1 = LRecord e ∧
      ∀ others s2,
        Forall (λ a, by_scheduler a = false) others → run others s1 = Some s2 →
        ∃ s3, step Tick_record s2 = Some s3 ∧ LastError (mach s3) = Some e ∧
          ∀ later s4,
            Forall (λ a, a ≠ Tick_record) later → run later s3 = Some s4 →
            LastError (mach s4) = Some e.
Proof.
  intros Hrun. split; [by eapply no_scheduler_return|].
  intros batch e Hpc He. simpl. rewrite Hpc.
  destruct (runFlush batch (mach s)) as [r m1]. simpl in He. subst r.
  eexists. split; [done|]. split; [done|].
  intros others s2 Hall Hothers.
  pose proof (loop_at_run _ _ _ Hall Hothers) as Hpc2. simpl in Hpc2.
  simpl. rewrite Hpc2. eexists. split; [done|]. split; [done|].
  intros later s4 Hlater Hrun4. unfold LastError.
  by rewrite (lastError_run _ _ _ Hlater Hrun4).
Qed.

End batcher_claims.

Section loader_claims.
Context {Ev W E : Type} `{!Collaborators Ev W E}.

(** C4. [insertWithRetry] always returns, after at most 5 insert attempts
    and with no wait above 5 s. If every insert it attempts fails and no
    wait is cut short, it makes exactly 5 attempts, waits 200 ms, 400 ms,
    800 ms and 1600 ms between them, counts 5 errors, and returns the error
    of the 5th attempt. *)
Theorem insertWithRetry_exhausted (events : list Ev) (w : W) :
  ∃ r st, insertWithRetry events w = Some (r, st) ∧
    (Z.of_nat (length (attempts (rlog st))) ≤ maxAttempts)%Z ∧
    Forall (λ d, (d.1 ≤ 5 * Second)%Z) (waits (rlog st)) ∧
    (Forall (λ a, a.2 ≠ None) (attempts (rlog st)) →
     Forall (λ d, d.2 = None) (waits (rlog st)) →
     ∃ e1 e2 e3 e4 e5 : error E,
       rlog st = [Inserted 1 (Some e1); Waited (200 * Millisecond) None;
                  Inserted 2 (Some e2); Waited (400 * Millisecond) None;
                  Inserted 3 (Some e3); Waited (800 * Millisecond) None;
                  Inserted 4 (Some e4); Waited (1600 * Millisecond) None;
                  Inserted 5 (Some e5)] ∧
       r = Some e5 ∧ insertErrors st = 5).
Proof.
  destruct (insertWithRetry_shape events w) as (r & st & Hrun & Hshape & Herr).
  exists r, st. split; [done|].
  destruct (retry_shape_bounds _ _ _ _ Hshape) as (Hw & Hlen & _).
  { unfold Millisecond, Second. lia. }
  split_and!.
  - unfold maxAttempts in *. lia.
  - eapply Forall_impl; [exact Hw|]. simpl. intros; lia.
  - intros Hfail Hwait. rewrite Herr. clear Hrun Herr Hw Hlen.
    revert Hshape Hfail Hwait. generalize (rlog st). intros log0 H1 Hf1 Hw1.
    apply retry_shape_failed in H1
      as [[? _]|(_ & e1 & log1 & -> & H2 & Hf2 & Hw2)]; [done| |done..].
    apply retry_shape_failed in H2
      as [[? _]|(_ & e2 & log2 & -> & H3 & Hf3 & Hw3)]; [done| |done..].
    apply retry_shape_failed in H3
      as [[? _]|(_ & e3 & log3 & -> & H4 & Hf4 & Hw4)]; [done| |done..].
    apply retry_shape_failed in H4
      as [[? _]|(_ & e4 & log4 & -> & H5 & Hf5 & Hw5)]; [done| |done..].
    apply retry_shape_failed in H5
      as [(_ & e5 & -> & ->)|(? & _)]; [|done..].
    exists e1, e2, e3, e4, e5. done.
Qed.


End loader_claims.

(** * Part IV: the properties on concrete instances *)

Section examples.
#[local] Existing Instance nat_runtime.

(** Threshold 3 and the flaky sink. A tick takes item 1; the third call of
    [Add] then finds one item in the buffer, not two: it returns nil without
    a flush and leaves two items in the buffer, and the sink never sees a
    batch of three. *)
Lemma Add_reaching_threshold_flushes_once_counterexample :
  ∃ s s', run [Add_lock 1; Tick_lock; Tick_run; Add_lock 2] fresh_system = Some s ∧
          step (Add_lock 3) s = Some s' ∧
          maxSize (bat (mach s')) = 3%Z ∧
          added (trace s') = [1; 2; 3] ∧
          trace s' = [EvAdd 1; EvReturn Producer None;
                      EvDetach Scheduler [1];
                      EvSink Scheduler [1] (Some (external 0));
                      EvAdd 2; EvReturn Producer None;
                      EvAdd 3; EvReturn Producer None] ∧
          inflight s' = [] ∧
          len (buffer (bat (mach s'))) = 2 ∧
          buffered (mach s') = [2; 3] ∧
          sink_calls (mach s') = [[1]].
Proof.
  destruct (run ([Add_lock 1; Tick_lock; Tick_run; Add_lock 2] ++ [Add_lock 3])
              fresh_system) as [s'|] eqn:Hrun'; [|by vm_compute in Hrun'].
  assert (H : (λ s', (maxSize (bat (mach s')), added (trace s'), trace s',
                      inflight s', len (buffer (bat (mach s'))),
                      buffered (mach s'), sink_calls (mach s'))) <$> Some s' =
              Some (3%Z, [1; 2; 3],
                    [EvAdd 1; EvReturn Producer None;
                     EvDetach Scheduler [1];
                     EvSink Scheduler [1] (Some (external 0));
                     EvAdd 2; EvReturn Producer None;
                     EvAdd 3; EvReturn Producer None],
                    [], 2, [2; 3], [[1]]))
    by (rewrite <- Hrun'; vm_compute; reflexivity).
  injection H as H1 H2 H3 H4 H5 H6 H7.
  rewrite run_app in Hrun'.
  destruct (run _ fresh_system) as [s|] eqn:Hrun; [|done].
  cbn [mbind option_bind] in Hrun'. rewrite run_singleton in Hrun'.
  exists s, s'. by split_and!.
Qed.

(** Threshold 3. A producer alone adds 1, 2, 3. And, after a tick took item
    1 and the buffer holds 2 and 3, the call adding 4 detaches 2, 3, 4 and
    hands them to the sink. *)
Lemma Add_reaching_threshold_flushes_once_witness :
  (let '(rs, m1) := Adds [1; 2] fresh in
   let '(r, m2) := Add 3 m1 in
   rs = replicate 2 None ∧
   sink_calls m1 = [] ∧ world m1 = 0 ∧
   sink_calls m2 = [[1; 2] ++ [3]] ∧
   (r, world m2) = flaky_sink ([1; 2] ++ [3]) 0 ∧
   len (buffer (bat m2)) = 0) ∧
  (∃ s, run [Add_lock 1; Tick_lock; Tick_run; Add_lock 2; Add_lock 3] fresh_system
        = Some s ∧
        buffered (mach s) = [2; 3] ∧
        ∃ s1 s3, step (Add_lock 4) s = Some s1 ∧
          len (buffer (bat (mach s1))) = 0 ∧
          step (Run_flush 0) s1 = Some s3 ∧
          sink_calls (mach s3) = [[1]; [2; 3; 4]]).
Proof.
  assert (HN : (1 ≤ 3)%Z) by lia.
  destruct (Add_reaching_threshold_flushes_once 3 1000 flaky_sink [] 0 HN)
    as [Hseq Hany].
  split.
  - apply (Hseq [1; 2] 3). reflexivity.
  - destruct (run _ fresh_system) as [s|] eqn:Hrun; [|by vm_compute in Hrun].
    exists s. split; [reflexivity|].
    assert (Hb : buffered ∘ mach <$> Some s = Some [2; 3])
      by (rewrite <- Hrun; vm_compute; reflexivity).
    assert (Hl : len ∘ buffer ∘ bat ∘ mach <$> Some s = Some 2)
      by (rewrite <- Hrun; vm_compute; reflexivity).
    assert (Hin : inflight <$> Some s = Some [])
      by (rewrite <- Hrun; vm_compute; reflexivity).
    assert (Hcalls : sink_calls ∘ mach <$> Some s = Some [[1]])
      by (rewrite <- Hrun; vm_compute; reflexivity).
    injection Hb as Hb. injection Hl as Hl. injection Hin as Hin.
    injection Hcalls as Hcalls. simpl in Hl, Hcalls.
    split; [exact Hb|].
    destruct (Hany _ s 4 Hrun) as (_ & _ & Hreach).
    destruct Hreach as (s1 & batch & Hs1 & _ & Hl1 & Hc1 & _ & Hin1 & _ & Hflush).
    { rewrite Hl. reflexivity. }
    destruct (Hflush [] s1 0) as (s3 & Hs3 & Hc3 & _); [reflexivity| |].
    { rewrite Hin1, Hin. reflexivity. }
    exists s1, s3. split; [exact Hs1|]. split; [exact Hl1|]. split; [exact Hs3|].
    rewrite Hc3, Hc1, Hcalls, Hb. reflexivity.
Defined.

(** Two producers' items, a tick and a caller's flush in between. *)
Lemma every_item_in_exactly_one_batch_witness :
  ∃ s, run [Add_lock 1; Add_lock 2; Tick_lock; Add_lock 3; Flush_lock] fresh_system
       = Some s ∧
       detached (trace s) = [[1; 2]; [3]] ∧
       concat (detached (trace s)) ++ buffered (mach s) = added (trace s) ∧
       ∀ x, x ∈ [1; 2] → x ∉ [3].
Proof.
  destruct (run _ fresh_system) as [s|] eqn:Hrun; [|by vm_compute in Hrun].
  exists s. split; [reflexivity|].
  assert (Hdet : detached ∘ trace <$> Some s = Some [[1; 2]; [3]])
    by (rewrite <- Hrun; vm_compute; reflexivity).
  assert (Hadd : added ∘ trace <$> Some s = Some [1; 2; 3])
    by (rewrite <- Hrun; vm_compute; reflexivity).
  injection Hdet as Hdet. injection Hadd as Hadd.
  split; [exact Hdet|].
  destruct (every_item_in_exactly_one_batch 3 1000 (Some flaky_sink) [] 0 _ s Hrun)
    as (Hpart & Hdisj & _).
  split; [exact Hpart|].
  assert (Hnd : NoDup (added (trace s))).
  { rewrite Hadd. apply (bool_decide_unpack _). by vm_compute. }
  intros x. apply (Hdisj Hnd 0 1).
  - lia.
  - by rewrite Hdet.
  - by rewrite Hdet.
Defined.

(** [Close] with one item left in the buffer, over the flaky sink: the
    drain step by step, and the state once [Close] has returned. *)
Lemma Close_drains_once_after_scheduler_stopped_witness :
  (∃ s, run [Add_lock 1; Close_stop; Loop_exit; Close_wait] fresh_system = Some s ∧
        buffered (mach s) = [1] ∧
        ∃ s1 s3, step Close_lock s = Some s1 ∧ buffered (mach s1) = [] ∧
          step Close_run s1 = Some s3 ∧
          close_at s3 = CReturned (Some (external 0)) ∧
          sink_calls (mach s3) = [[1]] ∧
          drained (Some flaky_sink) [1] (Some (external 0))
            (events_of Closer (trace s3))) ∧
  (∃ s, run [Add_lock 1; Close_stop; Loop_exit; Close_wait; Close_lock; Close_run]
          fresh_system = Some s ∧
        close_at s = CReturned (Some (external 0)) ∧
        loop_at s = LDone ∧
        ∃ items, drained (Some flaky_sink) items (Some (external 0))
                   (events_of Closer (trace s))).
Proof.
  split.
  - destruct (run _ fresh_system) as [s|] eqn:Hrun; [|by vm_compute in Hrun].
    exists s. split; [reflexivity|].
    assert (Hb : buffered ∘ mach <$> Some s = Some [1])
      by (rewrite <- Hrun; vm_compute; reflexivity).
    assert (Hc : close_at <$> Some s = Some CFlush)
      by (rewrite <- Hrun; vm_compute; reflexivity).
    assert (Hw : world ∘ mach <$> Some s = Some 0)
      by (rewrite <- Hrun; vm_compute; reflexivity).
    assert (Hcalls : sink_calls ∘ mach <$> Some s = Some [])
      by (rewrite <- Hrun; vm_compute; reflexivity).
    injection Hb as Hb. injection Hc as Hc. injection Hw as Hw.
    injection Hcalls as Hcalls. simpl in Hw, Hcalls.
    split; [exact Hb|].
    destruct (Close_drains_once_after_scheduler_stopped 3 1000 (Some flaky_sink) [] 0
                _ s Hrun) as (_ & _ & Hdrain & _).
    destruct (Hdrain Hc) as (s1 & Hs1 & _ & Hb1 & Hw1 & Hc1 & _ & Hfin).
    destruct (Hfin [] s1) as (s3 & r & Hs3 & Hc3 & Hdr & _ & _ & Hsink);
      [by constructor|reflexivity|].
    rewrite Hb in Hdr, Hsink. rewrite Hw1, Hw, Hc1, Hcalls in Hsink.
    destruct Hsink as [Hr Hcalls3]. injection Hr as -> _.
    exists s1, s3. split; [exact Hs1|]. split; [exact Hb1|]. split; [exact Hs3|].
    split; [exact Hc3|]. split; [exact Hcalls3|exact Hdr].
  - destruct (run _ fresh_system) as [s|] eqn:Hrun; [|by vm_compute in Hrun].
    exists s. split; [reflexivity|].
    assert (Hc : close_at <$> Some s = Some (CReturned (Some (external 0))))
      by (rewrite <- Hrun; vm_compute; reflexivity).
    injection Hc as Hc. split; [exact Hc|].
    destruct (Close_drains_once_after_scheduler_stopped 3 1000 (Some flaky_sink) [] 0
                _ s Hrun) as (_ & Hpast & _ & Hret).
    split.
    + apply Hpast; rewrite Hc; discriminate.
    + apply (Hret (Some (external 0)) Hc).
Defined.

(** Without a sink, a flush of the empty buffer returns nil, not the
    configuration error. *)
Lemma flush_without_sink_counterexample :
  let m : machine (T:=nat) (W:=nat) (E:=nat) :=
    mkMachine (New 3 1000 None) [] 0 [] in
  flushFn (bat m) = None ∧ buffered m = [] ∧
  (Flush m).1 = None ∧
  (Flush m).1 ≠ Some (errors_New "batcher: no flush function configured").
Proof. split_and!; [reflexivity..|discriminate]. Qed.

Lemma flush_without_sink_witness :
  let m : machine (T:=nat) (W:=nat) (E:=nat) :=
    mkMachine (New 1 1000 None) [] 0 [] in
  (Flush m).1 = None ∧
  (Add 7 m).1 = Some (errors_New "batcher: no flush function configured") ∧
  sink_calls (Add 7 m).2 = [].
Proof.
  intros m.
  destruct (flush_without_sink m eq_refl) as (_ & HF & _ & _ & HA).
  split; [exact HF|]. destruct (HA 7) as (Hr & Hc & _). split; [exact Hr|exact Hc].
Defined.


(** Threshold 3: a tick detaches two items, a third is appended while the
    batch is in the scheduler's hands. Threshold 1: the first [Add] detaches
    its own item, a second item is added while the batch is in flight, and
    the failing flush puts nothing back. *)
Lemma detached_batch_is_independent_witness :
  (∃ s, run [Add_lock 1; Add_lock 2] fresh_system = Some s ∧
        let '(batch, m') := detach (mach s) in
        len (buffer (bat m')) = 0 ∧
        contents (store m') batch = buffered (mach s) ∧
        buffered (mach s) = [1; 2] ∧
        ∀ s1 s2, step Tick_lock s = Some s1 → run [Add_lock 3] s1 = Some s2 →
                 contents (store (mach s2)) batch = buffered (mach s)) ∧
  (∃ batch m', Add_locked 7 (mach eager_system) = (true, batch, m') ∧
        len batch = 1 ∧ len (buffer (bat m')) = 0 ∧
        contents (store m') batch = [7] ∧
        arr batch ≠ arr (buffer (bat m')) ∧
        ∀ s1 s2, step (Add_lock 7) eager_system = Some s1 →
                 run [Add_lock 8] s1 = Some s2 →
                 contents (store (mach s2)) batch = [7]).
Proof.
  split.
  - destruct (run _ fresh_system) as [s|] eqn:Hrun; [|by vm_compute in Hrun].
    exists s. split; [reflexivity|].
    assert (Hb : buffered ∘ mach <$> Some s = Some [1; 2])
      by (rewrite <- Hrun; vm_compute; reflexivity).
    assert (Hl : len ∘ buffer ∘ bat ∘ mach <$> Some s = Some 2)
      by (rewrite <- Hrun; vm_compute; reflexivity).
    assert (Hpc : loop_at <$> Some s = Some LSelect)
      by (rewrite <- Hrun; vm_compute; reflexivity).
    injection Hb as Hb. injection Hl as Hl. injection Hpc as Hpc. simpl in Hl.
    destruct (detached_batch_is_independent 3 1000 (Some flaky_sink) [] 0 _ s Hrun)
      as (_ & H & _).
    assert (Hnz : len (buffer (bat (mach s))) ≠ 0) by (by rewrite Hl).
    specialize (H Hnz).
    destruct (detach (mach s)) as [batch m'] eqn:Hd.
    destruct H as (Hl' & _ & Hc & _ & Hstable & _).
    split; [exact Hl'|]. split; [exact Hc|]. split; [exact Hb|].
    intros s1 s2 Hs1 Hs2. apply (Hstable Tick_lock s1 [Add_lock 3] s2 Hs1); [|exact Hs2].
    simpl in Hs1. rewrite Hpc, Hd in Hs1. by injection Hs1 as <-.
  - destruct (Add_locked 7 (mach eager_system)) as [[sf batch] m'] eqn:Hadd.
    assert (Hsf : sf = true).
    { assert (H : (Add_locked 7 (mach eager_system)).1.1 = true)
        by (vm_compute; reflexivity).
      by rewrite Hadd in H. }
    subst sf. exists batch, m'. split; [reflexivity|].
    assert (Hrun : run [] eager_system = Some eager_system) by reflexivity.
    destruct (detached_batch_is_independent 1 1000 (Some flaky_sink) [] 0 _ _ Hrun)
      as (_ & _ & H & _).
    destruct (H 7 batch m' Hadd) as (Hlb & Hl & _ & Hc & Harr & Hstable & _).
    split; [exact Hlb|]. split; [exact Hl|]. split; [exact Hc|]. split; [exact Harr|].
    intros s1 s2 Hs1 Hs2. apply (Hstable s1 [Add_lock 8] s2 Hs1 Hs2).
Defined.

(** The first tick fails: the sink is flaky. *)
Lemma scheduler_error_goes_to_lastError_witness :
  ∃ s, run [Add_lock 1; Tick_lock] fresh_system = Some s ∧
       ∃ s3, run [Tick_run; Add_lock 2; Tick_record] s = Some s3 ∧
             LastError (mach s3) = Some (external 0).
Proof.
  destruct (run _ fresh_system) as [s|] eqn:Hrun; [|by vm_compute in Hrun].
  exists s. split; [reflexivity|].
  assert (Hst : (λ s, match loop_at s with
                      | LRunFlush batch =>
                          Some ((runFlush batch (mach s)).1)
                      | _ => None
                      end) <$> Some s = Some (Some (Some (external 0))))
    by (rewrite <- Hrun; vm_compute; reflexivity).
  injection Hst as Hst. destruct (loop_at s) as [|batch| | |] eqn:Hpc; try done.
  injection Hst as Hst.
  destruct (scheduler_error_goes_to_lastError 3 1000 (Some flaky_sink) [] 0 _ s Hrun)
    as [_ H].
  destruct (H batch (external 0) Hpc Hst) as (s1 & Hs1 & _ & Hrec).
  assert (Hadd : ∃ s2, step (Add_lock 2) s1 = Some s2).
  { simpl. destruct (Add_locked 2 (mach s1)) as [[[] b] m]; eauto. }
  destruct Hadd as [s2 Hs2].
  destruct (Hrec [Add_lock 2] s2) as (s3 & Hs3 & Hlast & _).
  - by repeat constructor.
  - by rewrite run_singleton.
  - exists s3. split; [|exact Hlast].
    rewrite run_cons, Hs1. cbn [mbind option_bind].
    rewrite run_cons, Hs2. cbn [mbind option_bind].
    by rewrite run_singleton.
Defined.

(** Threshold 3 and the flaky sink. The third [Add] reaches the threshold
    and its flush fails: the producer gets the error, the slot stays empty.
    So for a caller's [Flush] of one item. *)
Lemma lastError_only_written_by_tick_witness :
  (∃ s, run [Add_lock 1; Add_lock 2; Add_lock 3] fresh_system = Some s ∧
        ∃ s', step (Run_flush 0) s = Some s' ∧
              last (trace s') = Some (EvReturn Producer (Some (external 0))) ∧
              sink_calls (mach s') = [[1; 2; 3]] ∧
              LastError (mach s') = None) ∧
  (∃ s, run [Add_lock 1] fresh_system = Some s ∧
        (Flush (mach s)).1 = Some (external 0) ∧
        LastError (Flush (mach s)).2 = None ∧
        ∃ s', step Flush_lock s = Some s' ∧ LastError (mach s') = None).
Proof.
  destruct (lastError_only_written_by_tick (T:=nat) (W:=nat) (E:=nat))
    as (_ & HFlush & Hstep & _ & HFr & _ & Hrun_flush).
  split.
  - destruct (run _ fresh_system) as [s|] eqn:Hrun; [|by vm_compute in Hrun].
    exists s. split; [reflexivity|].
    assert (H : (λ s, (inflight s !! 0,
                       (λ p, (runFlush p.2 (mach s)).1) <$> inflight s !! 0,
                       (λ p, sink_calls (runFlush p.2 (mach s)).2) <$> inflight s !! 0,
                       LastError (mach s))) <$> Some s =
                Some (Some (Producer, Slice (Some 3) 3 3),
                      Some (Some (external 0)), Some [[1; 2; 3]], None))
      by (rewrite <- Hrun; vm_compute; reflexivity).
    injection H as Hi Hr Hc Hl.
    destruct (Hrun_flush s 0 _ _ Hi) as (s' & Hs' & Hl' & Hlast & _).
    rewrite Hi in Hr, Hc. injection Hr as Hr. injection Hc as Hc. simpl in Hr, Hc.
    exists s'. split; [exact Hs'|]. split; [by rewrite Hlast, Hr|].
    split; [|by rewrite Hl', Hl].
    simpl in Hs'. rewrite Hi in Hs'.
    destruct (runFlush _ (mach s)) as [r m1]. injection Hs' as <-. exact Hc.
  - destruct (run _ fresh_system) as [s|] eqn:Hrun; [|by vm_compute in Hrun].
    exists s. split; [reflexivity|].
    assert (H : (λ s, (buffered (mach s), world (mach s), LastError (mach s),
                       len (buffer (bat (mach s))))) <$> Some s =
                Some ([1], 0, None, 1))
      by (rewrite <- Hrun; vm_compute; reflexivity).
    injection H as Hb Hw Hl Hlen.
    destruct (reachable_config 3 1000 (Some flaky_sink) [] 0 _ s Hrun) as [_ Hfn].
    destruct (reachable_invariant 3 1000 (Some flaky_sink) [] 0 _ s Hrun)
      as ((Hwf & _) & _).
    split; [|split].
    + rewrite (HFr (mach s) flaky_sink Hwf Hfn); [|by rewrite Hlen].
      by rewrite Hb, Hw.
    + by rewrite HFlush, Hl.
    + destruct (step Flush_lock s) as [s'|] eqn:Hs';
        [|simpl in Hs'; by destruct (detach (mach s))].
      exists s'. split; [reflexivity|].
      rewrite (Hstep Flush_lock s s' Hs'); [exact Hl|discriminate].
Defined.

End examples.

Section examples_exhausted.
#[local] Existing Instance failing_store.

Lemma insertWithRetry_exhausted_witness :
  ∃ r st, insertWithRetry [7] 0 = Some (r, st) ∧
          r = Some (external 4) ∧ insertErrors st = 5.
Proof.
  destruct (insertWithRetry_exhausted (Collaborators0 := failing_store) [7] 0)
    as (r & st & Hrun & _ & _ & Hex).
  exists r, st. split; [exact Hrun|].
  vm_compute in Hrun. injection Hrun as <- <-.
  destruct Hex as (e1 & e2 & e3 & e4 & e5 & Hlog & Hr & Herr).
  - vm_compute. repeat constructor; discriminate.
  - vm_compute. repeat constructor.
  - split; [|exact Herr]. simpl in Hlog. by injection Hlog as _ _ _ _ <-.
Defined.

End examples_exhausted.

Section examples_cancelled.
#[local] Existing Instance cancelled_store.


End examples_cancelled.

(** * Part V: further properties of the code *)

Section batcher_further.
Context {T W E : Type} `{!Runtime T}.
Implicit Types (m : machine (T:=T) (W:=W) (E:=E)).
Implicit Types (s : system (T:=T) (W:=W) (E:=E)).
Implicit Types (a : action (T:=T)).
Implicit Types (fn : option (sink (T:=T) (W:=W) (E:=E))).
Implicit Types (h : list (list T)) (w : W).

(** X1. Along every interleaving the buffer, between critical sections,
    holds fewer items than the limit (the threshold, or 1 when the threshold
    is below 1); no detached batch exceeds the limit, and the sink is only
    ever handed batches of 1 to limit items. *)
Theorem batch_sizes_bounded N ivl fn h w acts s :
  run acts (start N ivl fn h w) = Some s →
  len (buffer (bat (mach s))) < Z.to_nat (Z.max 1 N) ∧
  Forall (λ b : list T, length b ≤ Z.to_nat (Z.max 1 N)) (detached (trace s)) ∧
  Forall (λ b : list T, 0 < length b ≤ Z.to_nat (Z.max 1 N)) (sink_calls (mach s)).
Proof.
  intros Hrun.
  destruct (reachable_items _ _ _ _ _ _ _ Hrun) as (_ & Hmax & _ & Hbd & _).
  destruct Hbd as (Hb & _ & Hd & Hc). unfold batch_limit in *.
  rewrite Hmax in *. done.
Qed.

(** X2. A producer alone, adding any number of items to a fresh instance
    with a sink: the sink is handed the items cut, in order, into
    consecutive batches of exactly the limit (the threshold, or 1 when the
    threshold is below 1), and the rest, fewer than the limit, stays in the
    buffer. Each call returns. *)
Theorem Adds_cut_into_full_batches
    (N ivl : Z) (f : sink (T:=T) (W:=W) (E:=E)) h w (items : list T) :
  let m0 := mkMachine (New N ivl (Some f)) h w [] in
  concat (sink_calls (Adds items m0).2) ++ buffered (Adds items m0).2 = items ∧
  Forall (λ b : list T, length b = Z.to_nat (Z.max 1 N))
    (sink_calls (Adds items m0).2) ∧
  length (buffered (Adds items m0).2) < Z.to_nat (Z.max 1 N) ∧
  length (Adds items m0).1 = length items.
Proof.
  intros m0.
  destruct (Adds_chunks items m0 f) as (new & Hwf & Hc & Hall & Hcat & Hl & Hrs).
  - done.
  - done.
  - unfold batch_limit. simpl. lia.
  - simpl in Hc. rewrite Hc. unfold batch_limit in *. simpl in *.
    split_and!; try done.
    unfold buffered. by rewrite (length_contents _ _ Hwf).
Qed.

(** X3. With a sink, along every interleaving, the items handed to the sink,
    those of the batches goroutines hold between [detach] and [runFlush],
    and those in the buffer are together exactly the items added, each as
    often as it was added: no item is lost inside the engine and none is
    handed over twice. *)
Theorem items_are_conserved
    (N ivl : Z) (f : sink (T:=T) (W:=W) (E:=E)) h w acts s :
  run acts (start N ivl (Some f) h w) = Some s →
  delivered (mach s) ++ in_flight_items s ++ buffered (mach s) ≡ₚ added (trace s).
Proof.
  intros Hrun.
  destruct (reachable_items _ _ _ _ _ _ _ Hrun) as (_ & _ & _ & _ & Hcons).
  by apply Hcons.
Qed.

(** X4. With a sink: once [Close] has returned, no batch of a producer is
    still in flight and the buffer is empty, the sink has been handed every
    item added, each as often as it was added. *)
Theorem all_items_delivered_after_Close
    (N ivl : Z) (f : sink (T:=T) (W:=W) (E:=E)) h w acts s r :
  run acts (start N ivl (Some f) h w) = Some s →
  close_at s = CReturned r → inflight s = [] →
  len (buffer (bat (mach s))) = 0 →
  delivered (mach s) ≡ₚ added (trace s).
Proof.
  intros Hrun Hc Hin Hz.
  destruct (reachable_items _ _ _ _ _ _ _ Hrun) as (Hinv & _ & _ & _ & Hcons).
  specialize (Hcons ltac:(done)). unfold conserved in Hcons.
  destruct Hinv as (_ & _ & [_ Hshut] & _). rewrite Hc in Hshut.
  destruct Hshut as [_ Hl].
  unfold in_flight_items, held_batches, buffered in Hcons.
  rewrite Hin, Hl, Hc, contents_len0 in Hcons by done. simpl in Hcons.
  by rewrite app_nil_r in Hcons.
Qed.

(** X5. The last-error slot is never cleared: from any state in which
    [LastError] yields an error, whatever happens next (ticks that succeed
    among it), it still yields one. *)
Theorem LastError_is_never_cleared acts s s' :
  run acts s = Some s' →
  is_Some (LastError (mach s)) → is_Some (LastError (mach s')).
Proof.
  unfold LastError. revert s. induction acts as [|a acts IH]; intros s; simpl.
  - by intros [= <-].
  - destruct (step a s) as [s1|] eqn:Hstep; [|done]. intros Hrun Hsome.
    apply (IH s1 Hrun). by eapply lastError_kept_step.
Qed.

(** X6. With a positive interval (else [time.NewTicker] panics in [loop],
    and [Close] would wait for ever) and a sink that returns whenever it is
    invoked, [Close] cannot get stuck: from every state of every
    interleaving, the scheduler and [Close] alone can take at most 7 actions
    after which [Close] has returned, whatever the sink answers. *)
Theorem Close_can_always_return N ivl fn h w acts s :
  (0 < ivl)%Z →
  run acts (start N ivl fn h w) = Some s →
  ∃ more s' r, length more ≤ 7 ∧
    Forall (λ a, by_scheduler a = true ∨ by_closer a = true) more ∧
    run more s = Some s' ∧ close_at s' = CReturned r.
Proof.
  intros Hivl Hrun. apply close_progress.
  - by eapply reachable_invariant.
  - apply (no_panic_run _ _ _ Hrun). simpl. by rewrite decide_True.
  - unfold close_distance. destruct (close_at s), (loop_at s); simpl; lia.
Qed.

(** X7. A tick of the scheduler on a non-empty buffer, with a sink: the sink
    is invoked once, by the scheduler, with all the buffered items in order;
    the buffer is left empty; and the scheduler goes on to record the error
    if the sink returned one, else back to its [select]. *)
Theorem tick_delivers_the_buffer
    (N ivl : Z) (f : sink (T:=T) (W:=W) (E:=E)) h w acts s :
  run acts (start N ivl (Some f) h w) = Some s →
  loop_at s = LSelect → len (buffer (bat (mach s))) ≠ 0 →
  ∃ s', run [Tick_lock; Tick_run] s = Some s' ∧
    sink_calls (mach s') = sink_calls (mach s) ++ [buffered (mach s)] ∧
    buffered (mach s') = [] ∧
    world (mach s') = (f (buffered (mach s)) (world (mach s))).2 ∧
    loop_at s' =
      match (f (buffered (mach s)) (world (mach s))).1 with
      | Some e => LRecord e
      | None => LSelect
      end ∧
    trace s' = trace s ++
      [EvDetach Scheduler (buffered (mach s));
       EvSink Scheduler (buffered (mach s))
         (f (buffered (mach s)) (world (mach s))).1].
Proof.
  intros Hrun Hpc Hnz.
  destruct (reachable_items _ _ _ _ _ _ _ Hrun) as (Hinv & _ & Hfn & _).
  destruct Hinv as ((Hwf & _) & _).
  pose proof (detach_sound _ Hwf) as Hd.
  rewrite run_cons. simpl step at 1. rewrite Hpc.
  destruct (detach (mach s)) as [batch m1]. simpl in Hd.
  destruct Hd as (Hbs & _ & _ & Hb & Hlb & Hc).
  destruct Hbs as (_ & (_ & _ & Hfn1 & _) & Hw & Hcalls & _).
  cbn [mbind option_bind]. rewrite run_singleton. simpl.
  unfold runFlush. rewrite decide_False by lia.
  rewrite Hfn1, Hfn, Hc, Hw.
  destruct (f (buffered (mach s)) (world (mach s))) as [r w1]. simpl.
  eexists. split; [done|]. simpl.
  unfold sink_events, buffered. simpl. rewrite Hcalls, drop_app_length. simpl.
  split_and!; try done. by rewrite <- app_assoc.
Qed.

End batcher_further.

Section retry_further.
Context {Ev W E : Type} `{!Collaborators Ev W E}.

(** X8. Every call of [insertWithRetry] returns after 1 to 5 insert
    attempts, numbered 1, 2, ... without gaps; each attempt but the last is
    followed by a wait, the last one by a wait only when the context cut it
    short; the waits are, in order, 200, 400, 800 and 1600 ms as far as they
    go, so one call backs off for at most 3 s in all; and [insertErrors] has
    counted exactly the failed attempts. *)
Theorem insertWithRetry_attempts_and_waits (events : list Ev) (w : W) :
  ∃ r st, insertWithRetry events w = Some (r, st) ∧
    1 ≤ length (attempts (rlog st)) ≤ 5 ∧
    (attempts (rlog st)).*1 = seqZ 1 (Z.of_nat (length (attempts (rlog st)))) ∧
    length (waits (rlog st)) ≤ length (attempts (rlog st))
      ≤ S (length (waits (rlog st))) ∧
    length (waits (rlog st)) ≤ 4 ∧
    (waits (rlog st)).*1 =
      take (length (waits (rlog st)))
        [200 * Millisecond; 400 * Millisecond;
         800 * Millisecond; 1600 * Millisecond]%Z ∧
    (total (waits (rlog st)).*1 ≤ 3000 * Millisecond)%Z ∧
    insertErrors st = failures (rlog st).
Proof.
  destruct (insertWithRetry_shape events w) as (r & st & Hrun & Hshape & Herr).
  exists r, st. split; [done|].
  destruct (retry_shape_numbering _ _ _ _ Hshape)
    as (Hatt & Hwaits & H1 & Hn & Hk & Hk4); [unfold maxAttempts; lia|].
  unfold maxAttempts in *.
  assert (Hk4' : length (waits (rlog st)) ≤ 4) by lia.
  assert (Htake : (waits (rlog st)).*1 =
    take (length (waits (rlog st)))
      [200 * Millisecond; 400 * Millisecond;
       800 * Millisecond; 1600 * Millisecond]%Z).
  { rewrite Hwaits at 1. by rewrite (backoffs_take _ 4) by done. }
  split_and!; try done; try lia.
  rewrite Htake. clear -Hk4'.
  destruct (length (waits (rlog st))) as [|[|[|[|[|k]]]]]; try lia;
    by vm_compute.
Qed.

(** X9. [insertWithRetry] returns nil exactly when one of its insert
    attempts succeeded; that attempt is then the last thing it did and its
    only success; and the batch size is observed once in that case and not
    at all otherwise. *)
Theorem insertWithRetry_nil_iff_inserted (events : list Ev) (w : W) :
  ∃ r st, insertWithRetry events w = Some (r, st) ∧
    (r = None ↔ ∃ n, Inserted n None ∈ rlog st) ∧
    (∀ n, Inserted n None ∈ rlog st →
          ∃ log0, rlog st = log0 ++ [Inserted n None] ∧
                  ∀ k, Inserted k None ∉ log0) ∧
    batchSizes st = match r with None => [length events] | Some _ => [] end.
Proof.
  destruct (insertWithRetry_shape events w) as (r & st & Hrun & Hshape & _).
  exists r, st. split; [done|].
  destruct (retry_shape_success _ _ _ _ Hshape) as [Hiff Hlast];
    [unfold maxAttempts; lia|].
  split_and!; try done.
  unfold insertWithRetry in Hrun.
  by apply retry_loop_sizes in Hrun; [|unfold maxAttempts; lia].
Qed.

End retry_further.

(** X10. The backoff has a closed form: started anywhere from above 0 up to
    the cap, the value of [backoff] in round [i] (counting from 0) is the
    start doubled [i] times, or 5 s if that is more. The doubling never
    overflows. *)
Theorem backoffs_closed_form n b :
  (0 < b ≤ 5 * Second)%Z →
  backoffs n b =
  (λ i : nat, Z.min (2 ^ Z.of_nat i * b) (5 * Second)) <$> seq 0 n.
Proof.
  revert b. induction n as [|n IH]; intros b Hb; [done|].
  simpl backoffs. rewrite (IH (next_backoff b)) by (by apply next_backoff_bounds).
  simpl. f_equal; [unfold Second in *; lia|].
  rewrite <- fmap_S_seq, <- list_fmap_compose. apply list_fmap_ext.
  intros _ i _. simpl.
  assert (Hnext : next_backoff b = Z.min (2 * b) (5 * Second)).
  { unfold next_backoff, wrap64, Second in *.
    rewrite Z.mod_small by lia.
    replace (b * 2 + 2 ^ 63 - 2 ^ 63)%Z with (b * 2)%Z by lia.
    case_decide; lia. }
  rewrite Hnext, Nat2Z.inj_succ, Z.pow_succ_r by lia.
  assert (1 ≤ 2 ^ Z.of_nat i)%Z by (apply Z.pow_le_mono_r with (b := 0%Z); lia).
  unfold Second in *. nia.
Qed.

Section bulk_insert_further.
Context {Ev P W E : Type} `{!Database Ev P W E}.
Implicit Types (st : db_state (Ev:=Ev) (P:=P) (W:=W)).

(** X11. [InsertBatch] touches the database in a fixed discipline. With no
    events it makes no call and returns nil. Otherwise the events it
    executes are a prefix, in order, of the events given; it commits only
    after executing all of them, and then never rolls back; when it returns
    nil it has begun, prepared, executed every event in order, committed and
    closed the statement, and nothing else; and when it does not commit, it
    returns an error and has rolled back, unless beginning the transaction
    was what failed. *)
Theorem InsertBatch_commits_all_or_rolls_back (events : list Ev) st :
  ∃ calls,
    db_calls (Client_InsertBatch events st).2 = db_calls st ++ calls ∧
    (events = [] →
     calls = [] ∧ (Client_InsertBatch events st).1 = None ∧
     db (Client_InsertBatch events st).2 = db st) ∧
    executed calls `prefix_of` events ∧
    (CallCommit ∈ calls → executed calls = events ∧ CallRollback ∉ calls) ∧
    ((Client_InsertBatch events st).1 = None → events ≠ [] →
     ∃ execs, Forall is_exec execs ∧ executed execs = events ∧
       calls = [CallBeginTx; CallPrepare] ++ execs ++ [CallCommit; CallStmtClose]) ∧
    (CallCommit ∉ calls → events ≠ [] →
     (Client_InsertBatch events st).1 ≠ None ∧
     (calls = [CallBeginTx] ∨ CallRollback ∈ calls)).
Proof.
  destruct events as [|evt events].
  { exists []. rewrite app_nil_r. split_and!; try done.
    intros Hin. by apply elem_of_nil in Hin. }
  assert (Hexec : ∀ (execs : list (db_call (Ev:=Ev) (P:=P))) c,
    Forall is_exec execs → c ∈ execs → is_exec c).
  { intros execs c Hall. rewrite Forall_forall in Hall. apply Hall. }
  assert (Hwrap : ∀ execs (tail : list (db_call (Ev:=Ev) (P:=P))),
    executed tail = [] → Forall is_exec execs →
    executed ([CallBeginTx; CallPrepare] ++ execs ++ tail) = executed execs).
  { intros execs tail Htail _. rewrite !executed_app, Htail, app_nil_r. done. }
  destruct (InsertBatch_shape (evt :: events) st) as (calls & Hc & Hshape); [done|].
  exists calls. split; [exact Hc|]. split; [done|].
  destruct Hshape as [[-> Hr]|[[-> Hr]|[(execs & Hall & Hpre & -> & Hr)
    |(execs & Hall & Hdone & ->)]]].
  - split_and!.
    + apply prefix_nil.
    + intros Hin. apply list_elem_of_singleton in Hin. done.
    + done.
    + intros _ _. split; [done|]. by left.
  - split_and!.
    + apply prefix_nil.
    + intros Hin. repeat (apply elem_of_cons in Hin as [Hin|Hin]; [done|]).
      by apply elem_of_nil in Hin.
    + done.
    + intros _ _. split; [done|]. right.
      do 2 (apply elem_of_cons; right). by apply elem_of_cons; left.
  - split_and!.
    + by rewrite Hwrap.
    + intros Hin. exfalso.
      repeat (apply elem_of_cons in Hin as [Hin|Hin]; [done|]).
      apply elem_of_app in Hin as [Hin|Hin]; [by apply (Hexec _ _ Hall) in Hin|].
      repeat (apply elem_of_cons in Hin as [Hin|Hin]; [done|]).
      by apply elem_of_nil in Hin.
    + done.
    + intros _ _. split; [done|]. right.
      do 2 (apply elem_of_cons; right). apply elem_of_app. right.
      by apply elem_of_cons; left.
  - split_and!.
    + by rewrite Hwrap, Hdone.
    + intros _. split; [by rewrite Hwrap|]. intros Hin.
      repeat (apply elem_of_cons in Hin as [Hin|Hin]; [done|]).
      apply elem_of_app in Hin as [Hin|Hin]; [by apply (Hexec _ _ Hall) in Hin|].
      repeat (apply elem_of_cons in Hin as [Hin|Hin]; [done|]).
      by apply elem_of_nil in Hin.
    + intros _ _. by exists execs.
    + intros Hno. exfalso. apply Hno.
      do 2 (apply elem_of_cons; right). apply elem_of_app. right.
      by apply elem_of_cons; left.
Qed.

End bulk_insert_further.

Section loader_further.
Context {Ev W E : Type} `{!Runtime Ev} `{!Collaborators Ev W E}.

(** X12. In the loader, where the batcher's sink is [flusher]: a [Flush] of
    a non-empty buffer runs [insertWithRetry] once on all the buffered
    events in order, with at most 5 insert attempts, and returns its result;
    whatever that result is, the buffer is empty afterwards. *)
Theorem Flush_through_flusher (N ivl : Z) h (w : W) acts
    (s : system (T:=Ev) (W:=W) (E:=E)) :
  run acts (start N ivl (Some flusher) h w) = Some s →
  len (buffer (bat (mach s))) ≠ 0 →
  ∃ r st,
    insertWithRetry (buffered (mach s)) (world (mach s)) = Some (r, st) ∧
    (Flush (mach s)).1 = r ∧
    world (Flush (mach s)).2 = rworld st ∧
    buffered (Flush (mach s)).2 = [] ∧
    sink_calls (Flush (mach s)).2 = sink_calls (mach s) ++ [buffered (mach s)] ∧
    length (attempts (rlog st)) ≤ 5.
Proof.
  intros Hrun Hnz.
  destruct (reachable_items _ _ _ _ _ _ _ Hrun) as (Hinv & _ & Hfn & _).
  destruct Hinv as ((Hwf & _) & _).
  destruct (Flush_sink_spec _ _ Hwf Hfn Hnz) as (Hr & Hw & Hb & Hc).
  destruct (insertWithRetry_shape (buffered (mach s)) (world (mach s)))
    as (r & st & Hret & Hshape & _).
  exists r, st. unfold flusher in Hr, Hw. rewrite Hret in Hr, Hw.
  split_and!; try done.
  destruct (retry_shape_numbering _ _ _ _ Hshape) as (_ & _ & _ & Hn & _);
    unfold maxAttempts in *; lia.
Qed.

End loader_further.

Section enricher_further.
Context {B Raw Enr W E : Type} `{!Enricher B Raw Enr W E}.

(** X13. However long the enricher's loop has run, its counters account for
    every message: [msgsConsumed] counts the messages read, [msgsProduced]
    the successful writes and [errorsTotal] the failures; every consumed
    message was either produced or counted as an error, so the two sums
    differ exactly by the failed reads; and the successful writes carry, in
    order, keys of the messages read. *)
Theorem enricher_accounts_for_every_message (salt : string) (n : nat) (w : W) :
  let st := (enricher_loop n salt (enricher_start w)).2 in
  msgsConsumed st = length (consumed_msgs (en_trace st)) ∧
  msgsProduced st = length (produced_msgs (en_trace st)) ∧
  errorsTotal st = length (filter is_failure (en_trace st)) ∧
  msgsProduced st + errorsTotal st =
    msgsConsumed st + length (filter is_read_failure (en_trace st)) ∧
  msgsProduced st ≤ msgsConsumed st ≤ msgsProduced st + errorsTotal st ∧
  Key <$> produced_msgs (en_trace st) `sublist_of`
    Key <$> consumed_msgs (en_trace st).
Proof.
  intros st.
  destruct (accounted_loop n salt (enricher_start w) (accounted_start w))
    as (Hc & Hp & He & Hsum & Hkeys).
  fold st in Hc, Hp, He, Hsum, Hkeys.
  split_and!; try done.
  - rewrite Hp, Hc, <- !(length_fmap Key). by apply sublist_length.
  - lia.
Qed.

End enricher_further.

(** * Part VI: the further properties on concrete instances *)

Section further_examples.
#[local] Existing Instance nat_runtime.

(** Threshold 3; two items, a tick, a third item and a caller's flush. *)
Lemma batch_sizes_bounded_witness :
  ∃ s, run [Add_lock 1; Add_lock 2; Tick_lock; Tick_run; Add_lock 3; Flush_lock]
         fresh_system = Some s ∧
       sink_calls (mach s) = [[1; 2]] ∧
       len (buffer (bat (mach s))) < Z.to_nat (Z.max 1 3) ∧
       Forall (λ b : list nat, 0 < length b ≤ Z.to_nat (Z.max 1 3))
         (sink_calls (mach s)).
Proof.
  destruct (run _ fresh_system) as [s|] eqn:Hrun; [|by vm_compute in Hrun].
  exists s. split; [reflexivity|].
  assert (Hc : sink_calls ∘ mach <$> Some s = Some [[1; 2]])
    by (rewrite <- Hrun; vm_compute; reflexivity).
  injection Hc as Hc. split; [exact Hc|].
  destruct (batch_sizes_bounded 3 1000 (Some flaky_sink) [] 0 _ s Hrun)
    as (Hb & _ & Hs).
  split; [exact Hb|exact Hs].
Defined.

(** One batch delivered, one in a caller's hands, nothing buffered. *)
Lemma items_are_conserved_witness :
  ∃ s, run [Add_lock 1; Add_lock 2; Tick_lock; Tick_run; Add_lock 3; Flush_lock]
         fresh_system = Some s ∧
       added (trace s) = [1; 2; 3] ∧
       delivered (mach s) = [1; 2] ∧
       delivered (mach s) ++ in_flight_items s ++ buffered (mach s)
         ≡ₚ added (trace s).
Proof.
  destruct (run _ fresh_system) as [s|] eqn:Hrun; [|by vm_compute in Hrun].
  exists s. split; [reflexivity|].
  assert (Ha : added ∘ trace <$> Some s = Some [1; 2; 3])
    by (rewrite <- Hrun; vm_compute; reflexivity).
  assert (Hd : delivered ∘ mach <$> Some s = Some [1; 2])
    by (rewrite <- Hrun; vm_compute; reflexivity).
  injection Ha as Ha. injection Hd as Hd.
  split; [exact Ha|]. split; [exact Hd|].
  exact (items_are_conserved 3 1000 flaky_sink [] 0 _ s Hrun).
Defined.

(** [Close] with one item left in the buffer. *)
Lemma all_items_delivered_after_Close_witness :
  ∃ s, run [Add_lock 1; Close_stop; Loop_exit; Close_wait; Close_lock; Close_run]
         fresh_system = Some s ∧
       added (trace s) = [1] ∧
       delivered (mach s) ≡ₚ added (trace s).
Proof.
  destruct (run _ fresh_system) as [s|] eqn:Hrun; [|by vm_compute in Hrun].
  exists s. split; [reflexivity|].
  assert (Ha : added ∘ trace <$> Some s = Some [1])
    by (rewrite <- Hrun; vm_compute; reflexivity).
  assert (Hc : close_at <$> Some s = Some (CReturned (Some (external 0))))
    by (rewrite <- Hrun; vm_compute; reflexivity).
  assert (Hi : inflight <$> Some s = Some [])
    by (rewrite <- Hrun; vm_compute; reflexivity).
  assert (Hl : len ∘ buffer ∘ bat ∘ mach <$> Some s = Some 0)
    by (rewrite <- Hrun; vm_compute; reflexivity).
  injection Ha as Ha. injection Hc as Hc. injection Hi as Hi. injection Hl as Hl.
  split; [exact Ha|].
  exact (all_items_delivered_after_Close 3 1000 flaky_sink [] 0 _ s _ Hrun Hc Hi Hl).
Defined.

(** A failed tick, then two more ticks, the second of which succeeds. *)
Lemma LastError_is_never_cleared_witness :
  ∃ s s', run [Add_lock 1; Tick_lock; Tick_run; Tick_record] fresh_system = Some s ∧
          run [Add_lock 2; Tick_lock; Tick_run; Tick_record;
               Add_lock 3; Tick_lock; Tick_run] s = Some s' ∧
          LastError (mach s) = Some (external 0) ∧
          sink_calls (mach s') = [[1]; [2]; [3]] ∧
          is_Some (LastError (mach s')).
Proof.
  destruct (run ([Add_lock 1; Tick_lock; Tick_run; Tick_record] ++
                 [Add_lock 2; Tick_lock; Tick_run; Tick_record;
                  Add_lock 3; Tick_lock; Tick_run]) fresh_system)
    as [s'|] eqn:Hrun'; [|by vm_compute in Hrun'].
  assert (Hc : sink_calls ∘ mach <$> Some s' = Some [[1]; [2]; [3]])
    by (rewrite <- Hrun'; vm_compute; reflexivity).
  injection Hc as Hc.
  rewrite run_app in Hrun'.
  destruct (run _ fresh_system) as [s|] eqn:Hrun; [|by vm_compute in Hrun].
  exists s, s'. split; [reflexivity|]. split; [exact Hrun'|].
  assert (Hl : LastError ∘ mach <$> Some s = Some (Some (external 0)))
    by (rewrite <- Hrun; vm_compute; reflexivity).
  injection Hl as Hl. split; [exact Hl|]. split; [exact Hc|].
  apply (LastError_is_never_cleared _ s s' Hrun'). by rewrite Hl.
Defined.

(** A producer holds a batch, the scheduler is in its [select]. *)
Lemma Close_can_always_return_witness :
  ∃ s, run [Add_lock 1; Add_lock 2; Add_lock 3; Add_lock 4] fresh_system = Some s ∧
       ∃ more s' r, length more ≤ 7 ∧
         Forall (λ a, by_scheduler a = true ∨ by_closer a = true) more ∧
         run more s = Some s' ∧ close_at s' = CReturned r.
Proof.
  destruct (run _ fresh_system) as [s|] eqn:Hrun; [|by vm_compute in Hrun].
  exists s. split; [reflexivity|].
  assert (Hivl : (0 < 1000)%Z) by lia.
  exact (Close_can_always_return 3 1000 (Some flaky_sink) [] 0 _ s Hivl Hrun).
Defined.

(** A tick on a buffer of two items; the flaky sink fails. *)
Lemma tick_delivers_the_buffer_witness :
  ∃ s, run [Add_lock 1; Add_lock 2] fresh_system = Some s ∧
       ∃ s', run [Tick_lock; Tick_run] s = Some s' ∧
             sink_calls (mach s') = [[1; 2]] ∧
             buffered (mach s') = [] ∧
             loop_at s' = LRecord (external 0).
Proof.
  destruct (run _ fresh_system) as [s|] eqn:Hrun; [|by vm_compute in Hrun].
  exists s. split; [reflexivity|].
  assert (Hb : buffered ∘ mach <$> Some s = Some [1; 2])
    by (rewrite <- Hrun; vm_compute; reflexivity).
  assert (Hl : len ∘ buffer ∘ bat ∘ mach <$> Some s = Some 2)
    by (rewrite <- Hrun; vm_compute; reflexivity).
  assert (Hpc : loop_at <$> Some s = Some LSelect)
    by (rewrite <- Hrun; vm_compute; reflexivity).
  assert (Hc : sink_calls ∘ mach <$> Some s = Some [])
    by (rewrite <- Hrun; vm_compute; reflexivity).
  assert (Hw : world ∘ mach <$> Some s = Some 0)
    by (rewrite <- Hrun; vm_compute; reflexivity).
  injection Hb as Hb. injection Hl as Hl. injection Hpc as Hpc.
  injection Hc as Hc. injection Hw as Hw. simpl in Hl, Hc, Hw.
  destruct (tick_delivers_the_buffer 3 1000 flaky_sink [] 0 _ s Hrun Hpc)
    as (s' & Hrun' & Hcalls & Hbuf & _ & Hloop & _); [by rewrite Hl|].
  exists s'. split; [exact Hrun'|].
  rewrite Hc, Hb in Hcalls. rewrite Hb, Hw in Hloop.
  split; [exact Hcalls|]. split; [exact Hbuf|exact Hloop].
Defined.

End further_examples.

Section further_examples_recovering.
#[local] Existing Instance recovering_store.

(** Two failures, then a success at the third attempt. *)
Lemma insertWithRetry_nil_iff_inserted_witness :
  ∃ r st, insertWithRetry [7; 8] 0 = Some (r, st) ∧
          r = None ∧ batchSizes st = [2] ∧ insertErrors st = 2.
Proof.
  destruct (insertWithRetry_nil_iff_inserted
              (Collaborators0 := recovering_store) [7; 8] 0)
    as (r & st & Hrun & Hiff & _ & Hsizes).
  exists r, st. split; [exact Hrun|].
  vm_compute in Hrun. injection Hrun as <- <-.
  split; [|split; [exact Hsizes|reflexivity]].
  apply Hiff. exists 3%Z.
  apply list_elem_of_In. simpl. do 4 right. left. reflexivity.
Defined.

End further_examples_recovering.

(** The backoffs of six rounds from 200 ms: the sixth is capped. *)
Lemma backoffs_closed_form_witness :
  backoffs 6 (200 * Millisecond) =
  (λ i : nat, Z.min (2 ^ Z.of_nat i * (200 * Millisecond)) (5 * Second))
    <$> seq 0 6.
Proof. apply backoffs_closed_form. unfold Millisecond, Second. lia. Defined.

Section further_examples_database.
#[local] Existing Instance picky_db.

(** Two events the database accepts: committed, not rolled back. *)
Lemma InsertBatch_commits_all_or_rolls_back_witness :
  ∃ calls, db_calls (Client_InsertBatch [1; 2] (mkDb 0 [])).2 = calls ∧
           executed calls = [1; 2] ∧ CallRollback ∉ calls.
Proof.
  destruct (InsertBatch_commits_all_or_rolls_back
              (Database0 := picky_db) [1; 2] (mkDb 0 []))
    as (calls & Hc & _ & _ & Hcommit & _).
  exists calls. split; [exact Hc|].
  vm_compute in Hc. subst calls. apply Hcommit.
  apply list_elem_of_In. simpl. do 4 right. left. reflexivity.
Defined.

End further_examples_database.

Section further_examples_loader.
#[local] Existing Instance nat_runtime.
#[local] Existing Instance failing_store.

(** A flush of two buffered events into a store that always fails: five
    attempts, the last error returned, the events gone from the buffer. *)
Lemma Flush_through_flusher_witness :
  ∃ s, run [Add_lock 1; Add_lock 2] failing_loader = Some s ∧
       ∃ r st, insertWithRetry (buffered (mach s)) (world (mach s)) = Some (r, st) ∧
               (Flush (mach s)).1 = r ∧
               buffered (Flush (mach s)).2 = [] ∧
               length (attempts (rlog st)) ≤ 5.
Proof.
  destruct (run _ failing_loader) as [s|] eqn:Hrun; [|by vm_compute in Hrun].
  exists s. split; [reflexivity|].
  assert (Hl : len ∘ buffer ∘ bat ∘ mach <$> Some s = Some 2)
    by (rewrite <- Hrun; vm_compute; reflexivity).
  injection Hl as Hl. simpl in Hl.
  destruct (Flush_through_flusher (Collaborators0 := failing_store)
              3 1000 [] 0 _ s Hrun)
    as (r & st & Hret & Hr & _ & Hb & _ & Hn); [by rewrite Hl|].
  exists r, st. split; [exact Hret|]. split; [exact Hr|]. split; [exact Hb|exact Hn].
Defined.

End further_examples_loader.
